(** * The Noise handshake / transport handler of Baileys

    A shallow embedding of [src/Utils/noise-handler.ts]
    ([makeNoiseHandler] and the closures it returns) together with the
    properties of its symmetric state, its AEAD wrapper and its framer.

    Layout: JavaScript integers and buffers, the platform primitives the
    module imports, the handler state and its monad, the handler's functions,
    execution traces, and then the theorems. *)

From Stdlib Require Import ZArith Lia Bool String.
From Stdlib Require Import Strings.Byte.
From stdpp Require Import base option list.

Local Open Scope Z_scope.

(** ** JavaScript numbers and bit operations

    The bit operators of JavaScript work on the 32-bit two's complement
    image of their operands ([ToInt32]); [DataView.setUint32] stores
    [ToUint32] of its argument.  Lengths and counters are integral JS
    numbers; they are embedded as [Z] (integer arithmetic on doubles is exact
    below 2^53, far above any value a counter or a length takes here). *)

Definition ToUint32 (z : Z) : Z := z mod 2 ^ 32.

Definition ToInt32 (z : Z) : Z :=
  let m := z mod 2 ^ 32 in
  if m <? 2 ^ 31 then m else m - 2 ^ 32.

(** [a >> n] *)
Definition js_sar (a n : Z) : Z := Z.shiftr (ToInt32 a) (n mod 32).

(** [a << n] *)
Definition js_shl (a n : Z) : Z := ToInt32 (Z.shiftl (ToInt32 a) (n mod 32)).

(** [a & b] *)
Definition js_and (a b : Z) : Z := Z.land (ToInt32 a) (ToInt32 b).

(** [a | b] *)
Definition js_or (a b : Z) : Z := Z.lor (ToInt32 a) (ToInt32 b).

(** ** Buffers

    [Buffer] and [Uint8Array] values are lists of bytes.  No function of the
    module writes into a buffer that another variable still refers to, so the
    value semantics of lists is exact. *)

Abbreviation byte := Byte.byte.
Abbreviation bytes := (list Byte.byte).

Definition byteLength (b : bytes) : Z := Z.of_nat (length b).

(** The byte stored by [buf[i] = z] into a [Uint8Array]: [z] modulo 256. *)
Definition u8 (z : Z) : byte :=
  default Byte.x00 (Byte.of_N (Z.to_N (z mod 256))).

Definition byteVal (b : byte) : Z := Z.of_N (Byte.to_N b).

(** What the handler can throw. *)
Inductive Error : Type :=
| RangeError        (* ERR_OUT_OF_RANGE and out-of-bounds accesses of Buffer *)
| CryptoError       (* thrown by the decipher: setAuthTag / final *)
| DecodeError       (* thrown by a protobuf or binary-node decoder *)
| Boom (message : string) (statusCode : Z)
| FuelExhausted.    (* artefact of the embedding of [while]; see [decodeFrame_total] *)

Inductive Res (A : Type) : Type :=
| Ok (a : A)
| Throw (e : Error).
Arguments Ok {A} a.
Arguments Throw {A} e.

Definition Buffer_alloc (size : Z) : bytes := repeat Byte.x00 (Z.to_nat size).

(** [start] or [end] of a slice, made relative to the length. *)
Definition clampIndex (len i : Z) : Z :=
  if i <? 0 then Z.max (len + i) 0 else Z.min i len.

(** [b.slice(start, stop)]; [stop = None] is [b.slice(start)]. *)
Definition slice (b : bytes) (start : Z) (stop : option Z) : bytes :=
  let len := byteLength b in
  let k := clampIndex len start in
  let final := match stop with Some e => clampIndex len e | None => len end in
  take (Z.to_nat (final - k)) (drop (Z.to_nat k) b).

(** [target.set(source, offset)] *)
Definition Buffer_set (source : bytes) (offset : Z) (target : bytes) : Res bytes :=
  if (0 <=? offset) && (offset + byteLength source <=? byteLength target) then
    Ok (take (Z.to_nat offset) target ++ source
        ++ drop (Z.to_nat (offset + byteLength source)) target)
  else Throw RangeError.

(** [buf.writeUInt8(value, offset)] *)
Definition writeUInt8 (value offset : Z) (buf : bytes) : Res bytes :=
  if (0 <=? value) && (value <=? 255) then
    if (0 <=? offset) && (offset + 1 <=? byteLength buf) then
      Ok (<[Z.to_nat offset := u8 value]> buf)
    else Throw RangeError
  else Throw RangeError.

(** [buf.writeUInt16BE(value, offset)] *)
Definition writeUInt16BE (value offset : Z) (buf : bytes) : Res bytes :=
  if (0 <=? value) && (value <=? 65535) then
    if (0 <=? offset) && (offset + 2 <=? byteLength buf) then
      Ok (<[Z.to_nat (offset + 1) := u8 value]>
            (<[Z.to_nat offset := u8 (Z.shiftr value 8)]> buf))
    else Throw RangeError
  else Throw RangeError.

(** [buf.readUInt8(offset)] *)
Definition readUInt8 (offset : Z) (buf : bytes) : Res Z :=
  match (if 0 <=? offset then buf !! Z.to_nat offset else None) with
  | Some b => Ok (byteVal b)
  | None => Throw RangeError
  end.

(** [buf.readUInt16BE(offset)] *)
Definition readUInt16BE (offset : Z) (buf : bytes) : Res Z :=
  match (if 0 <=? offset then buf !! Z.to_nat offset else None),
        (if 0 <=? offset then buf !! Z.to_nat (offset + 1) else None) with
  | Some first, Some last => Ok (byteVal first * 2 ^ 8 + byteVal last)
  | _, _ => Throw RangeError
  end.

(** [new DataView(buf).setUint32(offset, value)]: big-endian; the offsets the
    module uses are in range. *)
Definition setUint32 (offset value : Z) (buf : bytes) : bytes :=
  let v := ToUint32 value in
  let o := Z.to_nat offset in
  <[(o + 3)%nat := u8 v]>
    (<[(o + 2)%nat := u8 (Z.shiftr v 8)]>
       (<[(o + 1)%nat := u8 (Z.shiftr v 16)]>
          (<[o := u8 (Z.shiftr v 24)]> buf))).

(** [Buffer.compare(a, b)]: -1, 0 or 1, by the first byte that differs, then
    by length. *)
Fixpoint Buffer_compare (a b : bytes) : Z :=
  match a, b with
  | [], [] => 0
  | [], _ :: _ => -1
  | _ :: _, [] => 1
  | x :: a', y :: b' =>
      if byteVal x <? byteVal y then -1
      else if byteVal y <? byteVal x then 1
      else Buffer_compare a' b'
  end.

(** ** Module constants and [generateIV] *)

Definition TAG_LENGTH : Z := js_sar 128 3.

Definition generateIV (counter : Z) : bytes :=
  let iv := repeat Byte.x00 12 (* new ArrayBuffer(12) *) in
  setUint32 8 counter iv.

(** ** The platform

    What the module imports and this file does not define: the hash, the key
    derivation, AES-256-GCM of node's [crypto], the curve, the two constants
    of [Defaults], the protobuf decoders of the certificate and the decoder of
    binary nodes.  The handler is verified for every platform. *)

Class Platform : Type := {
  (** [sha256(data)] *)
  sha256 : bytes -> bytes;
  (** [hkdf(ikm, length, { salt, info })] *)
  hkdf : bytes -> Z -> bytes -> string -> bytes;
  (** [createCipheriv('aes-256-gcm', key, iv, { authTagLength })], [setAAD],
      [update], [final], [getAuthTag]: the ciphertext ([update] followed by
      [final]) and the tag *)
  gcm_encrypt : forall (key iv aad plaintext : bytes), bytes * bytes;
  (** [createDecipheriv('aes-256-gcm', key, iv)], [setAAD], [setAuthTag],
      [update], [final]: the plaintext, or [None] when the decipher throws *)
  gcm_decrypt : forall (key iv aad enc tag : bytes), option bytes;
  (** [Curve.sharedKey(privateKey, publicKey)] *)
  sharedKey : bytes -> bytes -> bytes;
  NOISE_MODE : bytes;
  NOISE_WA_HEADER : bytes;
  (** [proto.NoiseCertificate.decode(b).details]; [None] when it throws *)
  NoiseCertificate_details : bytes -> option bytes;
  (** [proto.NoiseCertificateDetails.decode(b).key]; [None] when it throws *)
  NoiseCertificateDetails_key : bytes -> option bytes;
  BinaryNode : Type;
  (** [decodeBinaryNode(b)]; [None] when it throws *)
  decodeBinaryNode : bytes -> option BinaryNode
}.

Record KeyPair : Type := { public : bytes; private : bytes }.

(** [proto.HandshakeMessage.serverHello] *)
Record ServerHello : Type := {
  ephemeral : bytes;
  static : bytes;
  payload : bytes
}.

(** ** The state of a handler: the [let] variables of [makeNoiseHandler] *)

Record NoiseState : Type := {
  hash : bytes;
  salt : bytes;
  encKey : bytes;
  decKey : bytes;
  readCounter : Z;
  writeCounter : Z;
  isFinished : bool;
  sentIntro : bool;
  inBytes : bytes
}.

Definition set_hash (v : bytes) (s : NoiseState) : NoiseState :=
  {| hash := v; salt := salt s; encKey := encKey s; decKey := decKey s;
     readCounter := readCounter s; writeCounter := writeCounter s;
     isFinished := isFinished s; sentIntro := sentIntro s; inBytes := inBytes s |}.

Definition set_salt (v : bytes) (s : NoiseState) : NoiseState :=
  {| hash := hash s; salt := v; encKey := encKey s; decKey := decKey s;
     readCounter := readCounter s; writeCounter := writeCounter s;
     isFinished := isFinished s; sentIntro := sentIntro s; inBytes := inBytes s |}.

Definition set_encKey (v : bytes) (s : NoiseState) : NoiseState :=
  {| hash := hash s; salt := salt s; encKey := v; decKey := decKey s;
     readCounter := readCounter s; writeCounter := writeCounter s;
     isFinished := isFinished s; sentIntro := sentIntro s; inBytes := inBytes s |}.

Definition set_decKey (v : bytes) (s : NoiseState) : NoiseState :=
  {| hash := hash s; salt := salt s; encKey := encKey s; decKey := v;
     readCounter := readCounter s; writeCounter := writeCounter s;
     isFinished := isFinished s; sentIntro := sentIntro s; inBytes := inBytes s |}.

Definition set_readCounter (v : Z) (s : NoiseState) : NoiseState :=
  {| hash := hash s; salt := salt s; encKey := encKey s; decKey := decKey s;
     readCounter := v; writeCounter := writeCounter s;
     isFinished := isFinished s; sentIntro := sentIntro s; inBytes := inBytes s |}.

Definition set_writeCounter (v : Z) (s : NoiseState) : NoiseState :=
  {| hash := hash s; salt := salt s; encKey := encKey s; decKey := decKey s;
     readCounter := readCounter s; writeCounter := v;
     isFinished := isFinished s; sentIntro := sentIntro s; inBytes := inBytes s |}.

Definition set_isFinished (v : bool) (s : NoiseState) : NoiseState :=
  {| hash := hash s; salt := salt s; encKey := encKey s; decKey := decKey s;
     readCounter := readCounter s; writeCounter := writeCounter s;
     isFinished := v; sentIntro := sentIntro s; inBytes := inBytes s |}.

Definition set_sentIntro (v : bool) (s : NoiseState) : NoiseState :=
  {| hash := hash s; salt := salt s; encKey := encKey s; decKey := decKey s;
     readCounter := readCounter s; writeCounter := writeCounter s;
     isFinished := isFinished s; sentIntro := v; inBytes := inBytes s |}.

Definition set_inBytes (v : bytes) (s : NoiseState) : NoiseState :=
  {| hash := hash s; salt := salt s; encKey := encKey s; decKey := decKey s;
     readCounter := readCounter s; writeCounter := writeCounter s;
     isFinished := isFinished s; sentIntro := sentIntro s; inBytes := v |}.

(** ** Observations and the handler monad

    A handler function reads and assigns the state, may throw, and has two
    kinds of effect outside the state: it runs a cipher of node's [crypto],
    and [decodeFrame] calls [onFrame].  Both are recorded, in order, in a log
    of events.  [EvCipher] is logged when a cipher has produced its result
    (for a decipher, after the tag was verified), with the key and the
    counter it was created from; [EvRekey] is logged when the keys are
    reassigned.  The log is the trace of a run and is not read by the code. *)

Inductive Direction : Type := Seal | Unseal.

Section Handler.
Context `{PF : Platform}.

(** What [onFrame] receives. *)
Inductive Frame : Type :=
| RawFrame (b : bytes)
| NodeFrame (n : BinaryNode).

Inductive Event : Type :=
| EvCipher (dir : Direction) (finished : bool) (key : bytes) (counter : Z)
| EvRekey
| EvFrame (f : Frame).

(** The outcome of a call: the value returned or the error thrown, the state
    the call leaves (also when it throws) and the events of the call. *)
Definition M (A : Type) : Type := NoiseState -> Res A * NoiseState * list Event.

Definition retM {A} (a : A) : M A := fun st => (Ok a, st, []).

Definition bindM {A B} (f : A -> M B) (m : M A) : M B := fun st =>
  match m st with
  | (Ok a, st1, ev1) =>
      match f a st1 with
      | (r, st2, ev2) => (r, st2, ev1 ++ ev2)
      end
  | (Throw e, st1, ev1) => (Throw e, st1, ev1)
  end.

#[global] Instance M_ret : MRet M := @retM.
#[global] Instance M_bind : MBind M := @bindM.

Definition throw {A} (e : Error) : M A := fun st => (Throw e, st, []).
Definition getState : M NoiseState := fun st => (Ok st, st, []).
Definition modify (f : NoiseState -> NoiseState) : M unit := fun st => (Ok tt, f st, []).
Definition emit (e : Event) : M unit := fun st => (Ok tt, st, [e]).

Definition liftRes {A} (r : Res A) : M A := fun st => (r, st, []).

Definition liftOpt {A} (e : Error) (o : option A) : M A :=
  match o with Some a => retM a | None => throw e end.

Definition resultOf {A} (o : Res A * NoiseState * list Event) : Res A := o.1.1.
Definition stateOf {A} (o : Res A * NoiseState * list Event) : NoiseState := o.1.2.
Definition eventsOf {A} (o : Res A * NoiseState * list Event) : list Event := o.2.

(** ** The functions of the handler *)

Definition authenticate (data : bytes) : M unit :=
  st ← getState;
  if negb (isFinished st) then
    modify (set_hash (sha256 (hash st ++ data)))
  else mret tt.

Definition encrypt (plaintext : bytes) : M bytes :=
  st ← getState;
  let iv := generateIV (writeCounter st) in
  let '(body, tag) := gcm_encrypt (encKey st) iv (hash st) plaintext in
  let result := body ++ tag in
  emit (EvCipher Seal (isFinished st) (encKey st) (writeCounter st));;
  modify (fun s => set_writeCounter (writeCounter s + 1) s);;
  authenticate result;;
  mret result.

(** The two slices [decrypt] takes of its argument. *)
Definition cipherBody (ciphertext : bytes) : bytes :=
  slice ciphertext 0 (Some (byteLength ciphertext - TAG_LENGTH)).

Definition cipherTag (ciphertext : bytes) : bytes :=
  slice ciphertext (byteLength ciphertext - TAG_LENGTH) None.

(** The counter [decrypt] makes its IV from. *)
Definition decryptCounter (st : NoiseState) : Z :=
  if isFinished st then readCounter st else writeCounter st.

Definition decrypt (ciphertext : bytes) : M bytes :=
  st ← getState;
  let iv := generateIV (decryptCounter st) in
  let enc := cipherBody ciphertext in
  let tag := cipherTag ciphertext in
  result ← liftOpt CryptoError (gcm_decrypt (decKey st) iv (hash st) enc tag);
  emit (EvCipher Unseal (isFinished st) (decKey st) (decryptCounter st));;
  (if isFinished st then
     modify (fun s => set_readCounter (readCounter s + 1) s)
   else
     modify (fun s => set_writeCounter (writeCounter s + 1) s));;
  authenticate ciphertext;;
  mret result.

Definition localHKDF (data : bytes) : M (bytes * bytes) :=
  st ← getState;
  let key := hkdf data 64 (salt st) EmptyString in
  mret (slice key 0 (Some 32), slice key 32 None).

Definition mixIntoKey (data : bytes) : M unit :=
  '(write, read) ← localHKDF data;
  modify (set_salt write);;
  modify (set_encKey read);;
  modify (set_decKey read);;
  modify (set_readCounter 0);;
  modify (set_writeCounter 0);;
  emit EvRekey.

Definition finishInit : M unit :=
  '(write, read) ← localHKDF [];
  modify (set_encKey write);;
  modify (set_decKey read);;
  modify (set_hash []);;
  modify (set_readCounter 0);;
  modify (set_writeCounter 0);;
  modify (set_isFinished true);;
  emit EvRekey.

(** The variables as [makeNoiseHandler] declares them, before its two calls
    of [authenticate]. *)
Definition declaredState : NoiseState :=
  let data := NOISE_MODE in
  let hash := if byteLength data =? 32 then data else sha256 data in
  {| hash := hash; salt := hash; encKey := hash; decKey := hash;
     readCounter := 0; writeCounter := 0;
     isFinished := false; sentIntro := false; inBytes := Buffer_alloc 0 |}.

(** The state of the handler [makeNoiseHandler] returns. *)
Definition makeNoiseHandler (self : KeyPair) : NoiseState :=
  stateOf ((authenticate NOISE_WA_HEADER;; authenticate (public self)) declaredState).

Definition processHandshake (self : KeyPair) (serverHello : ServerHello)
    (noiseKey : KeyPair) : M bytes :=
  authenticate (ephemeral serverHello);;
  mixIntoKey (sharedKey (private self) (ephemeral serverHello));;
  decStaticContent ← decrypt (static serverHello);
  mixIntoKey (sharedKey (private self) decStaticContent);;
  certDecoded ← decrypt (payload serverHello);
  certDetails ← liftOpt DecodeError (NoiseCertificate_details certDecoded);
  certKey ← liftOpt DecodeError (NoiseCertificateDetails_key certDetails);
  (if negb (Buffer_compare decStaticContent certKey =? 0) then
     throw (Boom "certification match failed" 400)
   else mret tt);;
  keyEnc ← encrypt (public noiseKey);
  mixIntoKey (sharedKey (private noiseKey) (ephemeral serverHello));;
  mret keyEnc.

Definition encodeFrame (data : bytes) : M bytes :=
  st ← getState;
  data ← (if isFinished st then encrypt data else mret data);
  st ← getState;
  let introSize := if sentIntro st then 0 else byteLength NOISE_WA_HEADER in
  let frame := Buffer_alloc (introSize + 3 + byteLength data) in
  frame ← (if negb (sentIntro st) then
              frame ← liftRes (Buffer_set NOISE_WA_HEADER 0 frame);
              modify (set_sentIntro true);;
              mret frame
            else mret frame);
  frame ← liftRes (writeUInt8 (js_sar (byteLength data) 16) introSize frame);
  frame ← liftRes (writeUInt16BE (js_and 65535 (byteLength data)) (introSize + 1) frame);
  frame ← liftRes (Buffer_set data (introSize + 3) frame);
  mret frame.

(** [getBytesSize()] of [decodeFrame]: [None] is [undefined]. *)
Definition getBytesSize : M (option Z) :=
  st ← getState;
  if byteLength (inBytes st) >=? 3 then
    hi ← liftRes (readUInt8 0 (inBytes st));
    lo ← liftRes (readUInt16BE 1 (inBytes st));
    mret (Some (js_or (js_shl hi 16) lo))
  else mret None.

(** The condition of the [while]: [size && inBytes.length >= size + 3]. *)
Definition frameReady (size : option Z) (st : NoiseState) : bool :=
  match size with
  | Some n => negb (n =? 0) && (byteLength (inBytes st) >=? n + 3)
  | None => false
  end.

(** The [while] loop of [decodeFrame]; [fuel] bounds the number of
    iterations. *)
Fixpoint frameLoop (fuel : nat) (size : option Z) : M unit :=
  st ← getState;
  if frameReady size st then
    match fuel with
    | O => throw FuelExhausted
    | S fuel' =>
        let n := default 0 size in
        let frame := slice (inBytes st) 3 (Some (n + 3)) in
        modify (set_inBytes (slice (inBytes st) (n + 3) None));;
        frame ← (if isFinished st then
                    result ← decrypt frame;
                    node ← liftOpt DecodeError (decodeBinaryNode result);
                    mret (NodeFrame node)
                  else mret (RawFrame frame));
        emit (EvFrame frame);;
        size ← getBytesSize;
        frameLoop fuel' size
    end
  else mret tt.

(** [decodeFrame(newData, onFrame)]; every iteration of the loop removes at
    least four bytes from [inBytes], so its length bounds the iterations. *)
Definition decodeFrame (newData : bytes) : M unit :=
  modify (fun s => set_inBytes (inBytes s ++ newData) s);;
  size ← getBytesSize;
  st ← getState;
  frameLoop (length (inBytes st)) size.

(** ** Execution traces: sequences of calls on one handler *)

Inductive Call : Type :=
| CallAuthenticate (data : bytes)
| CallEncrypt (plaintext : bytes)
| CallDecrypt (ciphertext : bytes)
| CallMixIntoKey (data : bytes)
| CallFinishInit
| CallProcessHandshake (serverHello : ServerHello) (noiseKey : KeyPair)
| CallEncodeFrame (data : bytes)
| CallDecodeFrame (newData : bytes).

Definition void {A} (m : M A) : NoiseState -> NoiseState * list Event :=
  fun st => (stateOf (m st), eventsOf (m st)).

Definition runCall (self : KeyPair) (c : Call) : NoiseState -> NoiseState * list Event :=
  match c with
  | CallAuthenticate data => void (authenticate data)
  | CallEncrypt plaintext => void (encrypt plaintext)
  | CallDecrypt ciphertext => void (decrypt ciphertext)
  | CallMixIntoKey data => void (mixIntoKey data)
  | CallFinishInit => void finishInit
  | CallProcessHandshake serverHello noiseKey =>
      void (processHandshake self serverHello noiseKey)
  | CallEncodeFrame data => void (encodeFrame data)
  | CallDecodeFrame newData => void (decodeFrame newData)
  end.

(** The calls run in order; a call that throws leaves the state it reached
    and the caller goes on. *)
Fixpoint runTrace (self : KeyPair) (cs : list Call) (st : NoiseState)
    : NoiseState * list Event :=
  match cs with
  | [] => (st, [])
  | c :: cs' =>
      let '(st1, ev1) := runCall self c st in
      let '(st2, ev2) := runTrace self cs' st1 in
      (st2, ev1 ++ ev2)
  end.

(** ** Vocabulary of the statements *)

(** The chunks of a stream, given to [decodeFrame] one after the other. *)
Fixpoint feedAll (chunks : list bytes) : M unit :=
  match chunks with
  | [] => mret tt
  | chunk :: rest => decodeFrame chunk;; feedAll rest
  end.

(** The arguments of the calls of [onFrame] in a log, in order. *)
Definition framesOf (log : list Event) : list Frame :=
  omap (fun e => match e with EvFrame f => Some f | _ => None end) log.

Definition isRekey (e : Event) : bool :=
  match e with EvRekey => true | _ => false end.

(** The key and the counter a cipher of direction [d] is created from. *)
Definition keyOf (d : Direction) (st : NoiseState) : bytes :=
  match d with Seal => encKey st | Unseal => decKey st end.

Definition counterOf (d : Direction) (st : NoiseState) : Z :=
  match d with Seal => writeCounter st | Unseal => decryptCounter st end.

(** ** Invariants and phases of the handler *)

(** [m] keeps the property [I] of the state and the log. *)
Definition Preserves {A} (I : NoiseState -> list Event -> Prop) (m : M A) : Prop :=
  forall st log, I st log -> I (stateOf (m st)) (log ++ eventsOf (m st)).

(** [I] is kept by the three cipher operations and does not depend on the
    framer's variables or on calls of [onFrame]. *)
Record Stable (I : NoiseState -> list Event -> Prop) : Prop := {
  stable_authenticate : forall data, Preserves I (authenticate data);
  stable_encrypt : forall plaintext, Preserves I (encrypt plaintext);
  stable_decrypt : forall ciphertext, Preserves I (decrypt ciphertext);
  stable_inBytes : forall v st log, I st log -> I (set_inBytes v st) log;
  stable_sentIntro : forall v st log, I st log -> I (set_sentIntro v st) log;
  stable_onFrame : forall f st log, I st log -> I st (log ++ [EvFrame f])
}.

(** The calls that keep [I]: those that assign a key need [mixIntoKey], or
    [finishInit], to keep it. *)
Definition keeps (I : NoiseState -> list Event -> Prop) (c : Call) : Prop :=
  match c with
  | CallMixIntoKey _ | CallProcessHandshake _ _ =>
      forall data, Preserves I (mixIntoKey data)
  | CallFinishInit => Preserves I finishInit
  | _ => True
  end.

(** Before [finishInit] the two keys are one key and [readCounter] is not
    used: both directions count in [writeCounter]. *)
Definition handshakeInv (st : NoiseState) : Prop :=
  isFinished st = false /\ encKey st = decKey st /\ readCounter st = 0.

(** No key was reassigned during [l]. *)
Definition quiet (l : list Event) : Prop := Forall (fun e => isRekey e = false) l.

(** Every run of a cipher since the keys were last assigned used the current
    key of its direction and a counter below the current one. *)
Definition tailOK (st : NoiseState) (log : list Event) : Prop :=
  forall l1 d f k c l2,
    log = l1 ++ EvCipher d f k c :: l2 -> quiet l2 ->
    f = isFinished st /\ k = keyOf d st /\ c < counterOf d st.

(** Two runs of a cipher with no key assignment between them, in the same
    direction or before the handshake is finished, used the same key and the
    later one a greater counter. *)
Definition pairsOK (log : list Event) : Prop :=
  forall l1 d1 f1 k1 c1 l2 d2 f2 k2 c2 l3,
    log = l1 ++ EvCipher d1 f1 k1 c1 :: l2 ++ EvCipher d2 f2 k2 c2 :: l3 ->
    quiet l2 -> f1 = false \/ d1 = d2 ->
    f2 = f1 /\ k2 = k1 /\ c1 < c2.

(** The invariant of the counters. *)
Definition nonceInv (st : NoiseState) (log : list Event) : Prop :=
  (isFinished st = false -> encKey st = decKey st) /\ tailOK st log /\ pairsOK log.

(** Within one call: as long as no key is assigned, no counter goes down and
    the keys stay. *)
Definition steady (s0 st : NoiseState) (log : list Event) : Prop :=
  quiet log ->
  encKey st = encKey s0 /\ decKey st = decKey s0
  /\ readCounter s0 <= readCounter st /\ writeCounter s0 <= writeCounter st.

(** The calls that assign the keys. *)
Definition assignsKey (c : Call) : bool :=
  match c with
  | CallMixIntoKey _ | CallFinishInit | CallProcessHandshake _ _ => true
  | _ => false
  end.

(** The protocol's use of a handler: [finishInit] is called at most once, and
    no key is assigned after it. *)
Fixpoint settled (cs : list Call) : bool :=
  match cs with
  | [] => true
  | CallFinishInit :: rest => forallb (fun c => negb (assignsKey c)) rest
  | _ :: rest => settled rest
  end.

(** The half of the 64 bytes of [finishInit] that a direction uses. *)
Definition halfOf (d : Direction) (key : bytes) : bytes :=
  match d with Seal => slice key 0 (Some 32) | Unseal => slice key 32 None end.

(** Before [finishInit]: no cipher has run on a finished handler. *)
Definition phaseOne (st : NoiseState) (log : list Event) : Prop :=
  isFinished st = false /\ forall d f k c, EvCipher d f k c ∈ log -> f = false.

(** After the one [finishInit]: the keys are the two halves of its 64 bytes,
    and so were the keys of every cipher run since. *)
Definition phaseTwo (key : bytes) (st : NoiseState) (log : list Event) : Prop :=
  isFinished st = true /\ encKey st = halfOf Seal key /\ decKey st = halfOf Unseal key
  /\ forall d k c, EvCipher d true k c ∈ log -> k = halfOf d key.

(** The payload of the frame [encodeFrame] writes: the data, encrypted once
    the handshake is finished. *)
Definition wireOf (data : bytes) (st : NoiseState) : bytes :=
  if isFinished st then
    (gcm_encrypt (encKey st) (generateIV (writeCounter st)) (hash st) data).1
    ++ (gcm_encrypt (encKey st) (generateIV (writeCounter st)) (hash st) data).2
  else data.

(** The bytes [encodeFrame] puts before the length: the preamble, once. *)
Definition introOf (st : NoiseState) : bytes :=
  if sentIntro st then [] else NOISE_WA_HEADER.

End Handler.

(** The number a sequence of bytes denotes, big-endian. *)
Definition beValue (b : bytes) : Z :=
  fold_left (fun acc x => acc * 256 + byteVal x) b 0.

(** The four bytes of a 32-bit value, big-endian. *)
Definition be32 (v : Z) : bytes :=
  [u8 (Z.shiftr v 24); u8 (Z.shiftr v 16); u8 (Z.shiftr v 8); u8 v].

(** The three bytes of a frame length below 2^24, big-endian. *)
Definition be24 (n : Z) : bytes :=
  [u8 (Z.shiftr n 16); u8 (Z.shiftr n 8); u8 n].

(** The size [getBytesSize] reads from a buffer of at least three bytes. *)
Definition peekSize (b : bytes) : option Z :=
  match b with
  | b0 :: b1 :: b2 :: _ =>
      Some (js_or (js_shl (byteVal b0) 16) (byteVal b1 * 2 ^ 8 + byteVal b2))
  | _ => None
  end.

(** ** Vocabulary of streams and of the two ends of a connection

    [onFrame] is taken not to call the handler while [decodeFrame] runs. *)

Section Streams.
Context `{PF : Platform}.

(** The buffer of [decodeFrame] holds no complete frame: the loop has nothing
    to take. *)
Definition stalled (st : NoiseState) : Prop :=
  frameReady (peekSize (inBytes st)) st = false.

(** The calls of [onFrame] before the handshake is finished. *)
Definition rawEvents (bodies : list bytes) : list Event :=
  map (fun body => EvFrame (RawFrame body)) bodies.

(** A frame on the wire, after the preamble: the length and the body. *)
Definition frameOf (body : bytes) : bytes := be24 (byteLength body) ++ body.

(** What a call of [decodeFrame] may change besides its buffer: nothing but
    [readCounter], which does not go down. *)
Definition framerOnly (st st' : NoiseState) : Prop :=
  hash st' = hash st /\ salt st' = salt st /\ encKey st' = encKey st
  /\ decKey st' = decKey st /\ writeCounter st' = writeCounter st
  /\ isFinished st' = isFinished st /\ sentIntro st' = sentIntro st
  /\ readCounter st <= readCounter st'.

(** The calls of [f] on the elements of a list, in order, as the loop of a
    caller makes them; the first that throws ends the loop. *)
Fixpoint forEach {A B} (f : A -> M B) (l : list A) : M (list B) :=
  match l with
  | [] => mret []
  | x :: l' => y ← f x; ys ← forEach f l'; mret (y :: ys)
  end.

(** The events of a finished receiver that opens frames and delivers their
    nodes: for each node a decipher, with the next counter, and a call of
    [onFrame]. *)
Fixpoint sealedEvents (key : bytes) (counter : Z) (nodes : list BinaryNode)
    : list Event :=
  match nodes with
  | [] => []
  | node :: rest =>
      EvCipher Unseal true key counter :: EvFrame (NodeFrame node)
        :: sealedEvents key (counter + 1) rest
  end.

(** The cipher of the platform opens what it sealed, keeps the length of the
    text, and makes tags of sixteen bytes. *)
Definition cipherOpens : Prop :=
  forall key iv aad text,
    gcm_decrypt key iv aad (gcm_encrypt key iv aad text).1 (gcm_encrypt key iv aad text).2
      = Some text
    /\ length (gcm_encrypt key iv aad text).1 = length text
    /\ length (gcm_encrypt key iv aad text).2 = 16%nat.

(** A receiver in step with a sender: its decipher has the key, the counter
    and the hash of the sender's cipher. *)
Definition inStep (sender receiver : NoiseState) : Prop :=
  isFinished receiver = isFinished sender /\ decKey receiver = encKey sender
  /\ hash receiver = hash sender /\ decryptCounter receiver = writeCounter sender.

(** The hash of the handshake after the pieces of [data] were given to
    [authenticate], one after the other. *)
Definition absorb (h : bytes) (data : list bytes) : bytes :=
  fold_left (fun h piece => sha256 (h ++ piece)) data h.

(** The value [makeNoiseHandler] gives to [hash], [salt] and the two keys
    before its calls of [authenticate]. *)
Definition modeHash : bytes :=
  if byteLength NOISE_MODE =? 32 then NOISE_MODE else sha256 NOISE_MODE.

(** The sizes node's [crypto] asks of an AES-256-GCM key, and the sizes of the
    salt and of the hash, in the state and in the ciphers of the log. *)
Definition keysSized (st : NoiseState) (log : list Event) : Prop :=
  length (encKey st) = 32%nat /\ length (decKey st) = 32%nat
  /\ length (salt st) = 32%nat
  /\ length (hash st) = (if isFinished st then 0%nat else 32%nat)
  /\ forall d f k c, EvCipher d f k c ∈ log -> length k = 32%nat.

(** The hash and the derivation of the platform return the sizes they are
    asked for. *)
Definition sizedPlatform : Prop :=
  (forall data, length (sha256 data) = 32%nat)
  /\ (forall ikm salt0, length (hkdf ikm 64 salt0 EmptyString) = 64%nat).

(** The calls that mix a secret into the salt. *)
Definition mixesKey (c : Call) : bool :=
  match c with
  | CallMixIntoKey _ | CallProcessHandshake _ _ => true
  | _ => false
  end.

End Streams.

(** Where [decrypt] cuts its argument: sixteen bytes before the end, and for
    an argument of fewer than sixteen bytes at twice its length less
    sixteen, counted from the start and not below 0. *)
Definition cutOf (ciphertext : bytes) : nat :=
  if (length ciphertext <? 16)%nat then (2 * length ciphertext - 16)%nat
  else (length ciphertext - 16)%nat.

(** ** An example platform

    A small platform on which the functions of the handler evaluate; the
    examples and the instances of the theorems below run on it.  Its cipher
    copies the plaintext and appends a 16-byte checksum of key, IV,
    associated data and text as the tag; its decipher accepts exactly that
    tag. *)

Module Example.

Definition sum (b : bytes) : Z := fold_right (fun x acc => byteVal x + acc) 0 b.

Definition tag (key iv aad text : bytes) : bytes :=
  repeat (u8 (sum key + 3 * sum iv + 5 * sum aad + 7 * sum text + 1)) 16.

#[export] Instance platform : Platform := {|
  sha256 := fun data => repeat (u8 (sum data + 1)) 32;
  hkdf := fun ikm len salt _ =>
    take (Z.to_nat len)
      (repeat (u8 (sum ikm + sum salt + 1)) 32 ++ repeat (u8 (sum ikm + sum salt + 2)) 32);
  gcm_encrypt := fun key iv aad plaintext => (plaintext, tag key iv aad plaintext);
  gcm_decrypt := fun key iv aad enc t =>
    if Buffer_compare t (tag key iv aad enc) =? 0 then Some enc else None;
  sharedKey := fun priv pub => repeat (u8 (sum priv + 2 * sum pub)) 32;
  NOISE_MODE := list_byte_of_string "Noise_XX_25519_AESGCM_SHA256"
                ++ repeat Byte.x00 4;
  NOISE_WA_HEADER := [Byte.x57; Byte.x41; Byte.x06; Byte.x02];
  NoiseCertificate_details := Some;
  NoiseCertificateDetails_key := Some;
  BinaryNode := bytes;
  decodeBinaryNode := Some
|}.

Definition self : KeyPair :=
  {| public := repeat Byte.x0a 32; private := repeat Byte.x0b 32 |}.

Definition noiseKey : KeyPair :=
  {| public := repeat Byte.x0c 32; private := repeat Byte.x0d 32 |}.

(** A fresh handler. *)
Definition fresh : NoiseState := makeNoiseHandler self.

(** An input of twelve bytes. *)
Definition shortFrame : bytes :=
  [Byte.x01; Byte.x02; Byte.x03; Byte.x04; Byte.x05; Byte.x06;
   Byte.x07; Byte.x08; Byte.x09; Byte.x0a; Byte.x0b; Byte.x0c].

Definition payload3 : bytes := [Byte.x01; Byte.x02; Byte.x03].
Definition payload2 : bytes := [Byte.x0e; Byte.x0f].

(** The handler after it has sent its first frame, and with it the preamble. *)
Definition connected : NoiseState := stateOf (encodeFrame payload3 fresh).

(** The handler after [finishInit], and a receiver in step with it: its
    [decKey] is the handler's [encKey]. *)
Definition established : NoiseState := stateOf (finishInit connected).

Definition receiver : NoiseState :=
  set_decKey (encKey established) (set_encKey (decKey established) established).

(** What the example cipher makes of [text] for the next [decrypt] of [st]. *)
Definition sealFor (st : NoiseState) (text : bytes) : bytes :=
  text ++ tag (decKey st) (generateIV (decryptCounter st)) (hash st) text.

(** A server hello for [self]: the static key of the server and a
    certificate of that key, each sealed for the state the handler is in when
    it decrypts them; and one whose certificate names another key. *)
Definition serverEphemeral : bytes := repeat Byte.x21 32.
Definition serverStatic : bytes := repeat Byte.x22 32.
Definition otherStatic : bytes := repeat Byte.x23 32.

Definition afterEphemeral : NoiseState :=
  stateOf (mixIntoKey (sharedKey (private self) serverEphemeral)
             (stateOf (authenticate serverEphemeral fresh))).

Definition sealedStatic : bytes := sealFor afterEphemeral serverStatic.

Definition afterStatic : NoiseState :=
  stateOf (mixIntoKey (sharedKey (private self) serverStatic)
             (stateOf (decrypt sealedStatic afterEphemeral))).

Definition hello : ServerHello :=
  {| ephemeral := serverEphemeral; static := sealedStatic;
     payload := sealFor afterStatic serverStatic |}.

Definition badHello : ServerHello :=
  {| ephemeral := serverEphemeral; static := sealedStatic;
     payload := sealFor afterStatic otherStatic |}.

(** A finished handler on which a key is mixed in again, and what the
    example cipher makes of [payload3] for its [decrypt] after one [encrypt]. *)
Definition remixed : NoiseState :=
  stateOf (mixIntoKey payload2 (stateOf (finishInit fresh))).

Definition sealedRemixed : bytes :=
  sealFor (stateOf (encrypt payload3 remixed)) payload3.

(** Payloads of 2^24 and of 2^32 bytes. *)
Definition big : bytes := repeat Byte.x00 (Z.to_nat (2 ^ 24)).
Definition huge : bytes := repeat Byte.x00 (Z.to_nat (2 ^ 32)).

(** A server hello whose static key is not what the decipher accepts. *)
Definition brokenHello : ServerHello :=
  {| ephemeral := serverEphemeral; static := shortFrame; payload := [] |}.

(** Two frames on the wire, before and after the handshake is finished. *)
Definition rawFrames : list bytes :=
  [[Byte.x00; Byte.x00; Byte.x03] ++ payload3; [Byte.x00; Byte.x00; Byte.x02] ++ payload2].

Definition sealedFrames : list bytes :=
  [[Byte.x00; Byte.x00; Byte.x13] ++ payload3 ++ repeat Byte.x6b 16;
   [Byte.x00; Byte.x00; Byte.x12] ++ payload2 ++ repeat Byte.x0f 16].

End Example.

(** * Properties *)

Ltac msimpl :=
  repeat (unfold mbind, mret, M_bind, M_ret, bindM, retM, throw, getState, modify,
          emit, liftRes, liftOpt; cbn).

(** Decides the comparisons of a goal that [lia] can decide. *)
Ltac zbool :=
  repeat match goal with
  | |- context [?a <=? ?b] =>
      first [ rewrite (proj2 (Z.leb_le a b)) by lia
            | rewrite (proj2 (Z.leb_gt a b)) by lia ]
  | |- context [?a <? ?b] =>
      first [ rewrite (proj2 (Z.ltb_lt a b)) by lia
            | rewrite (proj2 (Z.ltb_ge a b)) by lia ]
  | |- context [?a >=? ?b] => rewrite (Z.geb_leb a b)
  | |- context [?a =? ?b] =>
      first [ rewrite (proj2 (Z.eqb_eq a b)) by lia
            | rewrite (proj2 (Z.eqb_neq a b)) by lia ]
  end.

(** ** Bytes and integers *)

Lemma byteVal_range (b : byte) : 0 <= byteVal b < 256.
Proof.
  unfold byteVal. pose proof (Byte.to_N_bounded b). lia.
Qed.

Lemma byteVal_u8 (z : Z) : byteVal (u8 z) = z mod 256.
Proof.
  unfold byteVal, u8.
  assert (Hr : 0 <= z mod 256 < 256) by (apply Z.mod_pos_bound; lia).
  destruct (Byte.of_N (Z.to_N (z mod 256))) as [b|] eqn:E; cbn.
  - apply Byte.to_of_N in E. rewrite E. lia.
  - apply Byte.of_N_None_iff in E. lia.
Qed.

Lemma byteVal_inj (x y : byte) : byteVal x = byteVal y -> x = y.
Proof.
  unfold byteVal. intros H. apply N2Z.inj in H.
  pose proof (Byte.of_to_N x) as Hx. pose proof (Byte.of_to_N y) as Hy.
  rewrite H in Hx. congruence.
Qed.

Lemma u8_byteVal (b : byte) : u8 (byteVal b) = b.
Proof.
  apply byteVal_inj. rewrite byteVal_u8.
  pose proof (byteVal_range b). apply Z.mod_small. lia.
Qed.

Lemma Buffer_compare_refl (a : bytes) : Buffer_compare a a = 0.
Proof.
  induction a as [|x a IH]; cbn; [reflexivity|].
  rewrite Z.ltb_irrefl. exact IH.
Qed.

Lemma Buffer_compare_eq (a b : bytes) : Buffer_compare a b = 0 <-> a = b.
Proof.
  split; [|intros ->; apply Buffer_compare_refl].
  revert b. induction a as [|x a IH]; intros [|y b]; cbn; try discriminate; auto.
  destruct (byteVal x <? byteVal y) eqn:E1; [discriminate|].
  destruct (byteVal y <? byteVal x) eqn:E2; [discriminate|].
  intros H. f_equal; [apply byteVal_inj; lia | apply IH, H].
Qed.

Lemma beValue_be32 (v : Z) : 0 <= v < 2 ^ 32 -> beValue (be32 v) = v.
Proof.
  intros Hv. unfold beValue, be32. cbn [fold_left].
  rewrite !byteVal_u8, !Z.shiftr_div_pow2 by lia.
  change (2 ^ 24) with 16777216. change (2 ^ 16) with 65536.
  change (2 ^ 8) with 256. change (2 ^ 32) with 4294967296 in Hv.
  Z.to_euclidean_division_equations. lia.
Qed.

Lemma beValue_be24 (n : Z) : 0 <= n < 2 ^ 24 -> beValue (be24 n) = n.
Proof.
  intros Hn. unfold beValue, be24. cbn [fold_left].
  rewrite !byteVal_u8, !Z.shiftr_div_pow2 by lia.
  change (2 ^ 16) with 65536. change (2 ^ 8) with 256.
  change (2 ^ 24) with 16777216 in Hn.
  Z.to_euclidean_division_equations. lia.
Qed.

Lemma slice_mid (b : bytes) (i j : Z) :
  0 <= i <= j -> slice b i (Some j) = take (Z.to_nat (j - i)) (drop (Z.to_nat i) b).
Proof.
  intros Hij. unfold slice, clampIndex, byteLength.
  destruct (i <? 0) eqn:E1; [lia|]. destruct (j <? 0) eqn:E2; [lia|].
  destruct (Z.min_spec i (Z.of_nat (length b))) as [[H1 ->]|[H1 ->]];
    destruct (Z.min_spec j (Z.of_nat (length b))) as [[H2 ->]|[H2 ->]].
  - reflexivity.
  - rewrite !take_ge; auto; rewrite length_drop; lia.
  - lia.
  - rewrite Nat2Z.id, !drop_ge, !take_nil; auto; lia.
Qed.

Lemma slice_take (b : bytes) (n : Z) :
  0 <= n -> slice b 0 (Some n) = take (Z.to_nat n) b.
Proof.
  intros Hn. rewrite slice_mid by lia. rewrite Z.sub_0_r. reflexivity.
Qed.

Lemma slice_drop (b : bytes) (n : Z) :
  0 <= n -> slice b n None = drop (Z.to_nat n) b.
Proof.
  intros Hn. unfold slice, clampIndex, byteLength.
  destruct (n <? 0) eqn:E; [lia|].
  destruct (Z.min_spec n (Z.of_nat (length b))) as [[H1 ->]|[H1 ->]].
  - apply take_ge. rewrite length_drop. lia.
  - rewrite Nat2Z.id, Z.sub_diag, !drop_ge; [reflexivity|lia|lia].
Qed.

(** ** The functions of the handler, run on a state *)

Section Theory.
Context `{PF : Platform}.

#[local] Arguments authenticate : simpl never.
#[local] Arguments encrypt : simpl never.
#[local] Arguments decrypt : simpl never.
#[local] Arguments mixIntoKey : simpl never.
#[local] Arguments finishInit : simpl never.
#[local] Arguments generateIV : simpl never.
#[local] Arguments cipherBody : simpl never.
#[local] Arguments cipherTag : simpl never.
#[local] Arguments slice : simpl never.

Lemma bind_run {A B} (m : M A) (f : A -> M B) (st : NoiseState) :
  (m ≫= f) st =
  match m st with
  | (Ok a, st1, ev1) => (resultOf (f a st1), stateOf (f a st1), ev1 ++ eventsOf (f a st1))
  | (Throw e, st1, ev1) => (Throw e, st1, ev1)
  end.
Proof.
  unfold mbind, M_bind, bindM. destruct (m st) as [[[a|e] st1] ev1]; [|reflexivity].
  destruct (f a st1) as [[r st2] ev2]. reflexivity.
Qed.

Lemma authenticate_run data st :
  authenticate data st =
  (Ok tt, if isFinished st then st else set_hash (sha256 (hash st ++ data)) st, []).
Proof. unfold authenticate. msimpl. destruct (isFinished st); reflexivity. Qed.

Lemma encrypt_run plaintext st :
  encrypt plaintext st =
  let ct := gcm_encrypt (encKey st) (generateIV (writeCounter st)) (hash st) plaintext in
  let st1 := set_writeCounter (writeCounter st + 1) st in
  (Ok (ct.1 ++ ct.2),
   if isFinished st then st1 else set_hash (sha256 (hash st ++ ct.1 ++ ct.2)) st1,
   [EvCipher Seal (isFinished st) (encKey st) (writeCounter st)]).
Proof.
  unfold encrypt. msimpl.
  destruct (gcm_encrypt _ _ _ _) as [body tag]. unfold authenticate. msimpl.
  destruct (isFinished st); reflexivity.
Qed.

Lemma decrypt_run ciphertext st :
  decrypt ciphertext st =
  match gcm_decrypt (decKey st) (generateIV (decryptCounter st)) (hash st)
          (cipherBody ciphertext) (cipherTag ciphertext) with
  | None => (Throw CryptoError, st, [])
  | Some result =>
      (Ok result,
       if isFinished st then set_readCounter (readCounter st + 1) st
       else set_hash (sha256 (hash st ++ ciphertext))
              (set_writeCounter (writeCounter st + 1) st),
       [EvCipher Unseal (isFinished st) (decKey st) (decryptCounter st)])
  end.
Proof.
  unfold decrypt, authenticate. msimpl.
  destruct (gcm_decrypt _ _ _ _ _) as [result|]; msimpl; [|reflexivity].
  destruct (isFinished st) eqn:E; msimpl; rewrite ?E; reflexivity.
Qed.

Lemma mixIntoKey_run data st :
  mixIntoKey data st =
  let key := hkdf data 64 (salt st) EmptyString in
  (Ok tt,
   {| hash := hash st; salt := slice key 0 (Some 32);
      encKey := slice key 32 None; decKey := slice key 32 None;
      readCounter := 0; writeCounter := 0;
      isFinished := isFinished st; sentIntro := sentIntro st; inBytes := inBytes st |},
   [EvRekey]).
Proof. reflexivity. Qed.

Lemma finishInit_run st :
  finishInit st =
  let key := hkdf [] 64 (salt st) EmptyString in
  (Ok tt,
   {| hash := []; salt := salt st;
      encKey := slice key 0 (Some 32); decKey := slice key 32 None;
      readCounter := 0; writeCounter := 0;
      isFinished := true; sentIntro := sentIntro st; inBytes := inBytes st |},
   [EvRekey]).
Proof. reflexivity. Qed.

(** A ciphertext of at least sixteen bytes is split into its body and its
    last sixteen bytes. *)
Lemma cipher_split (ciphertext : bytes) :
  16 <= byteLength ciphertext ->
  cipherBody ciphertext ++ cipherTag ciphertext = ciphertext
  /\ length (cipherTag ciphertext) = 16%nat.
Proof.
  unfold cipherBody, cipherTag, byteLength. change TAG_LENGTH with 16. intros H.
  rewrite slice_take, slice_drop by lia. rewrite take_drop, length_drop.
  split; [reflexivity | lia].
Qed.

Lemma cipher_split_app (body tag : bytes) :
  length tag = 16%nat ->
  cipherBody (body ++ tag) = body /\ cipherTag (body ++ tag) = tag.
Proof.
  intros H. unfold cipherBody, cipherTag, byteLength. change TAG_LENGTH with 16.
  rewrite length_app, slice_take, slice_drop by lia.
  replace (Z.to_nat (Z.of_nat (length body + length tag) - 16)) with (length body) by lia.
  rewrite take_app_length, drop_app_length. auto.
Qed.

(** ** Invariants of the handler

    A property of the state and the log that [authenticate], [encrypt] and
    [decrypt] keep, and that does not depend on the framer's variables or on
    calls of [onFrame], is kept by [encodeFrame] and [decodeFrame]; when
    [mixIntoKey] keeps it too, by [processHandshake]; hence along every trace
    of calls that keep it. *)

Lemma preserves_bind {A B} I (m : M A) (f : A -> M B) :
  Preserves I m -> (forall a, Preserves I (f a)) -> Preserves I (m ≫= f).
Proof.
  intros Hm Hf st log HI. rewrite bind_run.
  specialize (Hm st log HI). destruct (m st) as [[[a|e] st1] ev1]; cbn in *; [|exact Hm].
  rewrite app_assoc. apply Hf, Hm.
Qed.

Lemma preserves_silent {A} I (m : M A) :
  (forall st, stateOf (m st) = st /\ eventsOf (m st) = []) -> Preserves I m.
Proof.
  intros H st log HI. destruct (H st) as [-> ->]. rewrite app_nil_r. exact HI.
Qed.

Lemma preserves_ret {A} I (a : A) : Preserves I (mret a).
Proof. apply preserves_silent. intros st. split; reflexivity. Qed.

Lemma preserves_throw {A} I e : Preserves I (@throw _ A e).
Proof. apply preserves_silent. intros st. split; reflexivity. Qed.

Lemma preserves_getState I : Preserves I getState.
Proof. apply preserves_silent. intros st. split; reflexivity. Qed.

Lemma preserves_liftRes {A} I (r : Res A) : Preserves I (liftRes r).
Proof. apply preserves_silent. intros st. split; reflexivity. Qed.

Lemma preserves_liftOpt {A} I e (o : option A) : Preserves I (liftOpt e o).
Proof. destruct o; [apply preserves_ret | apply preserves_throw]. Qed.

Lemma preserves_modify I (f : NoiseState -> NoiseState) :
  (forall st log, I st log -> I (f st) log) -> Preserves I (modify f).
Proof. intros H st log HI. cbn. rewrite app_nil_r. apply H, HI. Qed.

Lemma preserves_emit I e :
  (forall st log, I st log -> I st (log ++ [e])) -> Preserves I (emit e).
Proof. intros H st log HI. cbn. apply H, HI. Qed.

Section StableInvariant.
Variable I : NoiseState -> list Event -> Prop.
Hypothesis HI : Stable I.

Ltac preserve :=
  repeat lazymatch goal with
  | |- Preserves _ (mixIntoKey _) => fail
  | _ =>
    first
      [ apply preserves_ret | apply preserves_throw | apply preserves_getState
      | apply preserves_liftRes | apply preserves_liftOpt
      | apply (stable_authenticate I HI) | apply (stable_encrypt I HI)
      | apply (stable_decrypt I HI)
      | apply preserves_modify; intros; apply (stable_inBytes I HI); assumption
      | apply preserves_modify; intros; apply (stable_sentIntro I HI); assumption
      | apply preserves_emit; intros; apply (stable_onFrame I HI); assumption
      | apply preserves_bind; [|intros]
      | match goal with |- Preserves _ (if ?b then _ else _) => destruct b end
      | match goal with |- Preserves _ (let '(_, _) := ?p in _) => destruct p end ]
  end.

Lemma processHandshake_preserves self serverHello noiseKey :
  (forall data, Preserves I (mixIntoKey data)) ->
  Preserves I (processHandshake self serverHello noiseKey).
Proof. intros Hmix. unfold processHandshake. preserve; apply Hmix. Qed.

Lemma encodeFrame_preserves data : Preserves I (encodeFrame data).
Proof. unfold encodeFrame. preserve. Qed.

Lemma getBytesSize_preserves : Preserves I getBytesSize.
Proof. unfold getBytesSize. preserve. Qed.

Lemma frameLoop_preserves fuel size : Preserves I (frameLoop fuel size).
Proof.
  revert size. induction fuel as [|fuel IH]; intros size; cbn [frameLoop].
  - preserve.
  - preserve; first [apply getBytesSize_preserves | apply IH].
Qed.

Lemma decodeFrame_preserves newData : Preserves I (decodeFrame newData).
Proof.
  unfold decodeFrame. preserve. apply frameLoop_preserves.
Qed.

Lemma runCall_preserves self c st log :
  keeps I c -> I st log ->
  I (runCall self c st).1 (log ++ (runCall self c st).2).
Proof.
  intros Hc Hst. destruct c; cbn [runCall void fst snd].
  - apply (stable_authenticate I HI), Hst.
  - apply (stable_encrypt I HI), Hst.
  - apply (stable_decrypt I HI), Hst.
  - apply Hc, Hst.
  - apply Hc, Hst.
  - apply processHandshake_preserves; [exact Hc | exact Hst].
  - apply encodeFrame_preserves, Hst.
  - apply decodeFrame_preserves, Hst.
Qed.

Lemma runTrace_preserves self cs st log :
  Forall (keeps I) cs -> I st log ->
  I (runTrace self cs st).1 (log ++ (runTrace self cs st).2).
Proof.
  intros Hcs. revert st log. induction Hcs as [|c cs Hc Hcs IH]; intros st log Hst.
  - cbn. rewrite app_nil_r. exact Hst.
  - cbn [runTrace].
    pose proof (runCall_preserves self c st log Hc Hst) as H1.
    destruct (runCall self c st) as [st1 ev1]. cbn [fst snd] in H1.
    specialize (IH st1 (log ++ ev1) H1).
    destruct (runTrace self cs st1) as [st2 ev2]. cbn [fst snd] in *.
    rewrite app_assoc. exact IH.
Qed.

End StableInvariant.

(** *** The handshake invariant *)

Lemma handshakeInv_stable : Stable (fun st _ => handshakeInv st).
Proof.
  unfold handshakeInv. split.
  - intros data st log (Hf & Hk & Hr). rewrite authenticate_run. cbn.
    rewrite Hf. cbn. auto.
  - intros plaintext st log (Hf & Hk & Hr). rewrite encrypt_run. cbn.
    rewrite Hf. cbn. auto.
  - intros ciphertext st log (Hf & Hk & Hr). rewrite decrypt_run.
    destruct (gcm_decrypt _ _ _ _ _); cbn; [|auto]. rewrite Hf. cbn. auto.
  - intros v st log H. exact H.
  - intros v st log H. exact H.
  - intros f st log H. exact H.
Qed.

Lemma handshakeInv_mixIntoKey data :
  Preserves (fun st (_ : list Event) => handshakeInv st) (mixIntoKey data).
Proof.
  intros st log (Hf & Hk & Hr). rewrite mixIntoKey_run. cbn. unfold handshakeInv. auto.
Qed.

Lemma handshakeInv_declared : handshakeInv declaredState.
Proof. unfold handshakeInv. cbn. auto. Qed.

Lemma handshakeInv_makeNoiseHandler self : handshakeInv (makeNoiseHandler self).
Proof.
  unfold makeNoiseHandler.
  pose proof (stable_authenticate _ handshakeInv_stable) as Ha.
  apply (preserves_bind _ _ (fun _ => authenticate (public self)) (Ha NOISE_WA_HEADER)
           (fun _ => Ha (public self)) declaredState [] handshakeInv_declared).
Qed.

(** *** After [finishInit] *)

Lemma finished_stable : Stable (fun st _ => isFinished st = true).
Proof.
  split.
  - intros data st log Hf. rewrite authenticate_run. cbn. rewrite Hf. exact Hf.
  - intros plaintext st log Hf. rewrite encrypt_run. cbn. rewrite Hf. exact Hf.
  - intros ciphertext st log Hf. rewrite decrypt_run.
    destruct (gcm_decrypt _ _ _ _ _); cbn; [|auto]. rewrite Hf. exact Hf.
  - intros v st log H. exact H.
  - intros v st log H. exact H.
  - intros f st log H. exact H.
Qed.

Lemma finished_forever self cs st :
  isFinished st = true -> isFinished (runTrace self cs st).1 = true.
Proof.
  intros Hf.
  apply (runTrace_preserves _ finished_stable self cs st []); [|exact Hf].
  apply Forall_forall. intros c _.
  destruct c; cbn [keeps]; auto; intros; intros st' log' Hf';
    first [exact Hf' | reflexivity].
Qed.

(** ** [generateIV] *)

Lemma generateIV_bytes (c : Z) :
  generateIV c = repeat Byte.x00 8 ++ be32 (c mod 2 ^ 32).
Proof. reflexivity. Qed.

Lemma generateIV_value (c : Z) : beValue (drop 8 (generateIV c)) = c mod 2 ^ 32.
Proof.
  rewrite generateIV_bytes. change (drop 8 (repeat Byte.x00 8 ++ ?l)) with l.
  apply beValue_be32. apply Z.mod_pos_bound. lia.
Qed.

Lemma generateIV_congruent (c1 c2 : Z) :
  generateIV c1 = generateIV c2 <-> c1 mod 2 ^ 32 = c2 mod 2 ^ 32.
Proof.
  split; intros H.
  - rewrite <- (generateIV_value c1), <- (generateIV_value c2), H. reflexivity.
  - rewrite !generateIV_bytes, H. reflexivity.
Qed.

(** C10. [generateIV] writes eight zero bytes and then the counter modulo
    2^32 as four big-endian bytes; two counters give the same IV exactly when
    they are congruent modulo 2^32, and then [encrypt] (and [decrypt]) under
    the same key and associated data run the cipher on the same nonce and
    return the same bytes. *)
Theorem generateIV_low32 (c1 c2 : Z) :
  generateIV c1 = repeat Byte.x00 8 ++ be32 (c1 mod 2 ^ 32)
  /\ beValue (drop 8 (generateIV c1)) = c1 mod 2 ^ 32
  /\ (generateIV c1 = generateIV c2 <-> c1 mod 2 ^ 32 = c2 mod 2 ^ 32)
  /\ (forall st1 st2 plaintext,
        encKey st1 = encKey st2 -> hash st1 = hash st2 ->
        writeCounter st1 = c1 -> writeCounter st2 = c2 ->
        c1 mod 2 ^ 32 = c2 mod 2 ^ 32 ->
        resultOf (encrypt plaintext st1) = resultOf (encrypt plaintext st2))
  /\ (forall st1 st2 ciphertext,
        decKey st1 = decKey st2 -> hash st1 = hash st2 ->
        decryptCounter st1 = c1 -> decryptCounter st2 = c2 ->
        c1 mod 2 ^ 32 = c2 mod 2 ^ 32 ->
        resultOf (decrypt ciphertext st1) = resultOf (decrypt ciphertext st2)).
Proof.
  split; [apply generateIV_bytes|].
  split; [apply generateIV_value|].
  split; [apply generateIV_congruent|].
  split.
  - intros st1 st2 plaintext Hk Hh H1 H2 Hc. apply generateIV_congruent in Hc.
    rewrite !encrypt_run. cbn. rewrite H1, H2, Hk, Hh, Hc. reflexivity.
  - intros st1 st2 ciphertext Hk Hh H1 H2 Hc. apply generateIV_congruent in Hc.
    rewrite !decrypt_run. rewrite H1, H2, Hk, Hh, Hc.
    destruct (gcm_decrypt _ _ _ _ _); reflexivity.
Qed.

(** ** [decrypt] *)

(** C8. When [decrypt] throws, it throws the decipher's error and leaves the
    state as it was: no counter has moved, the hash is the same, and nothing
    was logged; this happens exactly when the decipher refuses the input. *)
Theorem decrypt_failure_atomic (ciphertext : bytes) (st : NoiseState) (e : Error) :
  resultOf (decrypt ciphertext st) = Throw e ->
  decrypt ciphertext st = (Throw CryptoError, st, [])
  /\ gcm_decrypt (decKey st) (generateIV (decryptCounter st)) (hash st)
       (cipherBody ciphertext) (cipherTag ciphertext) = None
  /\ readCounter (stateOf (decrypt ciphertext st)) = readCounter st
  /\ writeCounter (stateOf (decrypt ciphertext st)) = writeCounter st
  /\ hash (stateOf (decrypt ciphertext st)) = hash st.
Proof.
  rewrite decrypt_run.
  destruct (gcm_decrypt _ _ _ _ _) as [result|]; cbn; [discriminate|].
  intros _. repeat split; reflexivity.
Qed.

(** What [decrypt] does with an input of at least sixteen bytes. *)
Lemma decrypt_long_input (ciphertext : bytes) (st : NoiseState) :
  16 <= byteLength ciphertext ->
  let counter := if isFinished st then readCounter st else writeCounter st in
  let n := (length ciphertext - 16)%nat in
  decrypt ciphertext st =
  match gcm_decrypt (decKey st) (generateIV counter) (hash st)
          (take n ciphertext) (drop n ciphertext) with
  | None => (Throw CryptoError, st, [])
  | Some result =>
      (Ok result,
       stateOf (authenticate ciphertext
                  (if isFinished st then set_readCounter (readCounter st + 1) st
                   else set_writeCounter (writeCounter st + 1) st)),
       [EvCipher Unseal (isFinished st) (decKey st) counter])
  end.
Proof.
  intros Hlen counter n. rewrite decrypt_run, authenticate_run.
  assert (Hb : cipherBody ciphertext = take n ciphertext).
  { unfold cipherBody, byteLength in *. change TAG_LENGTH with 16.
    rewrite slice_take by lia. f_equal. lia. }
  assert (Ht : cipherTag ciphertext = drop n ciphertext).
  { unfold cipherTag, byteLength in *. change TAG_LENGTH with 16.
    rewrite slice_drop by lia. f_equal. lia. }
  rewrite Hb, Ht. unfold decryptCounter. subst counter.
  destruct (gcm_decrypt _ _ _ _ _); [|reflexivity].
  destruct (isFinished st) eqn:E; cbn; rewrite ?E; reflexivity.
Qed.

(** C5, at an input of twelve bytes: the "tag" [decrypt] hands to the
    decipher is the last four bytes, and the body the first eight. *)
Theorem decrypt_short_input (st : NoiseState) :
  cipherBody Example.shortFrame = take 8 Example.shortFrame
  /\ cipherTag Example.shortFrame = drop 8 Example.shortFrame
  /\ length (cipherTag Example.shortFrame) = 4%nat
  /\ decrypt Example.shortFrame st =
     match gcm_decrypt (decKey st) (generateIV (decryptCounter st)) (hash st)
             (take 8 Example.shortFrame) (drop 8 Example.shortFrame) with
     | None => (Throw CryptoError, st, [])
     | Some result =>
         (Ok result,
          stateOf (authenticate Example.shortFrame
                     (if isFinished st then set_readCounter (readCounter st + 1) st
                      else set_writeCounter (writeCounter st + 1) st)),
          [EvCipher Unseal (isFinished st) (decKey st) (decryptCounter st)])
     end.
Proof.
  split; [reflexivity|]. split; [reflexivity|]. split; [reflexivity|].
  rewrite decrypt_run, authenticate_run.
  change (cipherBody Example.shortFrame) with (take 8 Example.shortFrame).
  change (cipherTag Example.shortFrame) with (drop 8 Example.shortFrame).
  destruct (gcm_decrypt _ _ _ _ _); [|reflexivity].
  destruct (isFinished st) eqn:E; cbn; rewrite ?E; reflexivity.
Qed.

(** ** [finishInit] *)

(** C7. [finishInit] asks HKDF for 64 bytes from the current salt, an empty
    input and an empty info; when HKDF returns the 64 bytes, [encKey] is the
    first 32 of them and [decKey] the last 32; the hash is emptied, both
    counters are 0 and [isFinished] is true.  From then on, whatever is
    called on the handler, [authenticate] changes nothing. *)
Theorem finishInit_spec (st : NoiseState) :
  let key := hkdf [] 64 (salt st) EmptyString in
  let st' := stateOf (finishInit st) in
  length key = 64%nat ->
  resultOf (finishInit st) = Ok tt
  /\ encKey st' = take 32 key /\ decKey st' = drop 32 key
  /\ length (encKey st') = 32%nat /\ length (decKey st') = 32%nat
  /\ encKey st' ++ decKey st' = key
  /\ hash st' = []
  /\ readCounter st' = 0 /\ writeCounter st' = 0
  /\ isFinished st' = true
  /\ forall self cs data,
       let st'' := (runTrace self cs st').1 in
       authenticate data st'' = (Ok tt, st'', []).
Proof.
  intros key st' Hlen. subst st'. rewrite finishInit_run. cbn [resultOf stateOf fst snd].
  fold key. cbn [encKey decKey hash readCounter writeCounter isFinished].
  rewrite slice_take, slice_drop by lia.
  change (Z.to_nat 32) with 32%nat.
  split; [reflexivity|]. split; [reflexivity|]. split; [reflexivity|].
  split; [rewrite length_take; lia|]. split; [rewrite length_drop; lia|].
  split; [apply take_drop|]. do 4 (split; [reflexivity|]).
  intros self cs data. rewrite authenticate_run.
  rewrite finished_forever by reflexivity. reflexivity.
Qed.

(** ** The handshake invariant along traces *)

(** C1 (amended). Along every trace of calls other than [finishInit] on a
    fresh handler, after each call: the handshake is not finished, [encKey]
    and [decKey] are equal, and [readCounter] is 0 (both directions count in
    [writeCounter]). *)
Theorem handshake_invariant (self : KeyPair) (cs : list Call) (k : nat) :
  Forall (fun c => c <> CallFinishInit) cs ->
  let st := (runTrace self (take k cs) (makeNoiseHandler self)).1 in
  isFinished st = false /\ encKey st = decKey st /\ readCounter st = 0.
Proof.
  intros Hcs st.
  apply (runTrace_preserves _ handshakeInv_stable self (take k cs) _ []).
  - apply Forall_take with (n := k) in Hcs.
    eapply Forall_impl; [exact Hcs|]. intros c Hc.
    destruct c; cbn [keeps]; auto using handshakeInv_mixIntoKey. contradiction.
  - apply handshakeInv_makeNoiseHandler.
Qed.

(** ** [processHandshake] *)

Lemma bind_ok {A B} (m : M A) (f : A -> M B) st a st1 ev1 r st2 ev2 ev :
  m st = (Ok a, st1, ev1) -> f a st1 = (r, st2, ev2) -> ev = ev1 ++ ev2 ->
  (m ≫= f) st = (r, st2, ev).
Proof.
  intros Hm Hf ->. unfold mbind, M_bind, bindM. rewrite Hm, Hf. reflexivity.
Qed.

Lemma bind_throw {A B} (m : M A) (f : A -> M B) st e st1 ev1 :
  m st = (Throw e, st1, ev1) -> (m ≫= f) st = (Throw e, st1, ev1).
Proof.
  intros Hm. unfold mbind, M_bind, bindM. rewrite Hm. reflexivity.
Qed.

Lemma run_events {A} (o : Res A * NoiseState * list Event) r st ev ev' :
  o = (r, st, ev') -> ev' = ev -> o = (r, st, ev).
Proof. intros -> ->. reflexivity. Qed.

Lemma run_eta {A} (m : M A) st : m st = (resultOf (m st), stateOf (m st), eventsOf (m st)).
Proof. destruct (m st) as [[r st1] ev1]. reflexivity. Qed.

Lemma run_result {A} (m : M A) st r :
  resultOf (m st) = r -> m st = (r, stateOf (m st), eventsOf (m st)).
Proof. intros <-. apply run_eta. Qed.

Lemma authenticate_ok data st :
  authenticate data st = (Ok tt, stateOf (authenticate data st), []).
Proof. rewrite authenticate_run. reflexivity. Qed.

Lemma mixIntoKey_ok data st :
  mixIntoKey data st = (Ok tt, stateOf (mixIntoKey data st), [EvRekey]).
Proof. reflexivity. Qed.

Lemma encrypt_ok plaintext st :
  encrypt plaintext st =
  (Ok ((gcm_encrypt (encKey st) (generateIV (writeCounter st)) (hash st) plaintext).1
       ++ (gcm_encrypt (encKey st) (generateIV (writeCounter st)) (hash st) plaintext).2),
   stateOf (encrypt plaintext st),
   [EvCipher Seal (isFinished st) (encKey st) (writeCounter st)]).
Proof. rewrite encrypt_run. reflexivity. Qed.

(** C6. Let the two decryptions of the server hello and the two protobuf
    decoders succeed, giving the static key [decStatic] and the certificate's
    key [certKey].  When the two differ, [processHandshake] throws the Boom
    "certification match failed" (status 400), after the two key mixes and
    the two decryptions, and returns nothing.  When they are equal it goes
    on: it encrypts the public key of [noiseKey], mixes the third shared
    secret into the key and returns the encrypted key.  The steps run in the
    order: authenticate, mix, decrypt, mix, decrypt, compare, encrypt, mix. *)
Theorem processHandshake_spec (self noiseKey : KeyPair) (serverHello : ServerHello)
    (st s2 s4 : NoiseState) (decStatic certPlain certDetails certKey : bytes)
    (ev2 ev4 : list Event) :
  let s1 := stateOf (mixIntoKey (sharedKey (private self) (ephemeral serverHello))
                       (stateOf (authenticate (ephemeral serverHello) st))) in
  decrypt (static serverHello) s1 = (Ok decStatic, s2, ev2) ->
  let s3 := stateOf (mixIntoKey (sharedKey (private self) decStatic) s2) in
  decrypt (payload serverHello) s3 = (Ok certPlain, s4, ev4) ->
  NoiseCertificate_details certPlain = Some certDetails ->
  NoiseCertificateDetails_key certDetails = Some certKey ->
  let out := processHandshake self serverHello noiseKey st in
  (decStatic <> certKey ->
     out = (Throw (Boom "certification match failed" 400), s4,
            EvRekey :: ev2 ++ EvRekey :: ev4))
  /\ (decStatic = certKey ->
     let sealed := gcm_encrypt (encKey s4) (generateIV (writeCounter s4)) (hash s4)
                     (public noiseKey) in
     let s5 := stateOf (encrypt (public noiseKey) s4) in
     out = (Ok (sealed.1 ++ sealed.2),
            stateOf (mixIntoKey (sharedKey (private noiseKey) (ephemeral serverHello)) s5),
            EvRekey :: ev2 ++ EvRekey :: ev4
              ++ [EvCipher Seal (isFinished s4) (encKey s4) (writeCounter s4); EvRekey])).
Proof.
  intros s1 Hd1 s3 Hd2 Hc1 Hc2 out. subst out. unfold processHandshake. split.
  - intros Hne.
    assert (Hcmp : (Buffer_compare decStatic certKey =? 0) = false).
    { apply Z.eqb_neq. rewrite Buffer_compare_eq. exact Hne. }
    eapply run_events.
    + eapply bind_ok; [apply authenticate_ok | | reflexivity].
      eapply bind_ok; [apply mixIntoKey_ok | | reflexivity].
      eapply bind_ok; [exact Hd1 | | reflexivity].
      eapply bind_ok; [apply mixIntoKey_ok | | reflexivity].
      eapply bind_ok; [exact Hd2 | | reflexivity].
      rewrite Hc1.
      eapply bind_ok; [reflexivity | | reflexivity].
      rewrite Hc2.
      eapply bind_ok; [reflexivity | | reflexivity].
      apply bind_throw. rewrite Hcmp. reflexivity.
    + cbn. rewrite app_nil_r. reflexivity.
  - intros Heq.
    assert (Hcmp : (Buffer_compare decStatic certKey =? 0) = true).
    { apply Z.eqb_eq. rewrite Buffer_compare_eq. exact Heq. }
    eapply run_events.
    + eapply bind_ok; [apply authenticate_ok | | reflexivity].
      eapply bind_ok; [apply mixIntoKey_ok | | reflexivity].
      eapply bind_ok; [exact Hd1 | | reflexivity].
      eapply bind_ok; [apply mixIntoKey_ok | | reflexivity].
      eapply bind_ok; [exact Hd2 | | reflexivity].
      rewrite Hc1.
      eapply bind_ok; [reflexivity | | reflexivity].
      rewrite Hc2.
      eapply bind_ok; [reflexivity | | reflexivity].
      eapply bind_ok; [rewrite Hcmp; reflexivity | | reflexivity].
      eapply bind_ok; [apply encrypt_ok | | reflexivity].
      eapply bind_ok; [apply mixIntoKey_ok | reflexivity | reflexivity].
    + cbn. reflexivity.
Qed.

(** ** Counters and keys along traces *)

Lemma snoc_split {A} (log l1 l2 : list A) (e x : A) :
  log ++ [e] = l1 ++ x :: l2 ->
  (l2 = [] /\ x = e /\ log = l1)
  \/ (exists l2', l2 = l2' ++ [e] /\ log = l1 ++ x :: l2').
Proof.
  destruct l2 as [|y l2 _] using rev_ind; intros H.
  - left. apply app_inj_tail in H. destruct H as [-> ->]. auto.
  - right. exists l2.
    change (l1 ++ x :: l2 ++ [y]) with (l1 ++ (x :: l2) ++ [y]) in H.
    rewrite app_assoc in H. apply app_inj_tail in H. destruct H as [-> ->]. auto.
Qed.

Lemma quiet_snoc l e : quiet (l ++ [e]) -> quiet l /\ isRekey e = false.
Proof.
  unfold quiet. rewrite Forall_app, Forall_singleton. auto.
Qed.

Lemma nonceInv_frame st st' log :
  isFinished st' = isFinished st -> encKey st' = encKey st -> decKey st' = decKey st ->
  readCounter st' = readCounter st -> writeCounter st' = writeCounter st ->
  nonceInv st log -> nonceInv st' log.
Proof.
  intros Hf He Hd Hr Hw (Hk & Ht & Hp). split; [|split]; [| |exact Hp].
  - rewrite Hf, He, Hd. exact Hk.
  - intros l1 d f k c l2 Hlog Hq. destruct (Ht l1 d f k c l2 Hlog Hq) as (-> & -> & Hc).
    unfold counterOf, decryptCounter in *. rewrite Hf, Hr, Hw.
    destruct d; cbn [keyOf]; rewrite ?He, ?Hd; auto.
Qed.

Lemma nonceInv_onFrame st log f : nonceInv st log -> nonceInv st (log ++ [EvFrame f]).
Proof.
  intros (Hk & Ht & Hp). split; [exact Hk|]. split.
  - intros l1 d f0 k c l2 Hlog Hq.
    apply snoc_split in Hlog as [(_ & Hx & _)|(l2' & -> & ->)]; [discriminate|].
    apply quiet_snoc in Hq as [Hq _]. eapply Ht; eauto.
  - intros l1 d1 f1 k1 c1 l2 d2 f2 k2 c2 l3 Hlog Hq Hs.
    apply snoc_split in Hlog as [(Hnil & _)|(t & Ht' & ->)].
    { destruct l2; discriminate. }
    symmetry in Ht'. apply snoc_split in Ht' as [(_ & Hx & _)|(l3' & -> & ->)];
      [discriminate|].
    eapply Hp; eauto.
Qed.

Lemma nonceInv_rekey st st' log :
  (isFinished st' = false -> encKey st' = decKey st') ->
  nonceInv st log -> nonceInv st' (log ++ [EvRekey]).
Proof.
  intros Hk' (Hk & Ht & Hp). split; [exact Hk'|]. split.
  - intros l1 d f0 k c l2 Hlog Hq.
    apply snoc_split in Hlog as [(_ & Hx & _)|(l2' & -> & ->)]; [discriminate|].
    apply quiet_snoc in Hq as [_ Hq]. discriminate.
  - intros l1 d1 f1 k1 c1 l2 d2 f2 k2 c2 l3 Hlog Hq Hs.
    apply snoc_split in Hlog as [(Hnil & _)|(t & Ht' & ->)].
    { destruct l2; discriminate. }
    symmetry in Ht'. apply snoc_split in Ht' as [(_ & Hx & _)|(l3' & -> & ->)];
      [discriminate|].
    eapply Hp; eauto.
Qed.

Lemma counterOf_shared st d1 d2 :
  isFinished st = false \/ d1 = d2 -> isFinished st = false -> counterOf d1 st = counterOf d2 st.
Proof.
  intros _ Hf. unfold counterOf, decryptCounter. rewrite Hf. destruct d1, d2; reflexivity.
Qed.

Lemma nonceInv_cipher st st' log d :
  isFinished st' = isFinished st -> encKey st' = encKey st -> decKey st' = decKey st ->
  counterOf d st' = counterOf d st + 1 ->
  (forall d', counterOf d' st <= counterOf d' st') ->
  nonceInv st log ->
  nonceInv st' (log ++ [EvCipher d (isFinished st) (keyOf d st) (counterOf d st)]).
Proof.
  intros Hf He Hd Hc Hmono (Hk & Ht & Hp).
  assert (Hkey : forall d', keyOf d' st' = keyOf d' st).
  { intros [|]; cbn; assumption. }
  split; [rewrite Hf, He, Hd; exact Hk|]. split.
  - intros l1 d0 f0 k0 c0 l2 Hlog Hq.
    apply snoc_split in Hlog as [(-> & Hx & ->)|(l2' & -> & ->)].
    + injection Hx as -> -> -> ->. rewrite Hf, Hkey, Hc. split; [|split]; auto; lia.
    + apply quiet_snoc in Hq as [Hq _].
      destruct (Ht _ _ _ _ _ _ eq_refl Hq) as (-> & -> & Hlt).
      rewrite Hf, Hkey. split; [|split]; auto. specialize (Hmono d0). lia.
  - intros l1 d1 f1 k1 c1 l2 d2 f2 k2 c2 l3 Hlog Hq Hs.
    apply snoc_split in Hlog as [(Hnil & _)|(t & Ht' & ->)].
    { destruct l2; discriminate. }
    symmetry in Ht'. apply snoc_split in Ht' as [(-> & Hx & ->)|(l3' & -> & ->)].
    + injection Hx as -> -> -> ->.
      destruct (Ht _ _ _ _ _ _ eq_refl Hq) as (-> & -> & Hlt).
      split; [reflexivity|].
      destruct Hs as [Hs| ->]; [|auto].
      split.
      * specialize (Hk Hs). destruct d1, d; cbn; congruence.
      * rewrite (counterOf_shared st d d1); auto.
    + eapply Hp; eauto.
Qed.

Lemma encrypt_state plaintext st :
  let st' := stateOf (encrypt plaintext st) in
  isFinished st' = isFinished st /\ encKey st' = encKey st /\ decKey st' = decKey st
  /\ readCounter st' = readCounter st /\ writeCounter st' = writeCounter st + 1
  /\ salt st' = salt st /\ sentIntro st' = sentIntro st /\ inBytes st' = inBytes st.
Proof.
  rewrite encrypt_run. cbn. destruct (isFinished st) eqn:E; cbn; rewrite ?E; auto 10.
Qed.

Lemma decrypt_state ciphertext st result :
  resultOf (decrypt ciphertext st) = Ok result ->
  let st' := stateOf (decrypt ciphertext st) in
  isFinished st' = isFinished st /\ encKey st' = encKey st /\ decKey st' = decKey st
  /\ readCounter st' = (if isFinished st then readCounter st + 1 else readCounter st)
  /\ writeCounter st' = (if isFinished st then writeCounter st else writeCounter st + 1)
  /\ salt st' = salt st /\ sentIntro st' = sentIntro st /\ inBytes st' = inBytes st
  /\ eventsOf (decrypt ciphertext st)
     = [EvCipher Unseal (isFinished st) (decKey st) (decryptCounter st)].
Proof.
  rewrite decrypt_run. destruct (gcm_decrypt _ _ _ _ _); cbn; [|discriminate].
  intros _. destruct (isFinished st) eqn:E; cbn; rewrite ?E; auto 10.
Qed.

Lemma nonceInv_stable : Stable nonceInv.
Proof.
  split.
  - intros data st log H. rewrite authenticate_run. cbn. rewrite app_nil_r.
    destruct (isFinished st) eqn:E; [exact H|].
    eapply nonceInv_frame; [ | | | | | exact H]; reflexivity.
  - intros plaintext st log H.
    destruct (encrypt_state plaintext st) as (Hf & He & Hd & Hr & Hw & _).
    replace (eventsOf (encrypt plaintext st))
      with [EvCipher Seal (isFinished st) (keyOf Seal st) (counterOf Seal st)]
      by (rewrite encrypt_run; reflexivity).
    apply nonceInv_cipher; auto.
    intros d'. unfold counterOf, decryptCounter. rewrite Hf, Hr, Hw.
    destruct d', (isFinished st); lia.
  - intros ciphertext st log H.
    destruct (resultOf (decrypt ciphertext st)) as [result|e] eqn:E.
    + destruct (decrypt_state ciphertext st result E) as (Hf & He & Hd & Hr & Hw & _ & _ & _ & Hev).
      rewrite Hev.
      change (decKey st) with (keyOf Unseal st).
      change (decryptCounter st) with (counterOf Unseal st).
      apply nonceInv_cipher; auto.
      * unfold counterOf, decryptCounter. rewrite Hf, Hr, Hw.
        destruct (isFinished st); reflexivity.
      * intros d'. unfold counterOf, decryptCounter. rewrite Hf, Hr, Hw.
        destruct d', (isFinished st); lia.
    + revert E. rewrite decrypt_run.
      destruct (gcm_decrypt _ _ _ _ _); cbn; [discriminate|].
      intros _. rewrite app_nil_r. exact H.
  - intros v st log H. eapply nonceInv_frame; [ | | | | | exact H]; reflexivity.
  - intros v st log H. eapply nonceInv_frame; [ | | | | | exact H]; reflexivity.
  - intros f st log H. apply nonceInv_onFrame, H.
Qed.

Lemma nonceInv_mixIntoKey data : Preserves nonceInv (mixIntoKey data).
Proof.
  intros st log H. rewrite mixIntoKey_run. cbn [stateOf eventsOf fst snd].
  eapply nonceInv_rekey; [|exact H]. reflexivity.
Qed.

Lemma nonceInv_finishInit : Preserves nonceInv finishInit.
Proof.
  intros st log H. rewrite finishInit_run. cbn [stateOf eventsOf fst snd].
  eapply nonceInv_rekey; [|exact H]. discriminate.
Qed.

Lemma nonceInv_fresh self : nonceInv (makeNoiseHandler self) [].
Proof.
  split; [|split].
  - intros _. apply handshakeInv_makeNoiseHandler.
  - intros l1 d f k c l2 Hlog. destruct l1; discriminate.
  - intros l1 d1 f1 k1 c1 l2 d2 f2 k2 c2 l3 Hlog. destruct l1; discriminate.
Qed.

Lemma steady_stable s0 : Stable (steady s0).
Proof.
  unfold steady. split.
  - intros data st log H Hq. rewrite authenticate_run in *. cbn in *.
    rewrite app_nil_r in Hq. destruct (isFinished st); cbn; auto.
  - intros plaintext st log H Hq. rewrite encrypt_run in *. cbn in *.
    apply quiet_snoc in Hq as [Hq _]. specialize (H Hq).
    destruct (isFinished st); cbn; intuition lia.
  - intros ciphertext st log H Hq. rewrite decrypt_run in *.
    destruct (gcm_decrypt _ _ _ _ _) as [result|]; cbn in *.
    + apply quiet_snoc in Hq as [Hq _]. specialize (H Hq).
      destruct (isFinished st); cbn; intuition lia.
    + rewrite app_nil_r in Hq. auto.
  - intros v st log H Hq. apply H, Hq.
  - intros v st log H Hq. apply H, Hq.
  - intros f st log H Hq. apply quiet_snoc in Hq as [Hq _]. apply H, Hq.
Qed.

Lemma steady_mixIntoKey s0 data : Preserves (steady s0) (mixIntoKey data).
Proof.
  intros st log H Hq. rewrite mixIntoKey_run in Hq. cbn in Hq.
  apply quiet_snoc in Hq as [_ Hq]. discriminate.
Qed.

Lemma steady_finishInit s0 : Preserves (steady s0) finishInit.
Proof.
  intros st log H Hq. rewrite finishInit_run in Hq. cbn in Hq.
  apply quiet_snoc in Hq as [_ Hq]. discriminate.
Qed.

Lemma phaseOne_stable : Stable phaseOne.
Proof.
  unfold phaseOne. split.
  - intros data st log [Hf Hl]. rewrite authenticate_run. cbn. rewrite app_nil_r, Hf. auto.
  - intros plaintext st log [Hf Hl].
    destruct (encrypt_state plaintext st) as (Hf' & _). rewrite encrypt_run in *.
    cbn [stateOf eventsOf fst snd] in *. split; [congruence|].
    intros d f k c [Hin|Hin]%elem_of_app; [eauto|].
    apply list_elem_of_singleton in Hin. congruence.
  - intros ciphertext st log [Hf Hl].
    destruct (resultOf (decrypt ciphertext st)) as [result|e] eqn:E.
    + destruct (decrypt_state ciphertext st result E) as (Hf' & _ & _ & _ & _ & _ & _ & _ & Hev).
      rewrite Hev. split; [congruence|].
      intros d f k c [Hin|Hin]%elem_of_app; [eauto|].
      apply list_elem_of_singleton in Hin. congruence.
    + revert E. rewrite decrypt_run. destruct (gcm_decrypt _ _ _ _ _); cbn; [discriminate|].
      intros _. rewrite app_nil_r. auto.
  - intros v st log H. exact H.
  - intros v st log H. exact H.
  - intros f st log [Hf Hl]. split; [exact Hf|].
    intros d f0 k c [Hin|Hin]%elem_of_app; [eauto|].
    apply list_elem_of_singleton in Hin. discriminate.
Qed.

Lemma phaseOne_mixIntoKey data : Preserves phaseOne (mixIntoKey data).
Proof.
  intros st log [Hf Hl]. rewrite mixIntoKey_run. cbn [stateOf eventsOf fst snd].
  split; [exact Hf|].
  intros d f k c [Hin|Hin]%elem_of_app; [eauto|].
  apply list_elem_of_singleton in Hin. discriminate.
Qed.

Lemma phaseTwo_stable key : Stable (phaseTwo key).
Proof.
  unfold phaseTwo. split.
  - intros data st log (Hf & He & Hd & Hl). rewrite authenticate_run. cbn.
    rewrite app_nil_r, Hf. auto.
  - intros plaintext st log (Hf & He & Hd & Hl).
    destruct (encrypt_state plaintext st) as (Hf' & He' & Hd' & _). rewrite encrypt_run in *.
    cbn [stateOf eventsOf fst snd] in *.
    split; [congruence|]. split; [congruence|]. split; [congruence|].
    intros d k c [Hin|Hin]%elem_of_app; [eauto|].
    apply list_elem_of_singleton in Hin. injection Hin as -> _ -> _. exact He.
  - intros ciphertext st log (Hf & He & Hd & Hl).
    destruct (resultOf (decrypt ciphertext st)) as [result|e] eqn:E.
    + destruct (decrypt_state ciphertext st result E)
        as (Hf' & He' & Hd' & _ & _ & _ & _ & _ & Hev).
      rewrite Hev. split; [congruence|]. split; [congruence|]. split; [congruence|].
      intros d k c [Hin|Hin]%elem_of_app; [eauto|].
      apply list_elem_of_singleton in Hin. injection Hin as -> _ -> _. exact Hd.
    + revert E. rewrite decrypt_run. destruct (gcm_decrypt _ _ _ _ _); cbn; [discriminate|].
      intros _. rewrite app_nil_r. auto.
  - intros v st log H. exact H.
  - intros v st log H. exact H.
  - intros f st log (Hf & He & Hd & Hl). split; [exact Hf|]. split; [exact He|].
    split; [exact Hd|].
    intros d k c [Hin|Hin]%elem_of_app; [eauto|].
    apply list_elem_of_singleton in Hin. discriminate.
Qed.

Lemma phaseTwo_finishInit st log :
  phaseOne st log ->
  phaseTwo (hkdf [] 64 (salt st) EmptyString) (stateOf (finishInit st))
    (log ++ eventsOf (finishInit st)).
Proof.
  intros [Hf Hl]. rewrite finishInit_run. cbn [stateOf eventsOf fst snd].
  split; [reflexivity|]. split; [reflexivity|]. split; [reflexivity|].
  intros d k c [Hin|Hin]%elem_of_app.
  - apply Hl in Hin. discriminate.
  - apply list_elem_of_singleton in Hin. discriminate.
Qed.

Lemma settled_split (cs : list Call) :
  settled cs = true ->
  Forall (fun c => c <> CallFinishInit) cs
  \/ exists pre post,
       cs = pre ++ CallFinishInit :: post
       /\ Forall (fun c => c <> CallFinishInit) pre
       /\ Forall (fun c => assignsKey c = false) post.
Proof.
  induction cs as [|c cs IH]; intros H; [left; constructor|].
  assert (Hcase : c = CallFinishInit \/ (c <> CallFinishInit /\ settled cs = true)).
  { destruct c; cbn [settled] in H; auto; right; split; auto; discriminate. }
  destruct Hcase as [-> | [Hc Hs]].
  - right. exists [], cs. split; [reflexivity|]. split; [constructor|].
    cbn [settled] in H. apply Forall_forall. intros c Hin.
    rewrite forallb_forall in H. apply list_elem_of_In in Hin.
    apply H in Hin. apply negb_true_iff in Hin. exact Hin.
  - destruct (IH Hs) as [Hall | (pre & post & -> & Hpre & Hpost)].
    + left. constructor; assumption.
    + right. exists (c :: pre), post. split; [reflexivity|].
      split; [constructor; assumption | exact Hpost].
Qed.

Lemma runTrace_app self cs1 cs2 st :
  runTrace self (cs1 ++ cs2) st =
  ((runTrace self cs2 (runTrace self cs1 st).1).1,
   (runTrace self cs1 st).2 ++ (runTrace self cs2 (runTrace self cs1 st).1).2).
Proof.
  revert st. induction cs1 as [|c cs1 IH]; intros st; cbn [app runTrace fst snd].
  - destruct (runTrace self cs2 st). reflexivity.
  - destruct (runCall self c st) as [st1 ev1]. rewrite IH.
    destruct (runTrace self cs1 st1) as [st2 ev2]. cbn [fst snd].
    destruct (runTrace self cs2 st2) as [st3 ev3]. cbn [fst snd].
    rewrite app_assoc. reflexivity.
Qed.

(** In a settled trace the ciphers that ran on the finished handler used, for
    each direction, its half of the 64 bytes that [finishInit] derived. *)
Lemma settled_halves self cs :
  settled cs = true ->
  exists salt0, forall d k c,
    EvCipher d true k c ∈ (runTrace self cs (makeNoiseHandler self)).2 ->
    k = halfOf d (hkdf [] 64 salt0 EmptyString).
Proof.
  intros Hs.
  assert (Hfresh : phaseOne (makeNoiseHandler self) []).
  { split; [apply handshakeInv_makeNoiseHandler|]. intros d f k c Hin.
    apply elem_of_nil in Hin. contradiction. }
  assert (Hone : forall pre, Forall (fun c => c <> CallFinishInit) pre ->
            phaseOne (runTrace self pre (makeNoiseHandler self)).1
              ([] ++ (runTrace self pre (makeNoiseHandler self)).2)).
  { intros pre Hpre. apply (runTrace_preserves _ phaseOne_stable); [|exact Hfresh].
    eapply Forall_impl; [exact Hpre|]. intros c Hc.
    destruct c; cbn [keeps]; auto using phaseOne_mixIntoKey. contradiction. }
  destruct (settled_split cs Hs) as [Hall | (pre & post & -> & Hpre & Hpost)].
  - exists []. intros d k c Hin. apply (Hone cs Hall) in Hin. discriminate.
  - specialize (Hone pre Hpre). cbn [app] in Hone.
    set (s1 := (runTrace self pre (makeNoiseHandler self)).1) in *.
    exists (salt s1). rewrite runTrace_app. fold s1. cbn [runTrace snd].
    pose proof (phaseTwo_finishInit _ _ Hone) as Htwo.
    change (runCall self CallFinishInit s1)
      with (stateOf (finishInit s1), eventsOf (finishInit s1)).
    cbv iota.
    assert (Hkeep : Forall (keeps (phaseTwo (hkdf [] 64 (salt s1) EmptyString))) post).
    { eapply Forall_impl; [exact Hpost|]. intros c Hc.
      destruct c; cbn [keeps]; auto; discriminate. }
    pose proof (runTrace_preserves _ (phaseTwo_stable _) self post _ _ Hkeep Htwo) as Hend.
    destruct (runTrace self post (stateOf (finishInit s1))) as [st2 ev2].
    cbn [fst snd] in *. rewrite app_assoc. apply Hend.
Qed.

(** C2 (amended). On every trace of calls on a fresh handler: of two runs of
    a cipher between which no key was assigned (no [mixIntoKey], no
    [finishInit]), made in the same direction or both before the handshake
    is finished, the later one used the same key and a strictly greater
    counter.  The mechanism: [encrypt], and [decrypt] when it succeeds, add
    exactly one to the counter they read and leave the keys; a call that
    assigns no key neither lowers a counter nor changes a key.  And on a
    trace that calls [finishInit] at most once and assigns no key after it,
    the ciphers of the finished handler use the two halves of the 64 bytes
    that [finishInit] derived, one for each direction. *)
Theorem nonce_counter_unique (self : KeyPair) (cs : list Call) :
  (forall l1 d1 f1 k1 c1 l2 d2 f2 k2 c2 l3,
     (runTrace self cs (makeNoiseHandler self)).2
       = l1 ++ EvCipher d1 f1 k1 c1 :: l2 ++ EvCipher d2 f2 k2 c2 :: l3 ->
     quiet l2 -> f1 = false \/ d1 = d2 ->
     f2 = f1 /\ k2 = k1 /\ c1 < c2)
  /\ (forall st plaintext,
        let st' := stateOf (encrypt plaintext st) in
        eventsOf (encrypt plaintext st)
          = [EvCipher Seal (isFinished st) (encKey st) (writeCounter st)]
        /\ writeCounter st' = writeCounter st + 1 /\ readCounter st' = readCounter st
        /\ encKey st' = encKey st /\ decKey st' = decKey st)
  /\ (forall st ciphertext result,
        resultOf (decrypt ciphertext st) = Ok result ->
        let st' := stateOf (decrypt ciphertext st) in
        eventsOf (decrypt ciphertext st)
          = [EvCipher Unseal (isFinished st) (decKey st) (decryptCounter st)]
        /\ decryptCounter st' = decryptCounter st + 1
        /\ (if isFinished st then writeCounter st' = writeCounter st
            else readCounter st' = readCounter st)
        /\ encKey st' = encKey st /\ decKey st' = decKey st)
  /\ (forall c st,
        let st' := (runCall self c st).1 in
        quiet (runCall self c st).2 ->
        encKey st' = encKey st /\ decKey st' = decKey st
        /\ readCounter st <= readCounter st' /\ writeCounter st <= writeCounter st')
  /\ (settled cs = true ->
      exists salt0, forall d k c,
        EvCipher d true k c ∈ (runTrace self cs (makeNoiseHandler self)).2 ->
        k = halfOf d (hkdf [] 64 salt0 EmptyString)).
Proof.
  split; [|split; [|split; [|split]]].
  - assert (H : nonceInv (runTrace self cs (makeNoiseHandler self)).1
                  ([] ++ (runTrace self cs (makeNoiseHandler self)).2)).
    { apply (runTrace_preserves _ nonceInv_stable).
      - apply Forall_forall. intros c _.
        destruct c; cbn [keeps]; auto using nonceInv_mixIntoKey, nonceInv_finishInit.
      - apply nonceInv_fresh. }
    destruct H as (_ & _ & Hp). intros. eapply Hp; eauto.
  - intros st plaintext.
    destruct (encrypt_state plaintext st) as (Hf & He & Hd & Hr & Hw & _).
    split; [rewrite encrypt_run; reflexivity | auto].
  - intros st ciphertext result Hok.
    destruct (decrypt_state ciphertext st result Hok)
      as (Hf & He & Hd & Hr & Hw & _ & _ & _ & Hev).
    split; [exact Hev|]. unfold decryptCounter. rewrite Hf, Hr, Hw.
    destruct (isFinished st); auto.
  - intros c st st' Hq. subst st'.
    apply (runCall_preserves _ (steady_stable st) self c st []).
    + destruct c; cbn [keeps]; auto using steady_mixIntoKey, steady_finishInit.
    + intros _. repeat split; lia.
    + exact Hq.
  - apply settled_halves.
Qed.

(** ** [encodeFrame] *)

Lemma Buffer_set_head (source : bytes) (k : nat) :
  Buffer_set source 0 (repeat Byte.x00 (length source + k))
  = Ok (source ++ repeat Byte.x00 k).
Proof.
  unfold Buffer_set, byteLength. rewrite repeat_length. zbool.
  cbv [andb]. rewrite Z.add_0_l, Nat2Z.id. f_equal.
  rewrite repeat_app, drop_app_length'; [reflexivity | symmetry; apply repeat_length].
Qed.

Lemma Buffer_set_tail (pre source junk : bytes) :
  length junk = length source ->
  Buffer_set source (byteLength pre) (pre ++ junk) = Ok (pre ++ source).
Proof.
  intros Hlen. unfold Buffer_set, byteLength. rewrite length_app. zbool.
  cbv [andb]. rewrite Nat2Z.id, take_app_length. f_equal. f_equal.
  rewrite drop_ge; [apply app_nil_r | rewrite length_app; lia].
Qed.

Lemma writeUInt8_at (pre post : bytes) (x : byte) (v : Z) :
  0 <= v <= 255 ->
  writeUInt8 v (byteLength pre) (pre ++ x :: post) = Ok (pre ++ u8 v :: post).
Proof.
  intros Hv. unfold writeUInt8, byteLength. rewrite length_app. cbn [length]. zbool.
  cbv [andb]. rewrite Nat2Z.id. f_equal.
  rewrite insert_app_r_alt by lia. rewrite Nat.sub_diag. reflexivity.
Qed.

Lemma writeUInt16BE_at (pre post : bytes) (x y : byte) (v : Z) :
  0 <= v <= 65535 ->
  writeUInt16BE v (byteLength pre) (pre ++ x :: y :: post)
  = Ok (pre ++ u8 (Z.shiftr v 8) :: u8 v :: post).
Proof.
  intros Hv. unfold writeUInt16BE, byteLength. rewrite length_app. cbn [length]. zbool.
  cbv [andb]. f_equal.
  replace (Z.to_nat (Z.of_nat (length pre) + 1)) with (length pre + 1)%nat by lia.
  rewrite Nat2Z.id.
  rewrite (insert_app_r_alt pre _ (length pre)) by lia. rewrite Nat.sub_diag.
  rewrite insert_app_r_alt by lia.
  replace (length pre + 1 - length pre)%nat with 1%nat by lia. reflexivity.
Qed.

Lemma ToInt32_small (n : Z) : 0 <= n < 2 ^ 31 -> ToInt32 n = n.
Proof.
  intros Hn. unfold ToInt32. change (2 ^ 31) with 2147483648 in *.
  change (2 ^ 32) with 4294967296. rewrite Z.mod_small by lia. zbool. reflexivity.
Qed.

Lemma js_sar_small (n : Z) : 0 <= n < 2 ^ 31 -> js_sar n 16 = n / 2 ^ 16.
Proof.
  intros Hn. unfold js_sar. rewrite ToInt32_small by exact Hn.
  change (16 mod 32) with 16. apply Z.shiftr_div_pow2. lia.
Qed.

Lemma js_and_65535 (n : Z) : js_and 65535 n = n mod 2 ^ 16.
Proof.
  unfold js_and. change (ToInt32 65535) with (Z.ones 16).
  rewrite Z.land_comm, Z.land_ones by lia.
  unfold ToInt32. change (2 ^ 32) with 4294967296. change (2 ^ 31) with 2147483648.
  change (2 ^ 16) with 65536.
  destruct (n mod 4294967296 <? 2147483648);
    Z.to_euclidean_division_equations; lia.
Qed.

Lemma lor_shiftl16 (a b : Z) :
  0 <= b < 2 ^ 16 -> Z.lor (Z.shiftl a 16) b = a * 2 ^ 16 + b.
Proof.
  intros Hb.
  assert (Hdisj : Z.land (Z.shiftl a 16) b = 0).
  { apply Z.bits_inj'. intros n Hn. rewrite Z.land_spec, Z.bits_0.
    destruct (Z.lt_ge_cases n 16) as [Hlt|Hge].
    - rewrite Z.shiftl_spec_low by lia. reflexivity.
    - rewrite <- (Z.mod_small b (2 ^ 16)) by lia.
      rewrite Z.mod_pow2_bits_high by lia. apply andb_false_r. }
  rewrite <- Z.lxor_lor by exact Hdisj.
  rewrite <- Z.add_nocarry_lxor by exact Hdisj.
  rewrite Z.shiftl_mul_pow2 by lia. reflexivity.
Qed.

(** The size [getBytesSize] computes from the bytes [hi], [mid], [lo]. *)
Lemma js_size (hi mid lo : Z) :
  0 <= hi < 256 -> 0 <= mid < 256 -> 0 <= lo < 256 ->
  js_or (js_shl hi 16) (mid * 2 ^ 8 + lo) = hi * 65536 + mid * 256 + lo.
Proof.
  intros Hhi Hmid Hlo. unfold js_or, js_shl. change (16 mod 32) with 16.
  change (2 ^ 8) with 256.
  rewrite (ToInt32_small hi) by lia.
  rewrite (ToInt32_small (mid * 256 + lo)) by lia.
  rewrite !(ToInt32_small (Z.shiftl hi 16))
    by (rewrite Z.shiftl_mul_pow2 by lia; change (2 ^ 16) with 65536; lia).
  rewrite lor_shiftl16 by (change (2 ^ 16) with 65536; lia).
  change (2 ^ 16) with 65536. lia.
Qed.

(** The size read back from the three bytes of a length below 2^24. *)
Lemma peekSize_be24 (n : Z) (rest : bytes) :
  0 <= n < 2 ^ 24 -> peekSize (be24 n ++ rest) = Some n.
Proof.
  intros Hn. unfold be24. cbn [app peekSize]. f_equal.
  rewrite js_size by apply byteVal_range.
  rewrite !byteVal_u8, !Z.shiftr_div_pow2 by lia.
  change (2 ^ 24) with 16777216 in Hn. change (2 ^ 16) with 65536.
  change (2 ^ 8) with 256.
  Z.to_euclidean_division_equations. lia.
Qed.

Lemma alloc_frame (pre wire : bytes) :
  Buffer_alloc (byteLength pre + 3 + byteLength wire)
  = repeat Byte.x00 (length pre + (3 + length wire)).
Proof. unfold Buffer_alloc, byteLength. f_equal. lia. Qed.

Lemma write_frame (pre wire junk : bytes) (hi lo : Z) (st : NoiseState) :
  0 <= lo <= 65535 -> length junk = length wire ->
  (frame ← liftRes (writeUInt8 hi (byteLength pre)
                      (pre ++ Byte.x00 :: Byte.x00 :: Byte.x00 :: junk));
   frame ← liftRes (writeUInt16BE lo (byteLength pre + 1) frame);
   frame ← liftRes (Buffer_set wire (byteLength pre + 3) frame);
   mret frame) st
  = (if (0 <=? hi) && (hi <=? 255)
     then Ok (pre ++ [u8 hi; u8 (Z.shiftr lo 8); u8 lo] ++ wire)
     else Throw RangeError, st, []).
Proof.
  intros Hlo Hjunk.
  destruct ((0 <=? hi) && (hi <=? 255)) eqn:Ehi.
  - apply andb_true_iff in Ehi as [H1%Z.leb_le H2%Z.leb_le].
    eapply run_events.
    { eapply bind_ok;
        [unfold liftRes; rewrite writeUInt8_at by lia; reflexivity | | reflexivity].
      replace (byteLength pre + 1) with (byteLength (pre ++ [u8 hi]))
        by (unfold byteLength; rewrite length_app; cbn; lia).
      eapply bind_ok; [ | | reflexivity].
      { unfold liftRes.
        change (pre ++ u8 hi :: Byte.x00 :: Byte.x00 :: junk)
          with (pre ++ [u8 hi] ++ Byte.x00 :: Byte.x00 :: junk).
        rewrite app_assoc, writeUInt16BE_at by lia. reflexivity. }
      replace (byteLength pre + 3)
        with (byteLength ((pre ++ [u8 hi]) ++ [u8 (Z.shiftr lo 8); u8 lo]))
        by (unfold byteLength; rewrite !length_app; cbn; lia).
      eapply bind_ok; [ | reflexivity | reflexivity].
      unfold liftRes.
      change ((pre ++ [u8 hi]) ++ u8 (Z.shiftr lo 8) :: u8 lo :: junk)
        with ((pre ++ [u8 hi]) ++ [u8 (Z.shiftr lo 8); u8 lo] ++ junk).
      rewrite app_assoc, Buffer_set_tail by exact Hjunk.
      rewrite <- !app_assoc. reflexivity. }
    reflexivity.
  - apply bind_throw. unfold liftRes, writeUInt8. rewrite Ehi. reflexivity.
Qed.

Lemma encodeFrame_run (data : bytes) (st : NoiseState) :
  let wire := wireOf data st in
  let st1 := if isFinished st then stateOf (encrypt data st) else st in
  let ev := if isFinished st
            then [EvCipher Seal (isFinished st) (encKey st) (writeCounter st)] else [] in
  let st2 := if sentIntro st then st1 else set_sentIntro true st1 in
  let hi := js_sar (byteLength wire) 16 in
  let lo := js_and 65535 (byteLength wire) in
  encodeFrame data st =
  (if (0 <=? hi) && (hi <=? 255)
   then Ok (introOf st ++ [u8 hi; u8 (Z.shiftr lo 8); u8 lo] ++ wire)
   else Throw RangeError, st2, ev).
Proof.
  intros wire st1 ev st2 hi lo.
  assert (Hlo : 0 <= lo <= 65535).
  { subst lo. rewrite js_and_65535. change (2 ^ 16) with 65536.
    pose proof (Z.mod_pos_bound (byteLength wire) 65536). lia. }
  assert (Hs1 : sentIntro st1 = sentIntro st).
  { subst st1. destruct (isFinished st); [|reflexivity].
    apply (encrypt_state data st). }
  assert (Hfirst : (if isFinished st then encrypt data else mret data) st
                   = (Ok wire, st1, ev)).
  { subst wire st1 ev. unfold wireOf. destruct (isFinished st) eqn:Ef; [|reflexivity].
    rewrite encrypt_run. cbn [stateOf fst snd]. rewrite Ef. reflexivity. }
  unfold encodeFrame.
  eapply run_events.
  - eapply bind_ok; [reflexivity | | reflexivity]. cbv beta.
    eapply bind_ok; [exact Hfirst | | reflexivity].
    eapply bind_ok; [reflexivity | | reflexivity]. cbv beta zeta. rewrite Hs1.
    fold wire. unfold introOf. subst st2. destruct (sentIntro st) eqn:Es; cbn [negb].
    + eapply bind_ok; [reflexivity | | reflexivity].
      change 0 with (byteLength []) at 1 2 3 4.
      rewrite alloc_frame. apply (write_frame [] wire); [exact Hlo | apply repeat_length].
    + rewrite alloc_frame.
      eapply bind_ok; [ | | reflexivity].
      { eapply bind_ok; [unfold liftRes; rewrite Buffer_set_head; reflexivity | | reflexivity].
        eapply bind_ok; reflexivity. }
      apply (write_frame NOISE_WA_HEADER wire); [exact Hlo | apply repeat_length].
  - subst ev. destruct (isFinished st); reflexivity.
Qed.

Lemma u8_mod (a b : Z) : a mod 256 = b mod 256 -> u8 a = u8 b.
Proof. intros H. unfold u8. rewrite H. reflexivity. Qed.

(** The three bytes [encodeFrame] writes for a length below 2^24. *)
Lemma prefix_be24 (n : Z) :
  0 <= n < 2 ^ 24 ->
  (0 <=? js_sar n 16) && (js_sar n 16 <=? 255) = true
  /\ [u8 (js_sar n 16); u8 (Z.shiftr (js_and 65535 n) 8); u8 (js_and 65535 n)] = be24 n.
Proof.
  intros Hn. change (2 ^ 24) with 16777216 in Hn.
  rewrite js_sar_small, js_and_65535 by (change (2 ^ 31) with 2147483648; lia).
  change (2 ^ 16) with 65536. split.
  - apply andb_true_iff. split; apply Z.leb_le; Z.to_euclidean_division_equations; lia.
  - unfold be24. rewrite !Z.shiftr_div_pow2 by lia.
    change (2 ^ 16) with 65536. change (2 ^ 8) with 256.
    rewrite (u8_mod (n mod 65536 / 256) (n / 256)), (u8_mod (n mod 65536) n);
      [reflexivity | |]; Z.to_euclidean_division_equations; lia.
Qed.

Lemma wireOf_raw (data : bytes) (st : NoiseState) :
  isFinished st = false -> wireOf data st = data.
Proof. intros Hf. unfold wireOf. rewrite Hf. reflexivity. Qed.

(** What [encodeFrame] returns, after the preamble and before the handshake
    is finished, whenever the high byte it computes fits a byte. *)
Lemma encodeFrame_raw (data : bytes) (st : NoiseState) (hi lo : Z) :
  isFinished st = false -> sentIntro st = true ->
  js_sar (byteLength data) 16 = hi -> js_and 65535 (byteLength data) = lo ->
  0 <= hi <= 255 ->
  resultOf (encodeFrame data st) = Ok ([u8 hi; u8 (Z.shiftr lo 8); u8 lo] ++ data).
Proof.
  intros Hf Hs Hhi Hlo Hr. rewrite encodeFrame_run. cbn [resultOf fst].
  unfold introOf. rewrite Hs, (wireOf_raw data st Hf), Hhi, Hlo. zbool. reflexivity.
Qed.

Lemma encodeFrame_small (data : bytes) (st : NoiseState) :
  byteLength (wireOf data st) < 2 ^ 24 ->
  resultOf (encodeFrame data st)
  = Ok (introOf st ++ be24 (byteLength (wireOf data st)) ++ wireOf data st).
Proof.
  intros Hn. rewrite encodeFrame_run. cbn [resultOf fst].
  destruct (prefix_be24 (byteLength (wireOf data st))) as [-> ->];
    [unfold byteLength in *; lia | reflexivity].
Qed.

Lemma encodeFrame_large (data : bytes) (st : NoiseState) :
  2 ^ 24 <= byteLength (wireOf data st) < 2 ^ 32 ->
  resultOf (encodeFrame data st) = Throw RangeError.
Proof.
  intros Hn. rewrite encodeFrame_run. cbn [resultOf fst].
  set (n := byteLength (wireOf data st)) in *.
  change (2 ^ 24) with 16777216 in Hn. change (2 ^ 32) with 4294967296 in Hn.
  assert (Hhi : js_sar n 16 < 0 \/ 256 <= js_sar n 16).
  { destruct (Z.lt_ge_cases n 2147483648) as [Hlt|Hge].
    - right. rewrite js_sar_small by (change (2 ^ 31) with 2147483648; lia).
      change (2 ^ 16) with 65536. Z.to_euclidean_division_equations. lia.
    - left. unfold js_sar, ToInt32. change (2 ^ 32) with 4294967296.
      change (2 ^ 31) with 2147483648. rewrite Z.mod_small by lia.
      zbool. apply Z.shiftr_neg. lia. }
  destruct Hhi as [Hhi|Hhi].
  - zbool. reflexivity.
  - zbool. rewrite andb_false_r. reflexivity.
Qed.

(** C9 (amended). When the payload on the wire (the data, or its ciphertext
    and tag once the handshake is finished) has between 2^24 and 2^32 - 1
    bytes, [encodeFrame] throws a range error and returns no frame; when it
    has fewer than 2^24 bytes, the frame is the preamble (the first time),
    the three big-endian bytes of the payload's length, and the payload. *)
Theorem encodeFrame_length_prefix (data : bytes) (st : NoiseState) :
  let wire := wireOf data st in
  (2 ^ 24 <= byteLength wire < 2 ^ 32 ->
     resultOf (encodeFrame data st) = Throw RangeError)
  /\ (byteLength wire < 2 ^ 24 ->
     resultOf (encodeFrame data st)
       = Ok (introOf st ++ be24 (byteLength wire) ++ wire)
     /\ beValue (be24 (byteLength wire)) = byteLength wire).
Proof.
  intros wire. split; intros Hn.
  - apply encodeFrame_large, Hn.
  - split; [apply encodeFrame_small, Hn|].
    apply beValue_be24. unfold byteLength in *. lia.
Qed.

(** ** [decodeFrame] *)

#[local] Arguments getBytesSize : simpl never.
#[local] Arguments frameLoop : simpl never.

Lemma getBytesSize_run st : getBytesSize st = (Ok (peekSize (inBytes st)), st, []).
Proof.
  unfold getBytesSize. eapply run_events.
  - eapply bind_ok; [reflexivity | | reflexivity]. cbv beta.
    destruct (inBytes st) as [|b0 [|b1 [|b2 rest]]]; try reflexivity.
    unfold byteLength. cbn [length]. zbool. reflexivity.
  - reflexivity.
Qed.

Lemma peekSize_range (b : bytes) (n : Z) : peekSize b = Some n -> 0 <= n < 2 ^ 24.
Proof.
  destruct b as [|b0 [|b1 [|b2 rest]]]; try discriminate. cbn [peekSize].
  intros [= <-]. rewrite js_size by apply byteVal_range.
  pose proof (byteVal_range b0). pose proof (byteVal_range b1).
  pose proof (byteVal_range b2). change (2 ^ 24) with 16777216. lia.
Qed.

Lemma frameLoop_idle fuel size st :
  frameReady size st = false -> frameLoop fuel size st = (Ok tt, st, []).
Proof.
  intros H. destruct fuel; unfold frameLoop; msimpl; rewrite H; reflexivity.
Qed.

(** One iteration of the loop. *)
Lemma frameLoop_step fuel n st :
  frameReady (Some n) st = true ->
  frameLoop (S fuel) (Some n) st =
  let frame := slice (inBytes st) 3 (Some (n + 3)) in
  let st1 := set_inBytes (slice (inBytes st) (n + 3) None) st in
  if isFinished st then
    match decrypt frame st1 with
    | (Throw e, st2, ev) => (Throw e, st2, ev)
    | (Ok plain, st2, ev) =>
        match decodeBinaryNode plain with
        | None => (Throw DecodeError, st2, ev)
        | Some node =>
            let o := frameLoop fuel (peekSize (inBytes st2)) st2 in
            (resultOf o, stateOf o, ev ++ EvFrame (NodeFrame node) :: eventsOf o)
        end
    end
  else
    let o := frameLoop fuel (peekSize (inBytes st1)) st1 in
    (resultOf o, stateOf o, EvFrame (RawFrame frame) :: eventsOf o).
Proof.
  intros Hready. cbv zeta.
  change (frameLoop (S fuel) (Some n) st) with
    ((st ← getState;
      if frameReady (Some n) st then
        let n := default 0 (Some n) in
        let frame := slice (inBytes st) 3 (Some (n + 3)) in
        modify (set_inBytes (slice (inBytes st) (n + 3) None));;
        frame ← (if isFinished st then
                    result ← decrypt frame;
                    node ← liftOpt DecodeError (decodeBinaryNode result);
                    mret (NodeFrame node)
                  else mret (RawFrame frame));
        emit (EvFrame frame);;
        size ← getBytesSize;
        frameLoop fuel size
      else mret tt) st).
  unfold mbind, M_bind, bindM, getState, modify, emit, mret, M_ret, retM.
  rewrite Hready. cbn [default from_option id].
  destruct (isFinished st).
  - destruct (decrypt _ _) as [[[plain|e] st2] ev]; [|reflexivity].
    destruct (decodeBinaryNode plain) as [node|]; cbn [liftOpt retM throw];
      [|rewrite app_nil_r; reflexivity].
    rewrite getBytesSize_run.
    destruct (frameLoop fuel _ st2) as [[r st3] ev3]. cbn. rewrite app_nil_r. reflexivity.
  - rewrite getBytesSize_run.
    destruct (frameLoop fuel _ _) as [[r st3] ev3]. reflexivity.
Qed.

Lemma decodeFrame_run newData st :
  decodeFrame newData st =
  frameLoop (length (inBytes st ++ newData)) (peekSize (inBytes st ++ newData))
    (set_inBytes (inBytes st ++ newData) st).
Proof.
  unfold decodeFrame.
  unfold mbind, M_bind, bindM, modify, getState. rewrite getBytesSize_run.
  cbn [inBytes set_inBytes].
  destruct (frameLoop _ _ _) as [[r st1] ev1]. reflexivity.
Qed.

(** The loop of [decodeFrame] ends within the fuel it is given: the call
    returns or throws an error of the handler. *)
Lemma frameLoop_total fuel st :
  (length (inBytes st) <= fuel)%nat ->
  resultOf (frameLoop fuel (peekSize (inBytes st)) st) <> Throw FuelExhausted.
Proof.
  revert st. induction fuel as [|fuel IH]; intros st Hlen.
  - destruct (inBytes st) eqn:E; [|cbn in Hlen; lia].
    rewrite frameLoop_idle by reflexivity. discriminate.
  - destruct (frameReady (peekSize (inBytes st)) st) eqn:Hready;
      [|rewrite frameLoop_idle by exact Hready; discriminate].
    destruct (peekSize (inBytes st)) as [n|] eqn:Hsize; [|discriminate].
    pose proof (peekSize_range _ _ Hsize) as Hn.
    assert (Hready' := Hready). cbn [frameReady] in Hready'.
    apply andb_true_iff in Hready' as [Hnz Hge].
    apply negb_true_iff, Z.eqb_neq in Hnz.
    rewrite Z.geb_leb in Hge. apply Z.leb_le in Hge. unfold byteLength in Hge.
    rewrite frameLoop_step by exact Hready. cbv zeta.
    assert (Hrest : (length (slice (inBytes st) (n + 3) None) <= fuel)%nat).
    { rewrite slice_drop by lia. rewrite length_drop. lia. }
    destruct (isFinished st).
    + pose proof (decrypt_run (slice (inBytes st) 3 (Some (n + 3)))
                    (set_inBytes (slice (inBytes st) (n + 3) None) st)) as Hd.
      destruct (decrypt _ _) as [[[plain|e] st2] ev] eqn:Ed.
      * assert (Hin : inBytes st2 = slice (inBytes st) (n + 3) None).
        { pose proof (decrypt_state _ _ plain (f_equal resultOf Ed)) as Hs.
          rewrite Ed in Hs. apply Hs. }
        destruct (decodeBinaryNode plain); [|discriminate].
        cbn [resultOf fst]. apply IH. rewrite Hin. exact Hrest.
      * destruct (gcm_decrypt _ _ _ _ _); [discriminate|].
        injection Hd as -> _ _. discriminate.
    + cbn [resultOf fst]. apply IH. exact Hrest.
Qed.

Lemma decodeFrame_total newData st :
  resultOf (decodeFrame newData st) <> Throw FuelExhausted.
Proof.
  rewrite decodeFrame_run.
  apply (frameLoop_total _ (set_inBytes (inBytes st ++ newData) st)). reflexivity.
Qed.

Lemma byteLength_app (a b : bytes) : byteLength (a ++ b) = byteLength a + byteLength b.
Proof. unfold byteLength. rewrite length_app. lia. Qed.

Lemma slice_frame (n : Z) (body rest : bytes) :
  byteLength body = n ->
  slice (be24 n ++ body ++ rest) 3 (Some (n + 3)) = body
  /\ slice (be24 n ++ body ++ rest) (n + 3) None = rest.
Proof.
  unfold byteLength. intros Hn. split.
  - rewrite slice_mid by lia. change (drop (Z.to_nat 3) (be24 n ++ ?l)) with l.
    replace (Z.to_nat (n + 3 - 3)) with (length body) by lia. apply take_app_length.
  - rewrite slice_drop by lia.
    replace (Z.to_nat (n + 3)) with (3 + length body)%nat by lia.
    change (drop (3 + ?k) (be24 n ++ ?l)) with (drop k l). apply drop_app_length.
Qed.

Lemma frameReady_frame (n : Z) (body rest : bytes) st :
  byteLength body = n -> 0 < n ->
  inBytes st = be24 n ++ body ++ rest -> frameReady (Some n) st = true.
Proof.
  intros Hb Hn Hin. cbn [frameReady]. rewrite Hin, !byteLength_app, Hb.
  assert (0 <= byteLength rest) by (unfold byteLength; lia).
  change (byteLength (be24 n)) with 3. zbool. reflexivity.
Qed.

(** An iteration before the handshake is finished: the body is given to
    [onFrame] as it is. *)
Lemma frameLoop_raw fuel n body rest st :
  isFinished st = false -> inBytes st = be24 n ++ body ++ rest ->
  byteLength body = n -> 0 < n ->
  frameLoop (S fuel) (Some n) st =
  let o := frameLoop fuel (peekSize rest) (set_inBytes rest st) in
  (resultOf o, stateOf o, EvFrame (RawFrame body) :: eventsOf o).
Proof.
  intros Hf Hin Hb Hn.
  rewrite frameLoop_step by (eapply frameReady_frame; eauto).
  cbv zeta. rewrite Hf, Hin.
  destruct (slice_frame n body rest Hb) as [-> ->]. reflexivity.
Qed.

(** An iteration once the handshake is finished: the body is decrypted and
    decoded, and the node is given to [onFrame]. *)
Lemma frameLoop_sealed fuel n body rest st plain st2 ev node :
  isFinished st = true -> inBytes st = be24 n ++ body ++ rest ->
  byteLength body = n -> 0 < n ->
  decrypt body (set_inBytes rest st) = (Ok plain, st2, ev) ->
  decodeBinaryNode plain = Some node ->
  frameLoop (S fuel) (Some n) st =
  let o := frameLoop fuel (peekSize rest) st2 in
  (resultOf o, stateOf o, ev ++ EvFrame (NodeFrame node) :: eventsOf o).
Proof.
  intros Hf Hin Hb Hn Hd Hnode.
  rewrite frameLoop_step by (eapply frameReady_frame; eauto).
  cbv zeta. rewrite Hf, Hin.
  destruct (slice_frame n body rest Hb) as [-> ->].
  rewrite Hd, Hnode.
  pose proof (decrypt_state _ _ plain (f_equal resultOf Hd)) as Hs.
  rewrite Hd in Hs. cbv zeta in Hs. cbn [stateOf fst snd] in Hs.
  destruct Hs as (_ & _ & _ & _ & _ & _ & _ & Hrest & _). rewrite Hrest. reflexivity.
Qed.

(** *** Reassembly *)

Lemma set_inBytes_same st : set_inBytes (inBytes st) st = st.
Proof. destruct st. reflexivity. Qed.

Lemma peekSize_app (a b : bytes) (m : Z) :
  peekSize a = Some m -> peekSize (a ++ b) = Some m.
Proof. destruct a as [|b0 [|b1 [|b2 a]]]; try discriminate. auto. Qed.

Lemma feedAll_nil (chunks : list bytes) st :
  inBytes st = [] -> concat chunks = [] -> feedAll chunks st = (Ok tt, st, []).
Proof.
  intros Hin. induction chunks as [|c chunks IH]; intros Hc; [reflexivity|].
  cbn [concat] in Hc. apply app_eq_nil in Hc as [-> Hc].
  cbn [feedAll]. eapply run_events.
  - eapply bind_ok; [ | apply IH, Hc | reflexivity].
    rewrite decodeFrame_run, Hin. cbn [app length peekSize].
    rewrite frameLoop_idle by reflexivity. rewrite <- Hin, set_inBytes_same. reflexivity.
  - reflexivity.
Qed.

(** A frame that arrives in pieces: nothing happens until the last piece,
    and then the loop runs on the whole frame. *)
Lemma feedAll_fragments (n : Z) (body : bytes) (peer stF : NoiseState)
    (evF : list Event) (chunks : list bytes) :
  byteLength body = n -> 0 < n < 2 ^ 24 ->
  frameLoop (length (be24 n ++ body)) (Some n) (set_inBytes (be24 n ++ body) peer)
    = (Ok tt, stF, evF) ->
  inBytes stF = [] ->
  forall acc,
    acc ++ concat chunks = be24 n ++ body ->
    (length acc < length (be24 n ++ body))%nat ->
    feedAll chunks (set_inBytes acc peer) = (Ok tt, stF, evF).
Proof.
  intros Hb Hn Hrun HinF.
  induction chunks as [|c chunks IH]; intros acc Hcat Hlen.
  - cbn [concat] in Hcat. rewrite app_nil_r in Hcat. subst acc. lia.
  - cbn [concat] in Hcat. rewrite app_assoc in Hcat.
    assert (Hle : (length (acc ++ c) <= length (be24 n ++ body))%nat).
    { rewrite <- Hcat, (length_app (acc ++ c)). lia. }
    cbn [feedAll].
    destruct (decide (length (acc ++ c) < length (be24 n ++ body))%nat) as [Hlt|Hge].
    + eapply run_events.
      * eapply bind_ok; [ | apply (IH (acc ++ c) Hcat Hlt) | reflexivity].
        rewrite decodeFrame_run. cbn [inBytes set_inBytes].
        apply frameLoop_idle.
        destruct (peekSize (acc ++ c)) as [m|] eqn:Hm; [|reflexivity].
        assert (m = n) as ->.
        { apply (peekSize_app _ (concat chunks)) in Hm. rewrite Hcat in Hm.
          rewrite peekSize_be24 in Hm by lia. congruence. }
        cbn [frameReady inBytes set_inBytes]. unfold byteLength in *.
        rewrite (length_app (be24 n)) in Hlt. change (length (be24 n)) with 3%nat in Hlt.
        rewrite andb_false_iff. right. rewrite Z.geb_leb. apply Z.leb_gt. lia.
      * reflexivity.
    + assert (Heq : acc ++ c = be24 n ++ body /\ concat chunks = []).
      { assert (Hl : length (concat chunks) = 0%nat).
        { apply (f_equal length) in Hcat. rewrite (length_app (acc ++ c)) in Hcat. lia. }
        apply length_zero_iff_nil in Hl. rewrite Hl, app_nil_r in Hcat. auto. }
      destruct Heq as [Heq Hnil].
      eapply run_events.
      * eapply bind_ok; [ | apply (feedAll_nil chunks stF HinF Hnil) | reflexivity].
        rewrite decodeFrame_run. cbn [inBytes set_inBytes]. rewrite Heq.
        rewrite peekSize_be24 by lia. exact Hrun.
      * apply app_nil_r.
Qed.

(** The loop on exactly one frame, before the handshake is finished. *)
Lemma frameLoop_one_raw (n : Z) (body : bytes) (peer : NoiseState) :
  isFinished peer = false -> byteLength body = n -> 0 < n ->
  frameLoop (length (be24 n ++ body)) (Some n) (set_inBytes (be24 n ++ body) peer)
  = (Ok tt, set_inBytes [] peer, [EvFrame (RawFrame body)]).
Proof.
  intros Hf Hb Hn. cbn [length app be24].
  rewrite (frameLoop_raw _ n body []); [ | exact Hf | | exact Hb | exact Hn].
  - cbv zeta. cbn [peekSize]. rewrite frameLoop_idle by reflexivity. reflexivity.
  - cbn [inBytes set_inBytes]. rewrite app_nil_r. reflexivity.
Qed.

(** [decrypt] at the receiving end of a frame that [encrypt] produced: the
    receiver holds the sender's key, counter and hash, and the cipher gives
    the plaintext back. *)
Lemma decrypt_sealed (st peer : NoiseState) (payload : bytes) :
  isFinished peer = true ->
  decKey peer = encKey st -> readCounter peer = writeCounter st -> hash peer = hash st ->
  let sealed := gcm_encrypt (encKey st) (generateIV (writeCounter st)) (hash st) payload in
  length sealed.2 = 16%nat ->
  gcm_decrypt (encKey st) (generateIV (writeCounter st)) (hash st) sealed.1 sealed.2
    = Some payload ->
  decrypt (sealed.1 ++ sealed.2) peer
  = (Ok payload, set_readCounter (readCounter peer + 1) peer,
     [EvCipher Unseal true (decKey peer) (readCounter peer)]).
Proof.
  intros Hf Hk Hc Hh sealed Htag Hopen. rewrite decrypt_run.
  destruct (cipher_split_app sealed.1 sealed.2 Htag) as [-> ->].
  unfold decryptCounter. rewrite Hf, Hk, Hc, Hh, Hopen. reflexivity.
Qed.

Lemma frameLoop_one_sealed (st peer : NoiseState) (payload : bytes) (node : BinaryNode) :
  isFinished peer = true ->
  decKey peer = encKey st -> readCounter peer = writeCounter st -> hash peer = hash st ->
  let sealed := gcm_encrypt (encKey st) (generateIV (writeCounter st)) (hash st) payload in
  let wire := sealed.1 ++ sealed.2 in
  length sealed.2 = 16%nat ->
  gcm_decrypt (encKey st) (generateIV (writeCounter st)) (hash st) sealed.1 sealed.2
    = Some payload ->
  decodeBinaryNode payload = Some node ->
  frameLoop (length (be24 (byteLength wire) ++ wire)) (Some (byteLength wire))
    (set_inBytes (be24 (byteLength wire) ++ wire) peer)
  = (Ok tt, set_inBytes [] (set_readCounter (readCounter peer + 1) peer),
     [EvCipher Unseal true (decKey peer) (readCounter peer); EvFrame (NodeFrame node)]).
Proof.
  intros Hf Hk Hc Hh sealed wire Htag Hopen Hnode.
  assert (Hpos : 0 < byteLength wire).
  { subst wire. rewrite byteLength_app. unfold byteLength. lia. }
  cbn [length app be24].
  rewrite (frameLoop_sealed _ (byteLength wire) wire [] _ payload
             (set_readCounter (readCounter peer + 1) (set_inBytes [] peer))
             [EvCipher Unseal true (decKey peer) (readCounter peer)] node);
    [ | exact Hf | | reflexivity | exact Hpos | | exact Hnode].
  - cbv zeta. cbn [peekSize]. rewrite frameLoop_idle by reflexivity. reflexivity.
  - cbn [inBytes set_inBytes]. rewrite app_nil_r. reflexivity.
  - apply (decrypt_sealed st (set_inBytes [] peer) payload); auto.
Qed.

(** C3 (amended). A frame that [encodeFrame] returned after the preamble was
    sent, with a payload on the wire of 1 to 2^24 - 1 bytes, is cut into
    chunks in any way and the chunks are given in order to [decodeFrame] of
    a receiver whose buffer is empty.  Before the handshake is finished the
    receiver calls [onFrame] once, with the payload.  Once it is finished, on
    a receiver that holds the sender's key, counter and hash, with a cipher
    that opens what it sealed: the receiver decrypts once and calls [onFrame]
    once, with the binary node decoded from the payload. *)
Theorem reassembly :
  (forall (st peer : NoiseState) (payload frame : bytes) (chunks : list bytes),
     isFinished st = false -> sentIntro st = true ->
     isFinished peer = false -> inBytes peer = [] ->
     0 < byteLength payload < 2 ^ 24 ->
     resultOf (encodeFrame payload st) = Ok frame ->
     concat chunks = frame ->
     feedAll chunks peer = (Ok tt, peer, [EvFrame (RawFrame payload)]))
  /\ (forall (st peer : NoiseState) (payload frame : bytes) (chunks : list bytes)
        (node : BinaryNode),
     isFinished st = true -> sentIntro st = true ->
     isFinished peer = true -> inBytes peer = [] ->
     decKey peer = encKey st -> readCounter peer = writeCounter st ->
     hash peer = hash st ->
     let sealed :=
       gcm_encrypt (encKey st) (generateIV (writeCounter st)) (hash st) payload in
     length sealed.2 = 16%nat ->
     gcm_decrypt (encKey st) (generateIV (writeCounter st)) (hash st) sealed.1 sealed.2
       = Some payload ->
     decodeBinaryNode payload = Some node ->
     byteLength (sealed.1 ++ sealed.2) < 2 ^ 24 ->
     resultOf (encodeFrame payload st) = Ok frame ->
     concat chunks = frame ->
     feedAll chunks peer
     = (Ok tt, set_readCounter (readCounter peer + 1) peer,
        [EvCipher Unseal true (decKey peer) (readCounter peer);
         EvFrame (NodeFrame node)])).
Proof.
  split.
  - intros st peer payload frame chunks Hf Hs Hpf Hin Hlen Henc Hcat.
    assert (Hwire : wireOf payload st = payload) by (unfold wireOf; rewrite Hf; reflexivity).
    rewrite encodeFrame_small in Henc by (rewrite Hwire; lia).
    unfold introOf in Henc. rewrite Hs, Hwire in Henc. injection Henc as <-.
    rewrite <- (set_inBytes_same peer) at 1. rewrite Hin.
    eapply (feedAll_fragments (byteLength payload) payload peer peer);
      [reflexivity | exact Hlen | | exact Hin | exact Hcat | cbn; lia].
    rewrite frameLoop_one_raw by (auto; lia).
    rewrite <- Hin, set_inBytes_same. reflexivity.
  - intros st peer payload frame chunks node Hf Hs Hpf Hin Hk Hc Hh sealed Htag Hopen
      Hnode Hlen Henc Hcat.
    assert (Hwire : wireOf payload st = sealed.1 ++ sealed.2)
      by (unfold wireOf; rewrite Hf; reflexivity).
    rewrite encodeFrame_small in Henc by (rewrite Hwire; lia).
    unfold introOf in Henc. rewrite Hs, Hwire in Henc. injection Henc as <-.
    assert (Hpos : 0 < byteLength (sealed.1 ++ sealed.2)).
    { rewrite byteLength_app. unfold byteLength. lia. }
    rewrite <- (set_inBytes_same peer) at 1. rewrite Hin.
    eapply (feedAll_fragments (byteLength (sealed.1 ++ sealed.2)) (sealed.1 ++ sealed.2)
              peer (set_readCounter (readCounter peer + 1) peer));
      [reflexivity | lia | | exact Hin | exact Hcat | cbn; lia].
    subst sealed.
    rewrite (frameLoop_one_sealed st peer payload node) by assumption.
    rewrite <- Hin at 1. destruct peer. reflexivity.
Qed.

(** *** Two frames in one read *)

Lemma encodeFrame_state_raw (data : bytes) (st : NoiseState) :
  isFinished st = false -> sentIntro st = true -> stateOf (encodeFrame data st) = st.
Proof.
  intros Hf Hs. rewrite encodeFrame_run. cbn [stateOf fst snd]. rewrite Hf, Hs. reflexivity.
Qed.

Lemma encodeFrame_state_sealed (data : bytes) (st : NoiseState) :
  isFinished st = true -> sentIntro st = true ->
  let st1 := stateOf (encodeFrame data st) in
  isFinished st1 = true /\ sentIntro st1 = true /\ encKey st1 = encKey st
  /\ hash st1 = hash st /\ writeCounter st1 = writeCounter st + 1.
Proof.
  intros Hf Hs. rewrite encodeFrame_run. cbn [stateOf fst snd]. rewrite Hf, Hs.
  rewrite encrypt_run. cbn [stateOf fst snd]. rewrite Hf. cbn. auto.
Qed.

(** The loop on exactly two frames, before the handshake is finished. *)
Lemma frameLoop_two_raw (n1 n2 : Z) (body1 body2 : bytes) (peer : NoiseState) :
  isFinished peer = false ->
  byteLength body1 = n1 -> 0 < n1 < 2 ^ 24 -> byteLength body2 = n2 -> 0 < n2 < 2 ^ 24 ->
  decodeFrame ((be24 n1 ++ body1) ++ be24 n2 ++ body2) (set_inBytes [] peer)
  = (Ok tt, set_inBytes [] peer, [EvFrame (RawFrame body1); EvFrame (RawFrame body2)]).
Proof.
  intros Hf Hb1 Hn1 Hb2 Hn2. rewrite decodeFrame_run. cbn [inBytes set_inBytes app].
  rewrite <- app_assoc. rewrite peekSize_be24 by lia.
  cbn [length app be24].
  rewrite (frameLoop_raw _ n1 body1 (be24 n2 ++ body2));
    [ | exact Hf | reflexivity | exact Hb1 | lia].
  cbv zeta. rewrite peekSize_be24 by lia.
  rewrite (frameLoop_raw _ n2 body2 []);
    [ | exact Hf | cbn [inBytes set_inBytes]; rewrite app_nil_r; reflexivity
      | exact Hb2 | lia].
  cbv zeta. cbn [peekSize]. rewrite frameLoop_idle by reflexivity. reflexivity.
Qed.

(** The loop on exactly two frames that one sender sealed one after the
    other, on a receiver in step with the sender. *)
Lemma frameLoop_two_sealed (st peer : NoiseState) (p1 p2 : bytes) (node1 node2 : BinaryNode) :
  isFinished peer = true ->
  decKey peer = encKey st -> readCounter peer = writeCounter st -> hash peer = hash st ->
  let sealed1 :=
    gcm_encrypt (encKey st) (generateIV (writeCounter st)) (hash st) p1 in
  let sealed2 :=
    gcm_encrypt (encKey st) (generateIV (writeCounter st + 1)) (hash st) p2 in
  let wire1 := sealed1.1 ++ sealed1.2 in
  let wire2 := sealed2.1 ++ sealed2.2 in
  length sealed1.2 = 16%nat -> length sealed2.2 = 16%nat ->
  gcm_decrypt (encKey st) (generateIV (writeCounter st)) (hash st) sealed1.1 sealed1.2
    = Some p1 ->
  gcm_decrypt (encKey st) (generateIV (writeCounter st + 1)) (hash st) sealed2.1 sealed2.2
    = Some p2 ->
  decodeBinaryNode p1 = Some node1 -> decodeBinaryNode p2 = Some node2 ->
  byteLength wire1 < 2 ^ 24 -> byteLength wire2 < 2 ^ 24 ->
  decodeFrame ((be24 (byteLength wire1) ++ wire1) ++ be24 (byteLength wire2) ++ wire2)
    (set_inBytes [] peer)
  = (Ok tt, set_inBytes [] (set_readCounter (readCounter peer + 1 + 1) peer),
     [EvCipher Unseal true (decKey peer) (readCounter peer); EvFrame (NodeFrame node1);
      EvCipher Unseal true (decKey peer) (readCounter peer + 1);
      EvFrame (NodeFrame node2)]).
Proof.
  intros Hf Hk Hc Hh sealed1 sealed2 wire1 wire2 Ht1 Ht2 Ho1 Ho2 Hn1 Hn2 Hl1 Hl2.
  assert (Hp1 : 0 < byteLength wire1).
  { subst wire1. rewrite byteLength_app. unfold byteLength. lia. }
  assert (Hp2 : 0 < byteLength wire2).
  { subst wire2. rewrite byteLength_app. unfold byteLength. lia. }
  set (rest := be24 (byteLength wire2) ++ wire2).
  set (peer1 := set_readCounter (readCounter peer + 1) (set_inBytes rest peer)).
  assert (Hd1 : decrypt wire1 (set_inBytes rest peer)
                = (Ok p1, peer1, [EvCipher Unseal true (decKey peer) (readCounter peer)])).
  { apply (decrypt_sealed st (set_inBytes rest peer) p1); assumption. }
  set (st' := set_writeCounter (writeCounter st + 1) st).
  assert (Hd2 : decrypt wire2 (set_inBytes [] peer1)
                = (Ok p2, set_readCounter (readCounter peer + 1 + 1) (set_inBytes [] peer),
                   [EvCipher Unseal true (decKey peer) (readCounter peer + 1)])).
  { apply (decrypt_sealed st' (set_inBytes [] peer1) p2); cbn; auto. lia. }
  assert (Hinner : forall fuel,
             frameLoop (S fuel) (peekSize rest) peer1
             = (Ok tt, set_readCounter (readCounter peer + 1 + 1) (set_inBytes [] peer),
                [EvCipher Unseal true (decKey peer) (readCounter peer + 1);
                 EvFrame (NodeFrame node2)])).
  { intros fuel. unfold rest. rewrite peekSize_be24 by lia.
    rewrite (frameLoop_sealed _ (byteLength wire2) wire2 [] _ p2
               (set_readCounter (readCounter peer + 1 + 1) (set_inBytes [] peer))
               [EvCipher Unseal true (decKey peer) (readCounter peer + 1)] node2);
      [ | exact Hf | cbn [inBytes set_inBytes peer1 set_readCounter]; rewrite app_nil_r;
                     reflexivity
        | reflexivity | exact Hp2 | exact Hd2 | exact Hn2].
    cbv zeta. cbn [peekSize]. rewrite frameLoop_idle by reflexivity. reflexivity. }
  rewrite decodeFrame_run. cbn [inBytes set_inBytes app].
  rewrite <- app_assoc. fold rest. rewrite peekSize_be24 by lia.
  cbn [length app be24].
  rewrite (frameLoop_sealed _ (byteLength wire1) wire1 rest _ p1 peer1
             [EvCipher Unseal true (decKey peer) (readCounter peer)] node1);
    [ | exact Hf | reflexivity | reflexivity | exact Hp1 | exact Hd1 | exact Hn1].
  cbv zeta. rewrite Hinner. reflexivity.
Qed.

(** C4 (amended). Two frames that [encodeFrame] returned one after the other,
    after the preamble was sent and each with a payload on the wire of 1 to
    2^24 - 1 bytes, are concatenated and given in one call to [decodeFrame]
    of a receiver whose buffer is empty.  Before the handshake is finished
    the receiver calls [onFrame] twice: with the first payload, then with the
    second.  Once it is finished, on a receiver in step with the sender and
    with a cipher that opens what it sealed, it calls [onFrame] twice: with
    the node decoded from the first payload, then with the node decoded from
    the second. *)
Theorem coalesced_frames :
  (forall (st peer : NoiseState) (p1 p2 frame1 frame2 : bytes),
     isFinished st = false -> sentIntro st = true ->
     isFinished peer = false -> inBytes peer = [] ->
     0 < byteLength p1 < 2 ^ 24 -> 0 < byteLength p2 < 2 ^ 24 ->
     resultOf (encodeFrame p1 st) = Ok frame1 ->
     resultOf (encodeFrame p2 (stateOf (encodeFrame p1 st))) = Ok frame2 ->
     decodeFrame (frame1 ++ frame2) peer
     = (Ok tt, peer, [EvFrame (RawFrame p1); EvFrame (RawFrame p2)]))
  /\ (forall (st peer : NoiseState) (p1 p2 frame1 frame2 : bytes)
        (node1 node2 : BinaryNode),
     isFinished st = true -> sentIntro st = true ->
     isFinished peer = true -> inBytes peer = [] ->
     decKey peer = encKey st -> readCounter peer = writeCounter st ->
     hash peer = hash st ->
     let sealed1 :=
       gcm_encrypt (encKey st) (generateIV (writeCounter st)) (hash st) p1 in
     let sealed2 :=
       gcm_encrypt (encKey st) (generateIV (writeCounter st + 1)) (hash st) p2 in
     length sealed1.2 = 16%nat -> length sealed2.2 = 16%nat ->
     gcm_decrypt (encKey st) (generateIV (writeCounter st)) (hash st)
       sealed1.1 sealed1.2 = Some p1 ->
     gcm_decrypt (encKey st) (generateIV (writeCounter st + 1)) (hash st)
       sealed2.1 sealed2.2 = Some p2 ->
     decodeBinaryNode p1 = Some node1 -> decodeBinaryNode p2 = Some node2 ->
     byteLength (sealed1.1 ++ sealed1.2) < 2 ^ 24 ->
     byteLength (sealed2.1 ++ sealed2.2) < 2 ^ 24 ->
     resultOf (encodeFrame p1 st) = Ok frame1 ->
     resultOf (encodeFrame p2 (stateOf (encodeFrame p1 st))) = Ok frame2 ->
     decodeFrame (frame1 ++ frame2) peer
     = (Ok tt, set_readCounter (readCounter peer + 1 + 1) peer,
        [EvCipher Unseal true (decKey peer) (readCounter peer);
         EvFrame (NodeFrame node1);
         EvCipher Unseal true (decKey peer) (readCounter peer + 1);
         EvFrame (NodeFrame node2)])).
Proof.
  split.
  - intros st peer p1 p2 frame1 frame2 Hf Hs Hpf Hin Hl1 Hl2 He1 He2.
    rewrite encodeFrame_state_raw in He2 by assumption.
    assert (Hw : forall p, wireOf p st = p) by (intros p; unfold wireOf; rewrite Hf; reflexivity).
    rewrite encodeFrame_small in He1, He2 by (rewrite Hw; lia).
    unfold introOf in He1, He2. rewrite Hs, !Hw in He1, He2.
    injection He1 as <-. injection He2 as <-.
    rewrite <- (set_inBytes_same peer), Hin.
    apply frameLoop_two_raw; auto.
  - intros st peer p1 p2 frame1 frame2 node1 node2 Hf Hs Hpf Hin Hk Hc Hh sealed1 sealed2
      Ht1 Ht2 Ho1 Ho2 Hn1 Hn2 Hl1 Hl2 He1 He2.
    destruct (encodeFrame_state_sealed p1 st Hf Hs) as (Hf1 & Hs1 & Hk1 & Hh1 & Hw1).
    assert (Hw : wireOf p1 st = sealed1.1 ++ sealed1.2)
      by (unfold wireOf; rewrite Hf; reflexivity).
    assert (Hw' : wireOf p2 (stateOf (encodeFrame p1 st)) = sealed2.1 ++ sealed2.2)
      by (unfold wireOf; rewrite Hf1, Hk1, Hh1, Hw1; reflexivity).
    rewrite encodeFrame_small in He1 by (rewrite Hw; lia).
    rewrite encodeFrame_small in He2 by (rewrite Hw'; lia).
    unfold introOf in He1, He2. rewrite Hs, Hw in He1. rewrite Hs1, Hw' in He2.
    injection He1 as <-. injection He2 as <-.
    rewrite <- (set_inBytes_same peer) at 1. rewrite Hin.
    subst sealed1 sealed2.
    etransitivity;
      [apply (frameLoop_two_sealed st peer p1 p2 node1 node2); assumption|].
    rewrite <- Hin at 1. destruct peer. reflexivity.
Qed.

(** ** More on [decodeFrame]: streams, chunks and failures *)

(** *** The loop of [decodeFrame], in general *)

Lemma frameReady_iff (st : NoiseState) (n : Z) :
  frameReady (Some n) st = true <-> n <> 0 /\ n + 3 <= byteLength (inBytes st).
Proof.
  cbn [frameReady]. rewrite andb_true_iff, negb_true_iff, Z.eqb_neq, Z.geb_leb, Z.leb_le.
  reflexivity.
Qed.

Lemma decrypt_inBytes (ciphertext v : bytes) (st : NoiseState) :
  decrypt ciphertext (set_inBytes v st)
  = (resultOf (decrypt ciphertext st), set_inBytes v (stateOf (decrypt ciphertext st)),
     eventsOf (decrypt ciphertext st))
  /\ inBytes (stateOf (decrypt ciphertext st)) = inBytes st.
Proof.
  rewrite !decrypt_run. cbn [decKey hash set_inBytes].
  change (decryptCounter (set_inBytes v st)) with (decryptCounter st).
  destruct (gcm_decrypt _ _ _ _ _); [|split; reflexivity].
  cbn [isFinished set_inBytes]. destruct (isFinished st); split; reflexivity.
Qed.

(** The loop, by cases on its first iteration. *)
Lemma frameLoop_induction
    (P : NoiseState -> Res unit * NoiseState * list Event -> Prop) :
  (forall st, stalled st -> P st (Ok tt, st, [])) ->
  (forall st n o,
     peekSize (inBytes st) = Some n -> 0 < n < 2 ^ 24 ->
     n + 3 <= byteLength (inBytes st) -> isFinished st = false ->
     P (set_inBytes (slice (inBytes st) (n + 3) None) st) o ->
     P st (resultOf o, stateOf o,
           EvFrame (RawFrame (slice (inBytes st) 3 (Some (n + 3)))) :: eventsOf o)) ->
  (forall st n e st2 ev,
     peekSize (inBytes st) = Some n -> 0 < n < 2 ^ 24 ->
     n + 3 <= byteLength (inBytes st) -> isFinished st = true ->
     decrypt (slice (inBytes st) 3 (Some (n + 3)))
       (set_inBytes (slice (inBytes st) (n + 3) None) st) = (Throw e, st2, ev) ->
     P st (Throw e, st2, ev)) ->
  (forall st n plain st2 ev,
     peekSize (inBytes st) = Some n -> 0 < n < 2 ^ 24 ->
     n + 3 <= byteLength (inBytes st) -> isFinished st = true ->
     decrypt (slice (inBytes st) 3 (Some (n + 3)))
       (set_inBytes (slice (inBytes st) (n + 3) None) st) = (Ok plain, st2, ev) ->
     decodeBinaryNode plain = None ->
     P st (Throw DecodeError, st2, ev)) ->
  (forall st n plain st2 ev node o,
     peekSize (inBytes st) = Some n -> 0 < n < 2 ^ 24 ->
     n + 3 <= byteLength (inBytes st) -> isFinished st = true ->
     decrypt (slice (inBytes st) 3 (Some (n + 3)))
       (set_inBytes (slice (inBytes st) (n + 3) None) st) = (Ok plain, st2, ev) ->
     decodeBinaryNode plain = Some node ->
     P st2 o ->
     P st (resultOf o, stateOf o, ev ++ EvFrame (NodeFrame node) :: eventsOf o)) ->
  forall fuel st, (length (inBytes st) <= fuel)%nat ->
    P st (frameLoop fuel (peekSize (inBytes st)) st).
Proof.
  intros Hidle Hraw Hthrow Hnode Hstep.
  induction fuel as [|fuel IH]; intros st Hlen.
  - destruct (inBytes st) eqn:E; [|cbn in Hlen; lia].
    rewrite frameLoop_idle by reflexivity. apply Hidle. unfold stalled. rewrite E. reflexivity.
  - destruct (frameReady (peekSize (inBytes st)) st) eqn:Hready;
      [|rewrite frameLoop_idle by exact Hready; apply Hidle, Hready].
    destruct (peekSize (inBytes st)) as [n|] eqn:Hsize; [|discriminate].
    pose proof (peekSize_range _ _ Hsize) as Hn.
    pose proof (proj1 (frameReady_iff st n) Hready) as [Hnz Hge].
    rewrite frameLoop_step by exact Hready. cbv zeta.
    assert (Hrest : (length (slice (inBytes st) (n + 3) None) <= fuel)%nat).
    { rewrite slice_drop by lia. rewrite length_drop. unfold byteLength in Hge. lia. }
    destruct (isFinished st) eqn:Hf.
    + destruct (decrypt _ _) as [[[plain|e] st2] ev] eqn:Ed.
      * assert (Hin : inBytes st2 = slice (inBytes st) (n + 3) None).
        { pose proof (decrypt_state _ _ plain (f_equal resultOf Ed)) as Hs.
          rewrite Ed in Hs. apply Hs. }
        destruct (decodeBinaryNode plain) as [node|] eqn:En.
        -- eapply Hstep; try eassumption; try lia. apply IH. rewrite Hin. exact Hrest.
        -- eapply Hnode; try eassumption; lia.
      * eapply Hthrow; try eassumption; lia.
    + apply Hraw; try assumption; try lia. apply IH. exact Hrest.
Qed.

Lemma frameLoop_fuel (f1 f2 : nat) (st : NoiseState) :
  (length (inBytes st) <= f1)%nat -> (length (inBytes st) <= f2)%nat ->
  frameLoop f1 (peekSize (inBytes st)) st = frameLoop f2 (peekSize (inBytes st)) st.
Proof.
  revert f2 st. induction f1 as [|f1 IH]; intros f2 st H1 H2.
  - destruct (inBytes st) eqn:E; [|cbn in H1; lia].
    rewrite !frameLoop_idle by reflexivity. reflexivity.
  - destruct (frameReady (peekSize (inBytes st)) st) eqn:Hready;
      [|rewrite !frameLoop_idle by exact Hready; reflexivity].
    destruct (peekSize (inBytes st)) as [n|] eqn:Hsize; [|discriminate].
    pose proof (peekSize_range _ _ Hsize) as Hn.
    pose proof (proj1 (frameReady_iff st n) Hready) as [Hnz Hge].
    destruct f2 as [|f2]; [unfold byteLength in Hge; lia|].
    rewrite !frameLoop_step by exact Hready. cbv zeta.
    assert (Hrest : forall f, (length (inBytes st) <= S f)%nat ->
                      (length (slice (inBytes st) (n + 3) None) <= f)%nat).
    { intros f Hf. rewrite slice_drop by lia. rewrite length_drop.
      unfold byteLength in Hge. lia. }
    destruct (isFinished st) eqn:Hf.
    + destruct (decrypt _ _) as [[[plain|e] st2] ev] eqn:Ed; [|reflexivity].
      assert (Hin : inBytes st2 = slice (inBytes st) (n + 3) None).
      { pose proof (decrypt_state _ _ plain (f_equal resultOf Ed)) as Hs.
        rewrite Ed in Hs. apply Hs. }
      destruct (decodeBinaryNode plain) as [node|]; [|reflexivity].
      rewrite (IH f2 st2) by (rewrite Hin; auto). reflexivity.
    + rewrite (IH f2) by (cbn [inBytes set_inBytes]; auto). reflexivity.
Qed.

Lemma slice_app_mid (a b : bytes) (i j : Z) :
  0 <= i <= j -> j <= byteLength a -> slice (a ++ b) i (Some j) = slice a i (Some j).
Proof.
  unfold byteLength. intros Hij Hj. rewrite !slice_mid by lia.
  rewrite drop_app_le by lia. apply take_app_le. rewrite length_drop. lia.
Qed.

Lemma slice_app_drop (a b : bytes) (i : Z) :
  0 <= i <= byteLength a -> slice (a ++ b) i None = slice a i None ++ b.
Proof.
  unfold byteLength. intros Hi. rewrite !slice_drop by lia. apply drop_app_le. lia.
Qed.

Lemma run_eta' {A} (o : Res A * NoiseState * list Event) :
  (resultOf o, stateOf o, [] ++ eventsOf o) = o.
Proof. destruct o as [[r st] ev]. reflexivity. Qed.

(** The loop on a buffer to which more bytes are appended: what it does on
    the buffer, and then what it does on the rest with the new bytes. *)
Lemma frameLoop_app (b : bytes) (fuel : nat) (st : NoiseState) :
  (length (inBytes st) <= fuel)%nat ->
  frameLoop (fuel + length b) (peekSize (inBytes st ++ b))
    (set_inBytes (inBytes st ++ b) st) =
  match frameLoop fuel (peekSize (inBytes st)) st with
  | (Ok _, st1, ev1) =>
      let o := frameLoop (length (inBytes st1 ++ b)) (peekSize (inBytes st1 ++ b))
                 (set_inBytes (inBytes st1 ++ b) st1) in
      (resultOf o, stateOf o, ev1 ++ eventsOf o)
  | (Throw e, st1, ev1) => (Throw e, set_inBytes (inBytes st1 ++ b) st1, ev1)
  end.
Proof.
  revert st. induction fuel as [|fuel IH]; intros st Hlen.
  - destruct (inBytes st) eqn:E; [|cbn in Hlen; lia].
    rewrite (frameLoop_idle 0) by (rewrite ?E; reflexivity).
    cbv zeta. rewrite E, run_eta'. reflexivity.
  - destruct (frameReady (peekSize (inBytes st)) st) eqn:Hready.
    2:{ rewrite (frameLoop_idle (S fuel)) by exact Hready. cbv zeta. rewrite run_eta'.
        apply (frameLoop_fuel _ _ (set_inBytes (inBytes st ++ b) st));
          cbn [inBytes set_inBytes]; rewrite length_app; lia. }
    destruct (peekSize (inBytes st)) as [n|] eqn:Hsize; [|discriminate].
    pose proof (peekSize_range _ _ Hsize) as Hn.
    pose proof (proj1 (frameReady_iff st n) Hready) as [Hnz Hge].
    rewrite (peekSize_app _ b n Hsize).
    assert (Hready' : frameReady (Some n) (set_inBytes (inBytes st ++ b) st) = true).
    { apply frameReady_iff. split; [exact Hnz|]. cbn [inBytes set_inBytes].
      rewrite byteLength_app. unfold byteLength in *. lia. }
    change (S fuel + length b)%nat with (S (fuel + length b)).
    rewrite !frameLoop_step by assumption. cbv zeta. cbn [inBytes set_inBytes isFinished].
    rewrite slice_app_mid, slice_app_drop by lia.
    set (frame := slice (inBytes st) 3 (Some (n + 3))).
    set (st1 := set_inBytes (slice (inBytes st) (n + 3) None) st).
    assert (Hrest : (length (inBytes st1) <= fuel)%nat).
    { subst st1. cbn [inBytes set_inBytes]. rewrite slice_drop by lia.
      rewrite length_drop. unfold byteLength in Hge. lia. }
    change (set_inBytes (slice (inBytes st) (n + 3) None ++ b)
              (set_inBytes (inBytes st ++ b) st))
      with (set_inBytes (inBytes st1 ++ b) st1).
    destruct (isFinished st) eqn:Hf.
    + destruct (decrypt_inBytes frame (inBytes st1 ++ b) st1) as [-> Hin].
      destruct (decrypt frame st1) as [[[plain|e] st2] ev] eqn:Ed;
        cbn [resultOf stateOf eventsOf fst snd] in *.
      * destruct (decodeBinaryNode plain) as [node|]; [|rewrite Hin; reflexivity].
        cbn [inBytes set_inBytes]. rewrite <- Hin.
        change (set_inBytes (inBytes st2 ++ b) st2)
          with (set_inBytes (inBytes st2 ++ b) st2).
        rewrite (IH st2) by (rewrite Hin; exact Hrest).
        destruct (frameLoop fuel (peekSize (inBytes st2)) st2) as [[[[]|e'] st3] ev3];
          cbn [resultOf stateOf eventsOf fst snd].
        -- rewrite <- app_assoc. reflexivity.
        -- reflexivity.
      * rewrite Hin. reflexivity.
    + cbn [inBytes set_inBytes].
      change (slice (inBytes st) (n + 3) None) with (inBytes st1).
      rewrite (IH st1) by exact Hrest.
      destruct (frameLoop fuel (peekSize (inBytes st1)) st1) as [[[[]|e'] st3] ev3];
        cbn [resultOf stateOf eventsOf fst snd]; reflexivity.
Qed.

(** [decodeFrame] of two pieces in one call: what it does with the first,
    and then, unless it threw, what it does with the second. *)
Lemma decodeFrame_app (a b : bytes) (st : NoiseState) :
  decodeFrame (a ++ b) st =
  match decodeFrame a st with
  | (Ok _, st1, ev1) =>
      (resultOf (decodeFrame b st1), stateOf (decodeFrame b st1),
       ev1 ++ eventsOf (decodeFrame b st1))
  | (Throw e, st1, ev1) => (Throw e, set_inBytes (inBytes st1 ++ b) st1, ev1)
  end.
Proof.
  assert (H : frameLoop (length (inBytes st ++ a ++ b)) (peekSize (inBytes st ++ a ++ b))
                 (set_inBytes (inBytes st ++ a ++ b) st)
               = match frameLoop (length (inBytes st ++ a)) (peekSize (inBytes st ++ a))
                         (set_inBytes (inBytes st ++ a) st) with
                 | (Ok _, st1, ev1) =>
                     let o := frameLoop (length (inBytes st1 ++ b))
                                (peekSize (inBytes st1 ++ b))
                                (set_inBytes (inBytes st1 ++ b) st1) in
                     (resultOf o, stateOf o, ev1 ++ eventsOf o)
                 | (Throw e, st1, ev1) => (Throw e, set_inBytes (inBytes st1 ++ b) st1, ev1)
                 end).
  { rewrite app_assoc, (length_app (inBytes st ++ a)).
    apply (frameLoop_app b _ (set_inBytes (inBytes st ++ a) st)). cbn. lia. }
  rewrite (decodeFrame_run (a ++ b)), H, (decodeFrame_run a).
  destruct (frameLoop (length (inBytes st ++ a)) _ _) as [[[[]|e] st1] ev1]; [|reflexivity].
  cbv zeta. rewrite decodeFrame_run. reflexivity.
Qed.

(** *** What [decodeFrame] leaves *)

Lemma decrypt_throw (ciphertext : bytes) (st st2 : NoiseState) (e : Error) ev :
  decrypt ciphertext st = (Throw e, st2, ev) ->
  e = CryptoError /\ st2 = st /\ ev = []
  /\ gcm_decrypt (decKey st) (generateIV (decryptCounter st)) (hash st)
       (cipherBody ciphertext) (cipherTag ciphertext) = None.
Proof.
  rewrite decrypt_run. destruct (gcm_decrypt _ _ _ _ _); [discriminate|].
  intros [= <- <- <-]. auto.
Qed.

Lemma decrypt_finished (ciphertext : bytes) (st st2 : NoiseState) plain ev :
  isFinished st = true ->
  decrypt ciphertext st = (Ok plain, st2, ev) ->
  st2 = set_readCounter (readCounter st + 1) st
  /\ ev = [EvCipher Unseal true (decKey st) (readCounter st)]
  /\ gcm_decrypt (decKey st) (generateIV (readCounter st)) (hash st)
       (cipherBody ciphertext) (cipherTag ciphertext) = Some plain.
Proof.
  intros Hf. rewrite decrypt_run. unfold decryptCounter. rewrite Hf.
  destruct (gcm_decrypt _ _ _ _ _); [|discriminate].
  intros [= <- <- <-]. auto.
Qed.

Lemma decodeFrame_stalled (newData : bytes) (st : NoiseState) :
  resultOf (decodeFrame newData st) = Ok tt -> stalled (stateOf (decodeFrame newData st)).
Proof.
  rewrite decodeFrame_run.
  apply (frameLoop_induction (fun st o => resultOf o = Ok tt -> stalled (stateOf o)))
    with (st := set_inBytes (inBytes st ++ newData) st);
    [auto | auto | intros; discriminate | intros; discriminate | auto | reflexivity].
Qed.

Lemma framerOnly_refl st : framerOnly st st.
Proof. unfold framerOnly. repeat split; lia. Qed.

Lemma framerOnly_trans st1 st2 st3 :
  framerOnly st1 st2 -> framerOnly st2 st3 -> framerOnly st1 st3.
Proof. unfold framerOnly. intuition (try congruence); lia. Qed.

Lemma frameLoop_outcomes fuel st :
  (length (inBytes st) <= fuel)%nat ->
  let o := frameLoop fuel (peekSize (inBytes st)) st in
  (resultOf o = Ok tt \/ resultOf o = Throw CryptoError \/ resultOf o = Throw DecodeError)
  /\ (isFinished st = false -> resultOf o = Ok tt)
  /\ framerOnly st (stateOf o)
  /\ (isFinished st = false -> readCounter (stateOf o) = readCounter st).
Proof.
  apply (frameLoop_induction
           (fun st o =>
              (resultOf o = Ok tt \/ resultOf o = Throw CryptoError
               \/ resultOf o = Throw DecodeError)
              /\ (isFinished st = false -> resultOf o = Ok tt)
              /\ framerOnly st (stateOf o)
              /\ (isFinished st = false -> readCounter (stateOf o) = readCounter st))).
  - intros st0 _. cbn. auto using framerOnly_refl.
  - intros st0 n o _ _ _ Hf (H1 & H2 & H3 & H4). cbn [resultOf stateOf fst snd].
    split; [exact H1|]. split; [exact H2|]. split; [exact H3|]. exact H4.
  - intros st0 n e st2 ev _ _ _ Hf Hd. apply decrypt_throw in Hd as (-> & -> & _).
    cbn [resultOf stateOf fst snd]. split; [auto|]. split; [congruence|].
    split; [|reflexivity]. unfold framerOnly. cbn. repeat split; lia.
  - intros st0 n plain st2 ev _ _ _ Hf Hd Hn.
    apply decrypt_finished in Hd as (-> & _); [|exact Hf].
    cbn [resultOf stateOf fst snd]. split; [auto|]. split; [congruence|].
    split; [|congruence]. unfold framerOnly. cbn. repeat split; lia.
  - intros st0 n plain st2 ev node o _ _ _ Hf Hd Hn (H1 & H2 & H3 & H4).
    apply decrypt_finished in Hd as (-> & _); [|exact Hf].
    cbn [resultOf stateOf fst snd]. split; [exact H1|]. split; [congruence|].
    split; [|congruence].
    eapply framerOnly_trans; [|exact H3]. unfold framerOnly. cbn. repeat split; lia.
Qed.

(** The three bytes a size was read from. *)
Lemma peekSize_bytes (buf : bytes) (n : Z) :
  peekSize buf = Some n -> take 3 buf = be24 n.
Proof.
  destruct buf as [|b0 [|b1 [|b2 rest]]]; try discriminate. cbn [peekSize take].
  intros [= <-]. rewrite js_size by apply byteVal_range.
  pose proof (byteVal_range b0). pose proof (byteVal_range b1).
  pose proof (byteVal_range b2).
  unfold be24. rewrite !Z.shiftr_div_pow2 by lia.
  change (2 ^ 16) with 65536. change (2 ^ 8) with 256.
  rewrite <- (u8_byteVal b0) at 1. rewrite <- (u8_byteVal b1) at 1.
  rewrite <- (u8_byteVal b2) at 1.
  f_equal; [|f_equal; [|f_equal]]; apply u8_mod;
    Z.to_euclidean_division_equations; lia.
Qed.

(** The frame the loop takes and what it leaves make up the buffer. *)
Lemma buffer_split (buf : bytes) (n : Z) :
  peekSize buf = Some n -> n + 3 <= byteLength buf ->
  let body := slice buf 3 (Some (n + 3)) in
  byteLength body = n /\ frameOf body ++ slice buf (n + 3) None = buf.
Proof.
  intros Hsize Hge body. pose proof (peekSize_range _ _ Hsize) as Hn.
  assert (Hb : byteLength body = n).
  { subst body. unfold byteLength in *. rewrite slice_mid by lia.
    rewrite length_take, length_drop. lia. }
  split; [exact Hb|]. unfold frameOf. rewrite Hb. subst body.
  rewrite <- (peekSize_bytes _ _ Hsize), slice_mid, slice_drop by lia.
  replace (Z.to_nat (n + 3)) with (3 + Z.to_nat (n + 3 - 3))%nat by lia.
  change (Z.to_nat 3) with 3%nat.
  rewrite <- drop_drop, <- app_assoc, take_drop, take_drop. reflexivity.
Qed.

Lemma frameLoop_raw_stream fuel st :
  (length (inBytes st) <= fuel)%nat -> isFinished st = false ->
  exists bodies rest,
    frameLoop fuel (peekSize (inBytes st)) st
      = (Ok tt, set_inBytes rest st, rawEvents bodies)
    /\ concat (map frameOf bodies) ++ rest = inBytes st
    /\ Forall (fun body => 0 < byteLength body < 2 ^ 24) bodies
    /\ stalled (set_inBytes rest st).
Proof.
  apply (frameLoop_induction
           (fun st o =>
              isFinished st = false ->
              exists bodies rest,
                o = (Ok tt, set_inBytes rest st, rawEvents bodies)
                /\ concat (map frameOf bodies) ++ rest = inBytes st
                /\ Forall (fun body => 0 < byteLength body < 2 ^ 24) bodies
                /\ stalled (set_inBytes rest st))).
  - intros st0 Hst _. exists [], (inBytes st0). rewrite set_inBytes_same. auto.
  - intros st0 n o Hsize Hn Hge _ IH Hf.
    destruct (IH Hf) as (bodies & rest & -> & Hcat & Hall & Hst).
    destruct (buffer_split _ _ Hsize Hge) as [Hb Hbuf].
    exists (slice (inBytes st0) 3 (Some (n + 3)) :: bodies), rest.
    split; [reflexivity|]. split; [|split; [|exact Hst]].
    + cbn [map concat]. cbn [inBytes set_inBytes] in Hcat.
      rewrite <- app_assoc, Hcat. exact Hbuf.
    + constructor; [lia | exact Hall].
  - intros; congruence.
  - intros; congruence.
  - intros; congruence.
Qed.

(** *** Chunks *)

Lemma feedAll_concat (chunks : list bytes) (st : NoiseState) :
  stalled st ->
  resultOf (feedAll chunks st) = resultOf (decodeFrame (concat chunks) st)
  /\ eventsOf (feedAll chunks st) = eventsOf (decodeFrame (concat chunks) st)
  /\ set_inBytes [] (stateOf (feedAll chunks st))
     = set_inBytes [] (stateOf (decodeFrame (concat chunks) st))
  /\ (resultOf (decodeFrame (concat chunks) st) = Ok tt ->
      stateOf (feedAll chunks st) = stateOf (decodeFrame (concat chunks) st)).
Proof.
  revert st. induction chunks as [|c chunks IH]; intros st Hst.
  - cbn [feedAll concat]. rewrite decodeFrame_run, app_nil_r, set_inBytes_same.
    rewrite frameLoop_idle by exact Hst. cbn. auto.
  - cbn [feedAll concat]. rewrite decodeFrame_app, bind_run.
    pose proof (decodeFrame_stalled c st) as Hst1.
    destruct (decodeFrame c st) as [[[[]|e] st1] ev1]; cbn [resultOf stateOf eventsOf fst snd] in *.
    + destruct (IH st1 (Hst1 eq_refl)) as (H1 & H2 & H3 & H4).
      rewrite H1, H2. auto.
    + split; [reflexivity|]. split; [reflexivity|]. split; [reflexivity|]. discriminate.
Qed.

(** *** Frames that fail *)

Lemma decodeFrame_head (newData body rest : bytes) (st : NoiseState) :
  inBytes st ++ newData = frameOf body ++ rest -> 0 < byteLength body < 2 ^ 24 ->
  decodeFrame newData st =
  let st1 := set_inBytes rest st in
  if isFinished st then
    match decrypt body st1 with
    | (Throw e, st2, ev) => (Throw e, st2, ev)
    | (Ok plain, st2, ev) =>
        match decodeBinaryNode plain with
        | None => (Throw DecodeError, st2, ev)
        | Some node =>
            (resultOf (decodeFrame [] st2), stateOf (decodeFrame [] st2),
             ev ++ EvFrame (NodeFrame node) :: eventsOf (decodeFrame [] st2))
        end
    end
  else
    (resultOf (decodeFrame [] st1), stateOf (decodeFrame [] st1),
     EvFrame (RawFrame body) :: eventsOf (decodeFrame [] st1)).
Proof.
  intros Hbuf Hn. rewrite decodeFrame_run, Hbuf. unfold frameOf. rewrite <- app_assoc.
  rewrite peekSize_be24 by lia.
  set (n := byteLength body).
  assert (Hlen : length (be24 n ++ body ++ rest) = S (length (body ++ rest) + 2)).
  { cbn [be24 app length]. lia. }
  rewrite Hlen.
  rewrite frameLoop_step
    by (eapply (frameReady_frame n body rest); [reflexivity | lia | reflexivity]).
  cbv zeta. cbn [inBytes set_inBytes isFinished].
  destruct (slice_frame n body rest eq_refl) as [-> ->].
  change (set_inBytes rest (set_inBytes (be24 n ++ body ++ rest) st))
    with (set_inBytes rest st).
  assert (Hgo : forall st2, inBytes st2 = rest ->
            frameLoop (length (body ++ rest) + 2) (peekSize rest) st2
            = decodeFrame [] st2).
  { intros st2 Hin. rewrite decodeFrame_run, app_nil_r, set_inBytes_same, <- Hin.
    apply frameLoop_fuel; rewrite Hin, ?length_app; lia. }
  destruct (isFinished st).
  - destruct (decrypt body (set_inBytes rest st)) as [[[plain|e] st2] ev] eqn:Ed;
      [|reflexivity].
    destruct (decodeBinaryNode plain); [|reflexivity].
    assert (Hin : inBytes st2 = rest).
    { pose proof (decrypt_state _ _ plain (f_equal resultOf Ed)) as Hs.
      rewrite Ed in Hs. apply Hs. }
    rewrite Hin, Hgo by exact Hin. reflexivity.
  - rewrite Hgo by reflexivity. reflexivity.
Qed.

Lemma framesOf_app (l1 l2 : list Event) : framesOf (l1 ++ l2) = framesOf l1 ++ framesOf l2.
Proof. unfold framesOf. apply omap_app. Qed.

(** Once the handshake is finished, every node given to [onFrame] has cost
    one counter value, and so has a frame that would not decode. *)
Lemma frameLoop_counts fuel st :
  (length (inBytes st) <= fuel)%nat -> isFinished st = true ->
  let o := frameLoop fuel (peekSize (inBytes st)) st in
  readCounter (stateOf o)
  = readCounter st + Z.of_nat (length (framesOf (eventsOf o)))
    + (match resultOf o with Throw DecodeError => 1 | _ => 0 end).
Proof.
  apply (frameLoop_induction
           (fun st o =>
              isFinished st = true ->
              readCounter (stateOf o)
              = readCounter st + Z.of_nat (length (framesOf (eventsOf o)))
                + (match resultOf o with Throw DecodeError => 1 | _ => 0 end))).
  - intros st0 _ _. cbn. unfold framesOf. cbn. lia.
  - intros; congruence.
  - intros st0 n e st2 ev _ _ _ Hf Hd _. apply decrypt_throw in Hd as (-> & -> & -> & _).
    cbn. unfold framesOf. cbn. lia.
  - intros st0 n plain st2 ev _ _ _ Hf Hd Hn _.
    apply decrypt_finished in Hd as (-> & -> & _); [|exact Hf]. cbn. unfold framesOf. cbn. lia.
  - intros st0 n plain st2 ev node o _ _ _ Hf Hd Hn IH _.
    apply decrypt_finished in Hd as (-> & -> & _); [|exact Hf].
    cbn [resultOf stateOf eventsOf fst snd] in *. rewrite IH by exact Hf.
    rewrite framesOf_app, length_app. unfold framesOf at 1 2. cbn. lia.
Qed.

Lemma decodeFrame_framerOnly (newData : bytes) (st : NoiseState) :
  framerOnly st (stateOf (decodeFrame newData st)).
Proof.
  rewrite decodeFrame_run.
  destruct (frameLoop_outcomes (length (inBytes st ++ newData))
              (set_inBytes (inBytes st ++ newData) st) (Nat.le_refl _))
    as (_ & _ & H3 & _).
  eapply framerOnly_trans; [|exact H3]. unfold framerOnly. cbn. repeat split; lia.
Qed.

(** X10. Before the handshake is finished, [decodeFrame] never throws and
    loses no byte, whatever it is given: it calls [onFrame] with the bodies of
    a sequence of frames, each of 1 to 2^24 - 1 bytes, and keeps a rest in
    its buffer; these frames followed by the rest are exactly the old buffer
    followed by the new data; the rest holds no complete frame; the state is
    otherwise unchanged.  ([onFrame] is taken not to call the handler.) *)
Theorem decodeFrame_raw_stream (newData : bytes) (st : NoiseState) :
  isFinished st = false ->
  exists bodies rest,
    decodeFrame newData st = (Ok tt, set_inBytes rest st, rawEvents bodies)
    /\ concat (map frameOf bodies) ++ rest = inBytes st ++ newData
    /\ Forall (fun body => 0 < byteLength body < 2 ^ 24) bodies
    /\ stalled (set_inBytes rest st).
Proof.
  intros Hf. rewrite decodeFrame_run.
  destruct (frameLoop_raw_stream (length (inBytes st ++ newData))
              (set_inBytes (inBytes st ++ newData) st) (Nat.le_refl _) Hf)
    as (bodies & rest & Hrun & Hcat & Hall & Hst).
  exists bodies, rest. auto.
Qed.

(** X11. [decodeFrame] returns, or throws the decipher's error or the node
    decoder's error, nothing else; before the handshake is finished it always
    returns and leaves [readCounter] alone.  Of the state it changes the
    buffer and [readCounter] only, and [readCounter] never goes down.  When
    it returns, the buffer holds no complete frame.  Once the handshake is
    finished, [readCounter] has advanced by the number of calls of [onFrame],
    and by one more when the node decoder threw. *)
Theorem decodeFrame_outcomes (newData : bytes) (st : NoiseState) :
  let o := decodeFrame newData st in
  (resultOf o = Ok tt \/ resultOf o = Throw CryptoError \/ resultOf o = Throw DecodeError)
  /\ (isFinished st = false ->
      resultOf o = Ok tt /\ readCounter (stateOf o) = readCounter st)
  /\ framerOnly st (stateOf o)
  /\ (resultOf o = Ok tt -> stalled (stateOf o))
  /\ (isFinished st = true ->
      readCounter (stateOf o)
      = readCounter st + Z.of_nat (length (framesOf (eventsOf o)))
        + (match resultOf o with Throw DecodeError => 1 | _ => 0 end)).
Proof.
  intros o. subst o.
  pose proof (decodeFrame_stalled newData st) as Hst.
  rewrite decodeFrame_run in *.
  destruct (frameLoop_outcomes (length (inBytes st ++ newData))
              (set_inBytes (inBytes st ++ newData) st) (Nat.le_refl _))
    as (H1 & H2 & H3 & H4).
  split; [exact H1|]. split; [auto|]. split; [|split; [exact Hst|]].
  - rewrite <- decodeFrame_run. apply decodeFrame_framerOnly.
  - intros Hf.
    apply (frameLoop_counts _ (set_inBytes (inBytes st ++ newData) st) (Nat.le_refl _) Hf).
Qed.

(** X12. How a stream is cut into chunks does not matter.  On a handler
    whose buffer holds no complete frame, giving the chunks to [decodeFrame]
    one after the other (stopping at the first call that throws) has the
    result and the calls of [onFrame] and of the decipher that one
    [decodeFrame] of the whole stream has, and it leaves the same state up to
    the buffer, and the same buffer too when the calls return. *)
Theorem chunking_independent (chunks : list bytes) (st : NoiseState) :
  stalled st ->
  let fed := feedAll chunks st in
  let whole := decodeFrame (concat chunks) st in
  resultOf fed = resultOf whole
  /\ eventsOf fed = eventsOf whole
  /\ set_inBytes [] (stateOf fed) = set_inBytes [] (stateOf whole)
  /\ (resultOf whole = Ok tt -> stateOf fed = stateOf whole).
Proof. intros Hst fed whole. apply feedAll_concat, Hst. Qed.

(** X13. A frame that fails is dropped.  On a finished handler whose buffer
    and new data start with a complete frame: when the decipher refuses the
    body, [decodeFrame] throws its error, the frame is gone from the buffer,
    what followed it stays there unread, no counter has moved and [onFrame]
    was not called; when the decipher accepts the body and the node decoder
    throws, the same, with [readCounter] one higher. *)
Theorem decodeFrame_failed_frame (newData body rest : bytes) (st : NoiseState) :
  isFinished st = true ->
  inBytes st ++ newData = frameOf body ++ rest ->
  0 < byteLength body < 2 ^ 24 ->
  let opened := gcm_decrypt (decKey st) (generateIV (readCounter st)) (hash st)
                  (cipherBody body) (cipherTag body) in
  (opened = None ->
     decodeFrame newData st = (Throw CryptoError, set_inBytes rest st, []))
  /\ (forall plain,
        opened = Some plain -> decodeBinaryNode plain = None ->
        decodeFrame newData st
        = (Throw DecodeError, set_inBytes rest (set_readCounter (readCounter st + 1) st),
           [EvCipher Unseal true (decKey st) (readCounter st)])).
Proof.
  intros Hf Hbuf Hn opened. rewrite (decodeFrame_head newData body rest st Hbuf Hn).
  cbv zeta. rewrite Hf, decrypt_run. unfold decryptCounter.
  cbn [isFinished decKey hash readCounter set_inBytes]. rewrite Hf. fold opened.
  split.
  - intros ->. reflexivity.
  - intros plain -> ->. reflexivity.
Qed.

(** X14. The frame of the empty payload blocks the receiver.  Before the
    handshake is finished and after the preamble, [encodeFrame] of the empty
    payload returns three zero bytes.  A handler whose buffer starts with
    three zero bytes never calls [onFrame] again: whatever chunks follow,
    [decodeFrame] appends them to the buffer and returns. *)
Theorem zero_length_frame_stalls :
  (forall st, isFinished st = false -> sentIntro st = true ->
     resultOf (encodeFrame [] st) = Ok [Byte.x00; Byte.x00; Byte.x00])
  /\ (forall st tail chunks,
        inBytes st = Byte.x00 :: Byte.x00 :: Byte.x00 :: tail ->
        feedAll chunks st = (Ok tt, set_inBytes (inBytes st ++ concat chunks) st, [])).
Proof.
  split.
  - intros st Hf Hs. rewrite encodeFrame_small
      by (rewrite wireOf_raw by exact Hf; unfold byteLength; cbn [length]; lia).
    unfold introOf. rewrite Hs, wireOf_raw by exact Hf. reflexivity.
  - intros st tail chunks. revert st tail.
    induction chunks as [|c chunks IH]; intros st tail Hin.
    + cbn [feedAll concat]. rewrite app_nil_r, set_inBytes_same. reflexivity.
    + cbn [feedAll concat]. eapply run_events.
      * eapply bind_ok; [ | | reflexivity].
        -- rewrite decodeFrame_run, Hin. apply frameLoop_idle. reflexivity.
        -- rewrite (IH _ (tail ++ c)) by reflexivity.
           cbn [inBytes set_inBytes]. rewrite <- Hin, <- app_assoc. reflexivity.
      * reflexivity.
Qed.

(** *** Streams of frames *)

Lemma forEach_cons {A B} (f : A -> M B) (x : A) (l : list A) (st : NoiseState) :
  forEach f (x :: l) st =
  match f x st with
  | (Ok y, st1, ev1) =>
      match forEach f l st1 with
      | (Ok ys, st2, ev2) => (Ok (y :: ys), st2, ev1 ++ ev2)
      | (Throw e, st2, ev2) => (Throw e, st2, ev1 ++ ev2)
      end
  | (Throw e, st1, ev1) => (Throw e, st1, ev1)
  end.
Proof.
  cbn [forEach]. unfold mbind, M_bind, bindM, mret, M_ret, retM.
  destruct (f x st) as [[[y|e] st1] ev1]; [|reflexivity].
  destruct (forEach f l st1) as [[[ys|e] st2] ev2]; [rewrite app_nil_r|]; reflexivity.
Qed.

Lemma stalled_empty (st : NoiseState) : inBytes st = [] -> stalled st.
Proof. unfold stalled. intros ->. reflexivity. Qed.

Lemma set_inBytes_empty (st : NoiseState) : inBytes st = [] -> set_inBytes [] st = st.
Proof. intros <-. apply set_inBytes_same. Qed.

Lemma decodeFrame_empty (st : NoiseState) :
  inBytes st = [] -> decodeFrame [] st = (Ok tt, st, []).
Proof.
  intros Hin. rewrite decodeFrame_run, app_nil_r, set_inBytes_same, Hin.
  apply frameLoop_idle. reflexivity.
Qed.

Lemma feedAll_whole (chunks : list bytes) (st st' : NoiseState) ev :
  stalled st -> decodeFrame (concat chunks) st = (Ok tt, st', ev) ->
  feedAll chunks st = (Ok tt, st', ev).
Proof.
  intros Hst Hrun. destruct (feedAll_concat chunks st Hst) as (H1 & H2 & _ & H4).
  rewrite Hrun in *. rewrite (run_eta (feedAll chunks) st), H1, H2, H4 by reflexivity.
  reflexivity.
Qed.

Lemma encodeFrame_raw_run (data : bytes) (st : NoiseState) :
  isFinished st = false -> sentIntro st = true -> byteLength data < 2 ^ 24 ->
  encodeFrame data st = (Ok (frameOf data), st, []).
Proof.
  intros Hf Hs Hn. rewrite encodeFrame_run. unfold introOf.
  rewrite (wireOf_raw data st Hf), Hf, Hs.
  destruct (prefix_be24 (byteLength data)) as [-> ->];
    [unfold byteLength in *; lia | reflexivity].
Qed.

Lemma forEach_encodeFrame_raw (ps : list bytes) (st : NoiseState) :
  isFinished st = false -> sentIntro st = true ->
  Forall (fun p => 0 < byteLength p < 2 ^ 24) ps ->
  forEach encodeFrame ps st = (Ok (map frameOf ps), st, []).
Proof.
  intros Hf Hs Hall. induction Hall as [|p ps Hp Hall IH]; [reflexivity|].
  rewrite forEach_cons, encodeFrame_raw_run, IH by (auto; lia). reflexivity.
Qed.

Lemma decodeFrame_frames_raw (ps : list bytes) (peer : NoiseState) :
  isFinished peer = false -> inBytes peer = [] ->
  Forall (fun p => 0 < byteLength p < 2 ^ 24) ps ->
  decodeFrame (concat (map frameOf ps)) peer = (Ok tt, peer, rawEvents ps).
Proof.
  intros Hf Hin Hall. induction Hall as [|p ps Hp Hall IH].
  - apply decodeFrame_empty, Hin.
  - cbn [map concat]. rewrite decodeFrame_app.
    rewrite (decodeFrame_head (frameOf p) p [] peer)
      by (rewrite ?Hin, ?app_nil_r; auto).
    cbv zeta. rewrite Hf, (set_inBytes_empty peer Hin), decodeFrame_empty by exact Hin.
    cbn [resultOf stateOf eventsOf fst snd]. rewrite IH. reflexivity.
Qed.

Lemma encodeFrame_sealed_run (data : bytes) (st : NoiseState) :
  cipherOpens -> isFinished st = true -> sentIntro st = true ->
  byteLength data + 16 < 2 ^ 24 ->
  encodeFrame data st
  = (Ok (frameOf (wireOf data st)), set_writeCounter (writeCounter st + 1) st,
     [EvCipher Seal true (encKey st) (writeCounter st)])
  /\ 0 < byteLength (wireOf data st) < 2 ^ 24.
Proof.
  intros Hopen Hf Hs Hn.
  assert (Hw : byteLength (wireOf data st) = byteLength data + 16).
  { unfold wireOf. rewrite Hf, byteLength_app. unfold byteLength.
    destruct (Hopen (encKey st) (generateIV (writeCounter st)) (hash st) data)
      as (_ & -> & ->). reflexivity. }
  split; [|unfold byteLength in *; lia].
  rewrite encodeFrame_run. cbv zeta. unfold introOf. rewrite Hs, Hf.
  rewrite encrypt_run. cbn [stateOf fst snd]. rewrite Hf.
  destruct (prefix_be24 (byteLength (wireOf data st))) as [-> ->];
    [unfold byteLength in *; lia | reflexivity].
Qed.

Lemma decodeFrame_one_sealed (st peer : NoiseState) (data : bytes) (node : BinaryNode) :
  cipherOpens -> isFinished st = true -> isFinished peer = true -> inBytes peer = [] ->
  decKey peer = encKey st -> readCounter peer = writeCounter st -> hash peer = hash st ->
  byteLength data + 16 < 2 ^ 24 -> decodeBinaryNode data = Some node ->
  decodeFrame (frameOf (wireOf data st)) peer
  = (Ok tt, set_readCounter (readCounter peer + 1) peer,
     [EvCipher Unseal true (decKey peer) (readCounter peer); EvFrame (NodeFrame node)]).
Proof.
  intros Hopen Hf Hpf Hin Hk Hc Hh Hn Hnode.
  destruct (Hopen (encKey st) (generateIV (writeCounter st)) (hash st) data)
    as (Hdec & Hlen & Htag).
  assert (Hw : wireOf data st
               = (gcm_encrypt (encKey st) (generateIV (writeCounter st)) (hash st) data).1
                 ++ (gcm_encrypt (encKey st) (generateIV (writeCounter st)) (hash st) data).2).
  { unfold wireOf. rewrite Hf. reflexivity. }
  assert (Hsize : 0 < byteLength (wireOf data st) < 2 ^ 24).
  { rewrite Hw, byteLength_app. unfold byteLength in *. rewrite Hlen, Htag. lia. }
  rewrite (decodeFrame_head (frameOf (wireOf data st)) (wireOf data st) [] peer)
    by (rewrite ?Hin, ?app_nil_r; auto).
  cbv zeta. rewrite Hpf, (set_inBytes_empty peer Hin), Hw.
  rewrite (decrypt_sealed st peer data Hpf Hk Hc Hh Htag Hdec), Hnode.
  rewrite decodeFrame_empty by exact Hin. reflexivity.
Qed.

Lemma sealed_stream (ps : list bytes) :
  cipherOpens ->
  forall (nodes : list BinaryNode) (st peer : NoiseState) (frames : list bytes),
    isFinished st = true -> sentIntro st = true ->
    isFinished peer = true -> inBytes peer = [] ->
    decKey peer = encKey st -> readCounter peer = writeCounter st -> hash peer = hash st ->
    Forall (fun p => byteLength p + 16 < 2 ^ 24) ps ->
    Forall2 (fun p node => decodeBinaryNode p = Some node) ps nodes ->
    resultOf (forEach encodeFrame ps st) = Ok frames ->
    decodeFrame (concat frames) peer
    = (Ok tt, set_readCounter (readCounter peer + Z.of_nat (length ps)) peer,
       sealedEvents (decKey peer) (readCounter peer) nodes)
    /\ stateOf (forEach encodeFrame ps st)
       = set_writeCounter (writeCounter st + Z.of_nat (length ps)) st.
Proof.
  intros Hopen. induction ps as [|p ps IH];
    intros nodes st peer frames Hf Hs Hpf Hin Hk Hc Hh Hall Hnodes Henc.
  - apply Forall2_nil_inv_l in Hnodes as ->. injection Henc as <-.
    cbn [concat length sealedEvents]. rewrite decodeFrame_empty by exact Hin.
    rewrite !Z.add_0_r. split; [destruct peer | destruct st]; reflexivity.
  - apply Forall2_cons_inv_l in Hnodes as (node & nodes' & Hnode & Hnodes & ->).
    apply Forall_cons in Hall as [Hp Hall].
    rewrite forEach_cons in Henc.
    destruct (encodeFrame_sealed_run p st Hopen Hf Hs Hp) as [Hrun Hsize].
    rewrite Hrun in Henc.
    destruct (forEach encodeFrame ps (set_writeCounter (writeCounter st + 1) st))
      as [[[ys|e] st2] ev2] eqn:Erest; [|discriminate].
    injection Henc as <-. rewrite forEach_cons, Hrun, Erest.
    cbn [concat stateOf fst snd]. rewrite decodeFrame_app.
    replace (Z.of_nat (length (p :: ps))) with (1 + Z.of_nat (length ps))
      by (cbn [length]; lia).
    rewrite !Z.add_assoc.
    rewrite (decodeFrame_one_sealed st peer p node) by assumption.
    destruct (IH nodes' (set_writeCounter (writeCounter st + 1) st)
                (set_readCounter (readCounter peer + 1) peer) ys) as [Hdec Hend];
      try assumption; [cbn; lia | rewrite Erest; reflexivity |].
    rewrite Hdec. rewrite Erest in Hend. cbn [stateOf fst snd] in Hend. rewrite Hend.
    split; reflexivity.
Qed.

(** X15. Any number of frames, cut in any way.  Before the handshake is
    finished and after the preamble: the frames [encodeFrame] returns for a
    list of payloads of 1 to 2^24 - 1 bytes, concatenated, cut into chunks
    in any way and given in order to [decodeFrame] of a receiver with an
    empty buffer, make the receiver call [onFrame] once for each payload, in
    order, with that payload; the receiver's buffer is empty again. *)
Theorem frames_round_trip (ps : list bytes) (st peer : NoiseState)
    (frames chunks : list bytes) :
  isFinished st = false -> sentIntro st = true ->
  isFinished peer = false -> inBytes peer = [] ->
  Forall (fun p => 0 < byteLength p < 2 ^ 24) ps ->
  resultOf (forEach encodeFrame ps st) = Ok frames ->
  concat chunks = concat frames ->
  feedAll chunks peer = (Ok tt, peer, rawEvents ps).
Proof.
  intros Hf Hs Hpf Hin Hall Henc Hcat.
  rewrite forEach_encodeFrame_raw in Henc by assumption. injection Henc as <-.
  apply feedAll_whole; [apply stalled_empty, Hin|].
  rewrite Hcat. apply decodeFrame_frames_raw; assumption.
Qed.

(** X16. The same once the handshake is finished, with a cipher that opens
    what it sealed and a receiver in step with the sender: the receiver
    deciphers each frame with the next counter and calls [onFrame] with the
    node decoded from each payload, in order.  The sender's [writeCounter]
    and the receiver's [readCounter] have both advanced by the number of
    frames, so the two ends are in step for the next frames. *)
Theorem sealed_frames_round_trip (ps : list bytes) (nodes : list BinaryNode)
    (st peer : NoiseState) (frames chunks : list bytes) :
  cipherOpens ->
  isFinished st = true -> sentIntro st = true ->
  isFinished peer = true -> inBytes peer = [] ->
  decKey peer = encKey st -> readCounter peer = writeCounter st -> hash peer = hash st ->
  Forall (fun p => byteLength p + 16 < 2 ^ 24) ps ->
  Forall2 (fun p node => decodeBinaryNode p = Some node) ps nodes ->
  resultOf (forEach encodeFrame ps st) = Ok frames ->
  concat chunks = concat frames ->
  feedAll chunks peer
  = (Ok tt, set_readCounter (readCounter peer + Z.of_nat (length ps)) peer,
     sealedEvents (decKey peer) (readCounter peer) nodes)
  /\ stateOf (forEach encodeFrame ps st)
     = set_writeCounter (writeCounter st + Z.of_nat (length ps)) st.
Proof.
  intros Hopen Hf Hs Hpf Hin Hk Hc Hh Hall Hnodes Henc Hcat.
  destruct (sealed_stream ps Hopen nodes st peer frames) as [Hrun Hst]; try assumption.
  split; [|exact Hst].
  apply feedAll_whole; [apply stalled_empty, Hin|]. rewrite Hcat. exact Hrun.
Qed.

(** ** More on the handshake, the keys and the preamble *)

(** ** The handshake hash *)

Lemma runTrace_authenticate (self : KeyPair) (data : list bytes) (st : NoiseState) :
  isFinished st = false ->
  runTrace self (map CallAuthenticate data) st = (set_hash (absorb (hash st) data) st, []).
Proof.
  revert st. induction data as [|piece data IH]; intros st Hf.
  - cbn. destruct st; reflexivity.
  - cbn [map runTrace runCall void]. rewrite authenticate_run.
    cbn [stateOf eventsOf fst snd]. rewrite Hf, IH by exact Hf. reflexivity.
Qed.

(** X1. A fresh handler holds the hash of the protocol name ([NOISE_MODE]
    itself when it has 32 bytes, its SHA-256 otherwise) as salt and as both
    keys, counters at 0 and an empty buffer; its hash has absorbed the
    preamble and then the public key.  Every piece of data given to
    [authenticate] after that is absorbed in the same way, in order: the hash
    becomes the SHA-256 of the old hash followed by the piece, and nothing
    else changes. *)
Theorem transcript_hash (self : KeyPair) (data : list bytes) :
  runTrace self (map CallAuthenticate data) (makeNoiseHandler self)
  = ({| hash := absorb modeHash (NOISE_WA_HEADER :: public self :: data);
        salt := modeHash; encKey := modeHash; decKey := modeHash;
        readCounter := 0; writeCounter := 0;
        isFinished := false; sentIntro := false; inBytes := [] |}, []).
Proof.
  rewrite runTrace_authenticate by reflexivity. reflexivity.
Qed.

(** ** [encrypt] and [decrypt] at the two ends *)

Lemma seal_open (st peer : NoiseState) (text : bytes) :
  cipherOpens -> inStep st peer ->
  exists sealed,
    resultOf (encrypt text st) = Ok sealed
    /\ resultOf (decrypt sealed peer) = Ok text
    /\ inStep (stateOf (encrypt text st)) (stateOf (decrypt sealed peer)).
Proof.
  intros Hopen (Hf & Hk & Hh & Hc).
  destruct (Hopen (encKey st) (generateIV (writeCounter st)) (hash st) text)
    as (Hdec & _ & Htag).
  set (ct := gcm_encrypt (encKey st) (generateIV (writeCounter st)) (hash st) text) in *.
  exists (ct.1 ++ ct.2). rewrite encrypt_run, decrypt_run. fold ct.
  destruct (cipher_split_app ct.1 ct.2 Htag) as [-> ->].
  rewrite Hk, Hh, Hc, Hdec. cbn [resultOf stateOf fst snd].
  split; [reflexivity|]. split; [reflexivity|].
  unfold inStep, decryptCounter in *. rewrite Hf in *.
  destruct (isFinished st) eqn:Es; cbn; rewrite ?Hf, ?Es; cbn; repeat split; congruence.
Qed.

(** X2. With a cipher that opens what it sealed: when a receiver is in
    step with a sender (same phase, its [decKey] the sender's [encKey], the
    same hash, its decipher counter the sender's [writeCounter]), what the
    sender's [encrypt] returns for a list of texts, one after the other, the
    receiver's [decrypt] turns back into the texts, in order, and the two
    ends are in step again.  This holds before the handshake is finished,
    where both ends mix each ciphertext into the hash, and after. *)
Theorem seal_open_round_trip (texts : list bytes) (st peer : NoiseState) :
  cipherOpens -> inStep st peer ->
  exists sealed,
    resultOf (forEach encrypt texts st) = Ok sealed
    /\ resultOf (forEach decrypt sealed peer) = Ok texts
    /\ length sealed = length texts
    /\ inStep (stateOf (forEach encrypt texts st)) (stateOf (forEach decrypt sealed peer)).
Proof.
  intros Hopen. revert st peer. induction texts as [|text texts IH]; intros st peer Hstep.
  - exists []. cbn. auto.
  - destruct (seal_open st peer text Hopen Hstep) as (c & Henc & Hdec & Hstep1).
    destruct (IH _ _ Hstep1) as (cs & Hencs & Hdecs & Hlen & Hstep2).
    exists (c :: cs). rewrite !forEach_cons.
    destruct (encrypt text st) as [[[c'|e] st1] ev1]; [|discriminate].
    cbn [resultOf stateOf fst snd] in *. injection Henc as ->.
    destruct (decrypt c peer) as [[[t'|e] peer1] ev1']; [|discriminate].
    cbn [resultOf stateOf fst snd] in *. injection Hdec as ->.
    destruct (forEach encrypt texts st1) as [[[cs'|e] st2] ev2]; [|discriminate].
    cbn [resultOf stateOf fst snd] in *. injection Hencs as ->.
    destruct (forEach decrypt cs peer1) as [[[ts'|e] peer2] ev2']; [|discriminate].
    cbn [resultOf stateOf fst snd] in *. injection Hdecs as ->.
    cbn [length]. auto.
Qed.

(** ** [mixIntoKey] *)

(** X3. [mixIntoKey] never throws.  When HKDF returns the 64 bytes it is
    asked for (input: the data; salt: the current salt; empty info), their
    first 32 bytes become the salt and their last 32 bytes become both
    [encKey] and [decKey]; both counters are 0; the hash, [isFinished],
    [sentIntro] and the buffer are as before, also on a finished handler. *)
Theorem mixIntoKey_spec (data : bytes) (st : NoiseState) :
  let key := hkdf data 64 (salt st) EmptyString in
  let st' := stateOf (mixIntoKey data st) in
  length key = 64%nat ->
  resultOf (mixIntoKey data st) = Ok tt
  /\ salt st' = take 32 key /\ encKey st' = drop 32 key /\ decKey st' = drop 32 key
  /\ length (salt st') = 32%nat /\ length (encKey st') = 32%nat
  /\ salt st' ++ encKey st' = key
  /\ readCounter st' = 0 /\ writeCounter st' = 0
  /\ hash st' = hash st /\ isFinished st' = isFinished st
  /\ sentIntro st' = sentIntro st /\ inBytes st' = inBytes st.
Proof.
  intros key st' Hlen. subst st'. rewrite mixIntoKey_run.
  cbn [resultOf stateOf fst snd]. fold key.
  cbn [salt encKey decKey hash readCounter writeCounter isFinished sentIntro inBytes].
  rewrite slice_take, slice_drop by lia. change (Z.to_nat 32) with 32%nat.
  split; [reflexivity|]. split; [reflexivity|]. split; [reflexivity|].
  split; [reflexivity|]. split; [rewrite length_take; lia|].
  split; [rewrite length_drop; lia|]. split; [apply take_drop|].
  repeat split; reflexivity.
Qed.

(** ** [processHandshake], in every case *)

Lemma processHandshake_run (self noiseKey : KeyPair) (serverHello : ServerHello)
    (st : NoiseState) :
  let s1 := stateOf (mixIntoKey (sharedKey (private self) (ephemeral serverHello))
                       (stateOf (authenticate (ephemeral serverHello) st))) in
  processHandshake self serverHello noiseKey st =
  match decrypt (static serverHello) s1 with
  | (Throw e, s2, ev2) => (Throw e, s2, EvRekey :: ev2)
  | (Ok decStatic, s2, ev2) =>
      let s3 := stateOf (mixIntoKey (sharedKey (private self) decStatic) s2) in
      match decrypt (payload serverHello) s3 with
      | (Throw e, s4, ev4) => (Throw e, s4, EvRekey :: ev2 ++ EvRekey :: ev4)
      | (Ok certPlain, s4, ev4) =>
          match NoiseCertificate_details certPlain with
          | None => (Throw DecodeError, s4, EvRekey :: ev2 ++ EvRekey :: ev4)
          | Some certDetails =>
              match NoiseCertificateDetails_key certDetails with
              | None => (Throw DecodeError, s4, EvRekey :: ev2 ++ EvRekey :: ev4)
              | Some certKey =>
                  if Buffer_compare decStatic certKey =? 0 then
                    (resultOf (encrypt (public noiseKey) s4),
                     stateOf (mixIntoKey
                                (sharedKey (private noiseKey) (ephemeral serverHello))
                                (stateOf (encrypt (public noiseKey) s4))),
                     EvRekey :: ev2 ++ EvRekey :: ev4
                       ++ [EvCipher Seal (isFinished s4) (encKey s4) (writeCounter s4);
                           EvRekey])
                  else
                    (Throw (Boom "certification match failed" 400), s4,
                     EvRekey :: ev2 ++ EvRekey :: ev4)
              end
          end
      end
  end.
Proof.
  intros s1. subst s1. unfold processHandshake.
  unfold mbind, M_bind, bindM, mret, M_ret, retM.
  rewrite authenticate_ok.
  rewrite (mixIntoKey_ok _ (stateOf (authenticate (ephemeral serverHello) st))).
  destruct (decrypt (static serverHello) _) as [[[decStatic|e] s2] ev2]; [|reflexivity].
  rewrite (mixIntoKey_ok _ s2).
  destruct (decrypt (payload serverHello) _) as [[[certPlain|e] s4] ev4]; [|reflexivity].
  destruct (NoiseCertificate_details certPlain) as [certDetails|]; cbn [liftOpt retM throw];
    [|cbn [app]; rewrite ?app_nil_r; reflexivity].
  destruct (NoiseCertificateDetails_key certDetails) as [certKey|]; cbn [liftOpt retM throw];
    [|cbn [app]; rewrite ?app_nil_r; reflexivity].
  destruct (Buffer_compare decStatic certKey =? 0); cbn [negb throw];
    [|cbn [app]; rewrite ?app_nil_r; reflexivity].
  rewrite (encrypt_ok (public noiseKey) s4), (mixIntoKey_ok _ (stateOf (encrypt _ s4))).
  cbn [resultOf fst app]. rewrite ?app_nil_r. reflexivity.
Qed.

(** X5. [processHandshake] returns a response only after it has checked the
    server: when it returns, the decipher has accepted the static key and the
    certificate, both decoders have succeeded, the key named in the
    certificate is byte for byte the decrypted static key, and the response
    is what [encrypt] made of the public key of [noiseKey]. *)
Theorem processHandshake_sound (self noiseKey : KeyPair) (serverHello : ServerHello)
    (st : NoiseState) (keyEnc : bytes) :
  resultOf (processHandshake self serverHello noiseKey st) = Ok keyEnc ->
  let s1 := stateOf (mixIntoKey (sharedKey (private self) (ephemeral serverHello))
                       (stateOf (authenticate (ephemeral serverHello) st))) in
  exists decStatic certPlain certDetails,
    resultOf (decrypt (static serverHello) s1) = Ok decStatic
    /\ let s3 := stateOf (mixIntoKey (sharedKey (private self) decStatic)
                            (stateOf (decrypt (static serverHello) s1))) in
       resultOf (decrypt (payload serverHello) s3) = Ok certPlain
       /\ NoiseCertificate_details certPlain = Some certDetails
       /\ NoiseCertificateDetails_key certDetails = Some decStatic
       /\ resultOf (encrypt (public noiseKey) (stateOf (decrypt (payload serverHello) s3)))
          = Ok keyEnc.
Proof.
  intros Hok s1. rewrite processHandshake_run in Hok. fold s1 in Hok.
  destruct (decrypt (static serverHello) s1) as [[[decStatic|e] s2] ev2] eqn:Ed1;
    [|discriminate].
  cbv zeta in Hok.
  destruct (decrypt (payload serverHello) _) as [[[certPlain|e] s4] ev4] eqn:Ed2;
    [|discriminate].
  destruct (NoiseCertificate_details certPlain) as [certDetails|] eqn:E1; [|discriminate].
  destruct (NoiseCertificateDetails_key certDetails) as [certKey|] eqn:E2; [|discriminate].
  destruct (Buffer_compare decStatic certKey =? 0) eqn:Ecmp; [|discriminate].
  apply Z.eqb_eq, Buffer_compare_eq in Ecmp. subst certKey.
  exists decStatic, certPlain, certDetails. cbv zeta. cbn [stateOf resultOf fst snd] in *.
  rewrite Ed2. cbn [stateOf resultOf fst snd]. auto.
Qed.

(** X6. What [processHandshake] throws is the decipher's error, a decoder's
    error, or the Boom "certification match failed" (400), nothing else.
    It does not undo what it did: the first thing it logs is a key
    assignment, whatever the outcome; and when the decipher refuses the
    static key, the handler is left with the hash that absorbed the server's
    ephemeral key, with the salt and keys of the first mix and with both
    counters at 0. *)
Theorem processHandshake_failure (self noiseKey : KeyPair) (serverHello : ServerHello)
    (st : NoiseState) :
  let out := processHandshake self serverHello noiseKey st in
  let key := hkdf (sharedKey (private self) (ephemeral serverHello)) 64 (salt st)
               EmptyString in
  let s1 :=
    {| hash := if isFinished st then hash st
               else sha256 (hash st ++ ephemeral serverHello);
       salt := slice key 0 (Some 32);
       encKey := slice key 32 None; decKey := slice key 32 None;
       readCounter := 0; writeCounter := 0;
       isFinished := isFinished st; sentIntro := sentIntro st; inBytes := inBytes st |} in
  (forall e, resultOf out = Throw e ->
     e = CryptoError \/ e = DecodeError \/ e = Boom "certification match failed" 400)
  /\ (exists evs, eventsOf out = EvRekey :: evs)
  /\ (gcm_decrypt (decKey s1) (generateIV (decryptCounter s1)) (hash s1)
        (cipherBody (static serverHello)) (cipherTag (static serverHello)) = None ->
      out = (Throw CryptoError, s1, [EvRekey])).
Proof.
  intros out key s1. subst out. rewrite processHandshake_run.
  assert (Hs1 : stateOf (mixIntoKey (sharedKey (private self) (ephemeral serverHello))
                           (stateOf (authenticate (ephemeral serverHello) st))) = s1).
  { rewrite authenticate_run. cbn [stateOf fst snd]. rewrite mixIntoKey_run.
    cbn [stateOf fst snd]. subst s1 key.
    destruct (isFinished st) eqn:E; cbn; rewrite ?E; reflexivity. }
  rewrite Hs1. clear Hs1. split; [|split].
  - intros e.
    destruct (decrypt (static serverHello) s1) as [[[decStatic|e1] s2] ev2] eqn:Ed1.
    2:{ apply decrypt_throw in Ed1 as (-> & _). intros [= <-]. auto. }
    cbv zeta.
    destruct (decrypt (payload serverHello) _) as [[[certPlain|e2] s4] ev4] eqn:Ed2.
    2:{ apply decrypt_throw in Ed2 as (-> & _). intros [= <-]. auto. }
    destruct (NoiseCertificate_details certPlain) as [certDetails|];
      [|intros [= <-]; auto].
    destruct (NoiseCertificateDetails_key certDetails) as [certKey|];
      [|intros [= <-]; auto].
    destruct (Buffer_compare decStatic certKey =? 0); [|intros [= <-]; auto].
    rewrite encrypt_run. discriminate.
  - destruct (decrypt (static serverHello) s1) as [[[decStatic|e1] s2] ev2]; [|eauto].
    cbv zeta.
    destruct (decrypt (payload serverHello) _) as [[[certPlain|e2] s4] ev4]; [|eauto].
    destruct (NoiseCertificate_details certPlain) as [certDetails|]; [|eauto].
    destruct (NoiseCertificateDetails_key certDetails) as [certKey|]; [|eauto].
    destruct (Buffer_compare decStatic certKey =? 0); eauto.
  - intros Hnone. rewrite decrypt_run, Hnone. reflexivity.
Qed.

Lemma decrypt_unfinished (ciphertext : bytes) (st st2 : NoiseState) plain ev :
  isFinished st = false ->
  decrypt ciphertext st = (Ok plain, st2, ev) ->
  st2 = set_hash (sha256 (hash st ++ ciphertext))
          (set_writeCounter (writeCounter st + 1) st)
  /\ ev = [EvCipher Unseal false (decKey st) (writeCounter st)].
Proof.
  intros Hf. rewrite decrypt_run. unfold decryptCounter. rewrite Hf.
  destruct (gcm_decrypt _ _ _ _ _); [|discriminate].
  intros [= <- <- <-]. auto.
Qed.

(** X7. When [processHandshake] returns on a handler whose handshake is not
    finished, the hash has absorbed, in this order, the server's ephemeral
    key, the encrypted static key, the encrypted certificate and the
    response; the handshake is still not finished, the two keys are equal and
    both counters are 0.  The ciphers ran on the counters 0 (static key), 0
    under the key of the second mix (certificate) and 1 under that same key
    (response). *)
Theorem processHandshake_transcript (self noiseKey : KeyPair) (serverHello : ServerHello)
    (st : NoiseState) (keyEnc : bytes) :
  isFinished st = false ->
  resultOf (processHandshake self serverHello noiseKey st) = Ok keyEnc ->
  let st' := stateOf (processHandshake self serverHello noiseKey st) in
  hash st' = absorb (hash st)
               [ephemeral serverHello; static serverHello; payload serverHello; keyEnc]
  /\ isFinished st' = false
  /\ encKey st' = decKey st' /\ readCounter st' = 0 /\ writeCounter st' = 0
  /\ sentIntro st' = sentIntro st /\ inBytes st' = inBytes st
  /\ exists key1 key2,
       eventsOf (processHandshake self serverHello noiseKey st)
       = [EvRekey; EvCipher Unseal false key1 0;
          EvRekey; EvCipher Unseal false key2 0; EvCipher Seal false key2 1;
          EvRekey].
Proof.
  intros Hf Hok st'. subst st'. revert Hok. rewrite processHandshake_run.
  set (s1 := stateOf (mixIntoKey (sharedKey (private self) (ephemeral serverHello))
                        (stateOf (authenticate (ephemeral serverHello) st)))).
  assert (H1 : isFinished s1 = false
               /\ hash s1 = sha256 (hash st ++ ephemeral serverHello)
               /\ writeCounter s1 = 0
               /\ sentIntro s1 = sentIntro st /\ inBytes s1 = inBytes st).
  { subst s1. rewrite authenticate_run, Hf. cbn [stateOf fst snd].
    rewrite mixIntoKey_run. cbn. auto. }
  clearbody s1. destruct H1 as (Hf1 & Hh1 & Hw1 & Hs1 & Hi1).
  destruct (decrypt (static serverHello) s1) as [[[decStatic|e] s2] ev2] eqn:Ed1;
    [|discriminate].
  apply (decrypt_unfinished _ _ _ _ _ Hf1) in Ed1 as [-> ->].
  cbv zeta.
  set (s3 := stateOf (mixIntoKey (sharedKey (private self) decStatic) _)).
  assert (H3 : isFinished s3 = false
               /\ hash s3 = sha256 (hash s1 ++ static serverHello)
               /\ writeCounter s3 = 0 /\ encKey s3 = decKey s3
               /\ sentIntro s3 = sentIntro s1 /\ inBytes s3 = inBytes s1).
  { subst s3. rewrite mixIntoKey_run. cbn. repeat split; try reflexivity; try assumption. }
  clearbody s3. destruct H3 as (Hf3 & Hh3 & Hw3 & Hk3 & Hs3 & Hi3).
  destruct (decrypt (payload serverHello) s3) as [[[certPlain|e] s4] ev4] eqn:Ed2;
    [|discriminate].
  apply (decrypt_unfinished _ _ _ _ _ Hf3) in Ed2 as [-> ->].
  destruct (NoiseCertificate_details certPlain) as [certDetails|]; [|discriminate].
  destruct (NoiseCertificateDetails_key certDetails) as [certKey|]; [|discriminate].
  destruct (Buffer_compare decStatic certKey =? 0); [|discriminate].
  rewrite encrypt_run. cbn [resultOf stateOf eventsOf fst snd].
  cbn [isFinished set_hash set_writeCounter hash encKey writeCounter].
  rewrite Hf3. intros [= <-]. rewrite mixIntoKey_run. cbn [stateOf fst snd].
  cbn [hash isFinished encKey decKey readCounter writeCounter sentIntro inBytes
       set_hash set_writeCounter absorb fold_left].
  rewrite ?Hf3, ?Hh3, ?Hh1, ?Hs3, ?Hs1, ?Hi3, ?Hi1, ?Hw1, ?Hw3, ?Hk3.
  do 7 (split; [reflexivity|]). exists (decKey s1), (decKey s3). reflexivity.
Qed.

(** ** The preamble *)

Lemma sentIntro_authenticate data : Preserves (fun st _ => sentIntro st = true) (authenticate data).
Proof. intros st log H. rewrite authenticate_run. cbn. destruct (isFinished st); exact H. Qed.

Lemma sentIntro_encrypt text : Preserves (fun st _ => sentIntro st = true) (encrypt text).
Proof.
  intros st log H. destruct (encrypt_state text st) as (_ & _ & _ & _ & _ & _ & Hs & _).
  rewrite Hs. exact H.
Qed.

Lemma sentIntro_decrypt sealed : Preserves (fun st _ => sentIntro st = true) (decrypt sealed).
Proof.
  intros st log H. rewrite decrypt_run.
  destruct (gcm_decrypt _ _ _ _ _); [|exact H]. cbn. destruct (isFinished st); exact H.
Qed.

Lemma sentIntro_mixIntoKey data : Preserves (fun st _ => sentIntro st = true) (mixIntoKey data).
Proof. intros st log H. rewrite mixIntoKey_run. exact H. Qed.

Lemma sentIntro_processHandshake self serverHello noiseKey :
  Preserves (fun st _ => sentIntro st = true) (processHandshake self serverHello noiseKey).
Proof.
  unfold processHandshake.
  repeat first
    [ apply sentIntro_authenticate | apply sentIntro_encrypt | apply sentIntro_decrypt
    | apply sentIntro_mixIntoKey | apply preserves_ret | apply preserves_throw
    | apply preserves_liftOpt
    | apply preserves_bind; [|intros]
    | match goal with |- Preserves _ (if ?b then _ else _) => destruct b end ].
Qed.

Lemma encodeFrame_sentIntro (data : bytes) (st : NoiseState) :
  sentIntro (stateOf (encodeFrame data st)) = true.
Proof.
  rewrite encodeFrame_run. cbn [stateOf fst snd].
  assert (Hs : sentIntro (if isFinished st then stateOf (encrypt data st) else st)
               = sentIntro st).
  { destruct (isFinished st); [apply (encrypt_state data st) | reflexivity]. }
  destruct (sentIntro st) eqn:E; [rewrite Hs; reflexivity | reflexivity].
Qed.

Lemma runCall_sentIntro (self : KeyPair) (c : Call) (st : NoiseState) :
  sentIntro st = true -> sentIntro (runCall self c st).1 = true.
Proof.
  intros H. destruct c; cbn [runCall void fst snd].
  - apply (sentIntro_authenticate data st [] H).
  - apply (sentIntro_encrypt plaintext st [] H).
  - apply (sentIntro_decrypt ciphertext st [] H).
  - apply (sentIntro_mixIntoKey data st [] H).
  - exact H.
  - apply (sentIntro_processHandshake self serverHello noiseKey st [] H).
  - apply encodeFrame_sentIntro.
  - destruct (decodeFrame_framerOnly newData st) as (_ & _ & _ & _ & _ & _ & Hs & _).
    rewrite Hs. exact H.
Qed.

Lemma runTrace_sentIntro (self : KeyPair) (cs : list Call) (st : NoiseState) :
  sentIntro st = true -> sentIntro (runTrace self cs st).1 = true.
Proof.
  revert st. induction cs as [|c cs IH]; intros st H; [exact H|].
  cbn [runTrace]. pose proof (runCall_sentIntro self c st H) as H1.
  destruct (runCall self c st) as [st1 ev1]. specialize (IH st1 H1).
  destruct (runTrace self cs st1) as [st2 ev2]. exact IH.
Qed.

(** X8. The preamble goes out once.  The first [encodeFrame] of a handler
    puts [NOISE_WA_HEADER] before the length (for a payload on the wire below
    2^24 bytes); after any call of [encodeFrame], whatever is then called on
    the handler, [sentIntro] is true and [encodeFrame] returns the length and
    the payload only. *)
Theorem preamble_once (self : KeyPair) (cs : list Call) (data : bytes) (st : NoiseState) :
  let st1 := stateOf (encodeFrame data st) in
  let st2 := (runTrace self cs st1).1 in
  (sentIntro st = false -> byteLength (wireOf data st) < 2 ^ 24 ->
     resultOf (encodeFrame data st) = Ok (NOISE_WA_HEADER ++ frameOf (wireOf data st)))
  /\ sentIntro st2 = true
  /\ (forall next, byteLength (wireOf next st2) < 2 ^ 24 ->
        resultOf (encodeFrame next st2) = Ok (frameOf (wireOf next st2))).
Proof.
  intros st1 st2.
  assert (H2 : sentIntro st2 = true)
    by (apply runTrace_sentIntro, encodeFrame_sentIntro).
  split; [|split; [exact H2|]].
  - intros Hs Hn. rewrite encodeFrame_small by exact Hn. unfold introOf. rewrite Hs.
    reflexivity.
  - intros next Hn. rewrite encodeFrame_small by exact Hn. unfold introOf. rewrite H2.
    reflexivity.
Qed.

(** X9. When [encodeFrame] throws its range error (payload on the wire of
    2^24 to 2^32 - 1 bytes), it has already done its side effects:
    [sentIntro] is true although no preamble was returned, and on a finished
    handler the cipher has run and [writeCounter] is one higher.  Nothing
    else has changed. *)
Theorem encodeFrame_failure_effects (data : bytes) (st : NoiseState) :
  2 ^ 24 <= byteLength (wireOf data st) < 2 ^ 32 ->
  let out := encodeFrame data st in
  resultOf out = Throw RangeError
  /\ sentIntro (stateOf out) = true
  /\ writeCounter (stateOf out)
     = (if isFinished st then writeCounter st + 1 else writeCounter st)
  /\ eventsOf out
     = (if isFinished st then [EvCipher Seal true (encKey st) (writeCounter st)] else [])
  /\ set_writeCounter (writeCounter st) (set_sentIntro (sentIntro st) (stateOf out)) = st.
Proof.
  intros Hn out. subst out.
  split; [apply encodeFrame_large, Hn|]. split; [apply encodeFrame_sentIntro|].
  rewrite encodeFrame_run. cbn [stateOf eventsOf fst snd].
  destruct st as [h s ek dk rc wc fin si ib]. cbn [isFinished sentIntro writeCounter encKey].
  destruct fin; [rewrite encrypt_run; cbn [stateOf fst snd isFinished]|];
    destruct si; cbn; auto.
Qed.

(** ** The sizes of keys and nonces *)

Lemma generateIV_length (c : Z) : length (generateIV c) = 12%nat.
Proof. rewrite generateIV_bytes. reflexivity. Qed.

Lemma keysSized_log st st' log :
  length (encKey st') = length (encKey st) -> length (decKey st') = length (decKey st) ->
  length (salt st') = length (salt st) ->
  length (hash st') = (if isFinished st' then 0%nat else 32%nat) ->
  forall ev,
    (forall d f k c, EvCipher d f k c ∈ ev -> k = encKey st \/ k = decKey st) ->
    keysSized st log -> keysSized st' (log ++ ev).
Proof.
  intros He Hd Hs Hh ev Hev (H1 & H2 & H3 & H4 & H5).
  split; [congruence|]. split; [congruence|]. split; [congruence|]. split; [exact Hh|].
  intros d f k c [Hin|Hin]%elem_of_app; [eauto|].
  destruct (Hev d f k c Hin) as [-> | ->]; assumption.
Qed.

Lemma keysSized_stable : sizedPlatform -> Stable keysSized.
Proof.
  intros [Hsha Hkdf]. split.
  - intros data st log H. rewrite authenticate_run. cbn [stateOf eventsOf fst snd].
    eapply keysSized_log; [ | | | | | exact H].
    1-3: destruct (isFinished st); reflexivity.
    + destruct H as (_ & _ & _ & Hh & _).
      destruct (isFinished st) eqn:E; cbn [isFinished hash set_hash]; rewrite ?E; auto.
    + intros d f k c Hin. apply elem_of_nil in Hin. contradiction.
  - intros text st log H. rewrite encrypt_run. cbn [stateOf eventsOf fst snd].
    eapply keysSized_log; [ | | | | | exact H].
    1-3: destruct (isFinished st); reflexivity.
    + destruct H as (_ & _ & _ & Hh & _).
      destruct (isFinished st) eqn:E;
        cbn [isFinished hash set_hash set_writeCounter]; rewrite ?E; auto.
    + intros d f k c Hin. apply list_elem_of_singleton in Hin. left. congruence.
  - intros sealed st log H. rewrite decrypt_run.
    destruct (gcm_decrypt _ _ _ _ _); cbn [stateOf eventsOf fst snd].
    + eapply keysSized_log; [ | | | | | exact H].
      1-3: destruct (isFinished st); reflexivity.
      * destruct H as (_ & _ & _ & Hh & _).
        destruct (isFinished st) eqn:E;
          cbn [isFinished hash set_hash set_writeCounter set_readCounter]; rewrite ?E; auto.
      * intros d f k c Hin. apply list_elem_of_singleton in Hin. right. congruence.
    + rewrite app_nil_r. exact H.
  - intros v st log H. exact H.
  - intros v st log H. exact H.
  - intros f st log (H1 & H2 & H3 & H4 & H5). repeat split; auto.
    intros d f0 k c [Hin|Hin]%elem_of_app; [eauto|].
    apply list_elem_of_singleton in Hin. discriminate.
Qed.

Lemma slice_halves (key : bytes) :
  length key = 64%nat ->
  length (slice key 0 (Some 32)) = 32%nat /\ length (slice key 32 None) = 32%nat.
Proof.
  intros H. rewrite slice_take, slice_drop by lia. rewrite length_take, length_drop. lia.
Qed.

Lemma keysSized_mixIntoKey data : sizedPlatform -> Preserves keysSized (mixIntoKey data).
Proof.
  intros [Hsha Hkdf] st log (H1 & H2 & H3 & H4 & H5). rewrite mixIntoKey_run.
  cbn [stateOf eventsOf fst snd].
  destruct (slice_halves _ (Hkdf data (salt st))) as [Ha Hb].
  split; [exact Hb|]. split; [exact Hb|]. split; [exact Ha|]. split; [exact H4|].
  intros d f k c [Hin|Hin]%elem_of_app; [eauto|].
  apply list_elem_of_singleton in Hin. discriminate.
Qed.

Lemma keysSized_finishInit : sizedPlatform -> Preserves keysSized finishInit.
Proof.
  intros [Hsha Hkdf] st log (H1 & H2 & H3 & H4 & H5). rewrite finishInit_run.
  cbn [stateOf eventsOf fst snd].
  destruct (slice_halves _ (Hkdf [] (salt st))) as [Ha Hb].
  split; [exact Ha|]. split; [exact Hb|]. split; [exact H3|]. split; [reflexivity|].
  intros d f k c [Hin|Hin]%elem_of_app; [eauto|].
  apply list_elem_of_singleton in Hin. discriminate.
Qed.

Lemma modeHash_length : sizedPlatform -> length modeHash = 32%nat.
Proof.
  intros [Hsha _]. unfold modeHash, byteLength.
  destruct (Z.of_nat (length NOISE_MODE) =? 32) eqn:E; [|apply Hsha].
  apply Z.eqb_eq in E. lia.
Qed.

(** X4. The sizes node's [crypto] checks.  When SHA-256 returns 32 bytes and
    HKDF the 64 bytes it is asked for, then on every trace of calls on a
    fresh handler the two keys and the salt have 32 bytes, the hash has 32
    bytes until [finishInit] and none after, every cipher was created with a
    key of 32 bytes, and the IV of every counter has 12 bytes. *)
Theorem key_sizes (self : KeyPair) (cs : list Call) :
  sizedPlatform ->
  let st := (runTrace self cs (makeNoiseHandler self)).1 in
  let log := (runTrace self cs (makeNoiseHandler self)).2 in
  length (encKey st) = 32%nat /\ length (decKey st) = 32%nat
  /\ length (salt st) = 32%nat
  /\ length (hash st) = (if isFinished st then 0%nat else 32%nat)
  /\ (forall d f k c, EvCipher d f k c ∈ log -> length k = 32%nat)
  /\ (forall c, length (generateIV c) = 12%nat).
Proof.
  intros Hp st log.
  assert (H : keysSized st ([] ++ log)).
  { apply (runTrace_preserves _ (keysSized_stable Hp)).
    - apply Forall_forall. intros c _.
      destruct c; cbn [keeps]; auto using keysSized_mixIntoKey, keysSized_finishInit.
    - pose proof (modeHash_length Hp) as Hm. destruct Hp as [Hsha _].
      repeat split; try exact Hm; [apply Hsha|].
      intros d f k c Hin. apply elem_of_nil in Hin. contradiction. }
  destruct H as (H1 & H2 & H3 & H4 & H5).
  repeat split; auto using generateIV_length.
Qed.

(** ** The salt, long payloads and short ciphertexts *)

(** ** The salt *)

Lemma salt_stable (s0 : bytes) : Stable (fun st _ => salt st = s0).
Proof.
  split.
  - intros data st log H. rewrite authenticate_run. cbn. destruct (isFinished st); exact H.
  - intros text st log H.
    destruct (encrypt_state text st) as (_ & _ & _ & _ & _ & Hs & _). rewrite Hs. exact H.
  - intros sealed st log H. rewrite decrypt_run.
    destruct (gcm_decrypt _ _ _ _ _); [|exact H]. cbn. destruct (isFinished st); exact H.
  - intros v st log H. exact H.
  - intros v st log H. exact H.
  - intros f st log H. exact H.
Qed.

Lemma runTrace_salt (self : KeyPair) (cs : list Call) (st : NoiseState) :
  Forall (fun c => mixesKey c = false) cs -> salt (runTrace self cs st).1 = salt st.
Proof.
  intros Hcs.
  apply (runTrace_preserves _ (salt_stable (salt st)) self cs st []); [|reflexivity].
  eapply Forall_impl; [exact Hcs|]. intros c Hc.
  destruct c; cbn [keeps]; auto; try discriminate.
  intros st0 log H. rewrite finishInit_run. exact H.
Qed.

(** X17. Only [mixIntoKey] and [processHandshake] change the salt.  So a
    second [finishInit], after any calls that do not mix a key, derives the
    keys of the first again and sets both counters back to 0: the counters
    start again under the keys that were already used. *)
Theorem finishInit_repeats (self : KeyPair) (cs : list Call) (st : NoiseState) :
  Forall (fun c => mixesKey c = false) cs ->
  let st1 := stateOf (finishInit st) in
  let st2 := (runTrace self cs st1).1 in
  let st3 := stateOf (finishInit st2) in
  salt st2 = salt st
  /\ encKey st3 = encKey st1 /\ decKey st3 = decKey st1
  /\ readCounter st3 = 0 /\ writeCounter st3 = 0 /\ isFinished st3 = true.
Proof.
  intros Hcs st1 st2 st3.
  assert (Hs : salt st2 = salt st).
  { subst st2. rewrite runTrace_salt by exact Hcs. subst st1. rewrite finishInit_run.
    reflexivity. }
  split; [exact Hs|]. subst st3 st1. rewrite !finishInit_run.
  cbn [stateOf fst snd encKey decKey readCounter writeCounter isFinished]. rewrite Hs.
  repeat split; reflexivity.
Qed.

(** ** [encodeFrame] for every length *)

Lemma ToInt32_mod (n : Z) : ToInt32 (n mod 2 ^ 32) = ToInt32 n.
Proof. unfold ToInt32. rewrite Z.mod_mod by lia. reflexivity. Qed.

Lemma js_sar_mod (n k : Z) : js_sar n k = js_sar (n mod 2 ^ 32) k.
Proof. unfold js_sar. rewrite ToInt32_mod. reflexivity. Qed.

Lemma js_and_mod (n : Z) : js_and 65535 n = js_and 65535 (n mod 2 ^ 32).
Proof.
  rewrite !js_and_65535. symmetry. apply Z.mod_mod_divide. exists (2 ^ 16). reflexivity.
Qed.

Lemma high_byte_out (n : Z) :
  2 ^ 24 <= n < 2 ^ 32 -> (0 <=? js_sar n 16) && (js_sar n 16 <=? 255) = false.
Proof.
  intros Hn.
  change (2 ^ 24) with 16777216 in Hn. change (2 ^ 32) with 4294967296 in Hn.
  assert (Hhi : js_sar n 16 < 0 \/ 256 <= js_sar n 16).
  { destruct (Z.lt_ge_cases n 2147483648) as [Hlt|Hge].
    - right. rewrite js_sar_small by (change (2 ^ 31) with 2147483648; lia).
      change (2 ^ 16) with 65536. Z.to_euclidean_division_equations. lia.
    - left. unfold js_sar, ToInt32. change (2 ^ 32) with 4294967296.
      change (2 ^ 31) with 2147483648. rewrite Z.mod_small by lia.
      zbool. apply Z.shiftr_neg. lia. }
  destruct Hhi as [Hhi|Hhi].
  - zbool. reflexivity.
  - zbool. rewrite andb_false_r. reflexivity.
Qed.

Lemma wire_length_raw (data : bytes) (st : NoiseState) :
  isFinished st = false -> byteLength (wireOf data st) = byteLength data.
Proof. intros Hf. rewrite (wireOf_raw data st Hf). reflexivity. Qed.

(** X18. [encodeFrame] for a payload of any length.  The two writes of the
    length see its 32-bit image: when the length on the wire modulo 2^32 is
    below 2^24, the frame is returned with the three big-endian bytes of
    that value (the length itself below 2^32, a wrapped one from 2^32 on);
    otherwise the write of the high byte throws the range error. *)
Theorem encodeFrame_any_length (data : bytes) (st : NoiseState) :
  let wire := wireOf data st in
  let n := byteLength wire mod 2 ^ 32 in
  (n < 2 ^ 24 -> resultOf (encodeFrame data st) = Ok (introOf st ++ be24 n ++ wire))
  /\ (2 ^ 24 <= n -> resultOf (encodeFrame data st) = Throw RangeError).
Proof.
  intros wire n.
  assert (Hn : 0 <= n < 2 ^ 32) by (apply Z.mod_pos_bound; lia).
  rewrite encodeFrame_run. cbn [resultOf fst]. fold wire.
  rewrite (js_sar_mod (byteLength wire)), (js_and_mod (byteLength wire)). fold n.
  split; intros H.
  - destruct (prefix_be24 n) as [-> ->]; [lia | reflexivity].
  - rewrite high_byte_out by lia. reflexivity.
Qed.

(** ** Where [decrypt] cuts *)

Lemma cipher_cut (ciphertext : bytes) :
  cipherBody ciphertext = take (cutOf ciphertext) ciphertext
  /\ cipherTag ciphertext = drop (cutOf ciphertext) ciphertext.
Proof.
  unfold cipherBody, cipherTag, cutOf, slice, clampIndex, byteLength.
  change TAG_LENGTH with 16. set (L := length ciphertext).
  change (0 <? 0) with false. cbv iota.
  rewrite (Z.min_l 0) by lia. change (Z.to_nat 0) with 0%nat. cbn [drop].
  destruct (L <? 16)%nat eqn:E.
  - apply Nat.ltb_lt in E.
    rewrite (proj2 (Z.ltb_lt (Z.of_nat L - 16) 0)) by lia.
    replace (Z.to_nat (Z.max (Z.of_nat L + (Z.of_nat L - 16)) 0 - 0))
      with (2 * L - 16)%nat by lia.
    replace (Z.to_nat (Z.max (Z.of_nat L + (Z.of_nat L - 16)) 0))
      with (2 * L - 16)%nat by lia.
    split; [reflexivity|]. apply take_ge. rewrite length_drop. fold L. lia.
  - apply Nat.ltb_ge in E.
    rewrite (proj2 (Z.ltb_ge (Z.of_nat L - 16) 0)) by lia.
    rewrite (Z.min_l (Z.of_nat L - 16)) by lia.
    replace (Z.to_nat (Z.of_nat L - 16 - 0)) with (L - 16)%nat by lia.
    replace (Z.to_nat (Z.of_nat L - 16)) with (L - 16)%nat by lia.
    split; [reflexivity|]. apply take_ge. rewrite length_drop. fold L. lia.
Qed.

(** X19. Where [decrypt] cuts its input.  The body and the tag it hands to
    the decipher always make up the input.  The tag has sixteen bytes
    exactly when the input has at least sixteen; a shorter input of [n]
    bytes is cut at [2n - 16] (at 0 when that is negative), so the tag has
    [n] bytes up to 8 and [16 - n] bytes from there.  [decrypt] returns what
    the decipher makes of these two pieces, or throws its error. *)
Theorem decrypt_cut (ciphertext : bytes) (st : NoiseState) :
  let body := take (cutOf ciphertext) ciphertext in
  let tag := drop (cutOf ciphertext) ciphertext in
  cipherBody ciphertext = body /\ cipherTag ciphertext = tag
  /\ body ++ tag = ciphertext
  /\ (length tag = 16%nat <-> (16 <= length ciphertext)%nat)
  /\ ((length ciphertext < 16)%nat ->
      length tag = Nat.min (length ciphertext) (16 - length ciphertext))
  /\ resultOf (decrypt ciphertext st)
     = match gcm_decrypt (decKey st) (generateIV (decryptCounter st)) (hash st) body tag with
       | Some result => Ok result
       | None => Throw CryptoError
       end.
Proof.
  intros body tag. destruct (cipher_cut ciphertext) as [Hb Ht].
  split; [exact Hb|]. split; [exact Ht|]. split; [apply take_drop|].
  assert (Hlen : length tag = (length ciphertext - cutOf ciphertext)%nat)
    by apply length_drop.
  unfold cutOf in Hlen.
  split; [|split].
  - destruct (length ciphertext <? 16)%nat eqn:E;
      [apply Nat.ltb_lt in E | apply Nat.ltb_ge in E]; lia.
  - intros Hlt. rewrite (proj2 (Nat.ltb_lt _ _) Hlt) in Hlen. lia.
  - rewrite decrypt_run, Hb, Ht. fold body tag.
    destruct (gcm_decrypt _ _ _ _ _); reflexivity.
Qed.

End Theory.

(** * Instances on the example platform *)

Section Instances.
Import Example.

Lemma byteLength_big : byteLength big = 2 ^ 24.
Proof. unfold byteLength, big. rewrite repeat_length. apply Z2Nat.id. lia. Qed.

Lemma byteLength_huge : byteLength huge = 2 ^ 32.
Proof. unfold byteLength, huge. rewrite repeat_length. apply Z2Nat.id. lia. Qed.

(** C1 as stated fails: after one [encrypt] on a fresh handler the handshake
    is not finished, [readCounter] is 0 and [writeCounter] is 1. *)
Lemma handshake_counters_differ :
  let st := (runTrace self [CallEncrypt payload3] fresh).1 in
  isFinished st = false /\ readCounter st = 0 /\ writeCounter st = 1.
Proof. vm_compute. auto. Qed.

Lemma handshake_invariant_witness :
  let cs := [CallEncrypt payload3; CallMixIntoKey payload2; CallDecrypt shortFrame] in
  let st := (runTrace self (take 2 cs) (makeNoiseHandler self)).1 in
  Forall (fun c => c <> CallFinishInit) cs
  /\ isFinished st = false /\ encKey st = decKey st /\ readCounter st = 0.
Proof.
  intros cs st.
  assert (H : Forall (fun c => c <> CallFinishInit) cs)
    by (repeat constructor; discriminate).
  split; [exact H | exact (handshake_invariant self cs 2 H)].
Defined.

(** C2 as stated fails on the traces that assign keys to a finished handler.
    After [finishInit] and a [mixIntoKey], the two directions hold one key
    and each its own counter, at 0: an [encrypt] and a successful [decrypt]
    then run with the same key and the counter 0, and no key is assigned
    between them.  And a second [finishInit] derives the keys of the first
    again, the salt being the same, and resets the counters: the two
    [encrypt] run with the same key and the counter 0, and they return the
    same bytes. *)
Lemma nonce_reuse_counterexample :
  let key := repeat Byte.x78 32 in
  let half := repeat Byte.x5a 32 in
  (runTrace self [CallFinishInit; CallMixIntoKey payload2;
                  CallEncrypt payload3; CallDecrypt sealedRemixed] fresh).2
  = [EvRekey; EvRekey; EvCipher Seal true key 0; EvCipher Unseal true key 0]
  /\ resultOf (decrypt sealedRemixed (stateOf (encrypt payload3 remixed))) = Ok payload3
  /\ (runTrace self [CallFinishInit; CallEncrypt payload3;
                     CallFinishInit; CallEncrypt payload3] fresh).2
     = [EvRekey; EvCipher Seal true half 0; EvRekey; EvCipher Seal true half 0]
  /\ resultOf (encrypt payload3 (stateOf (finishInit fresh)))
     = resultOf (encrypt payload3
                  (stateOf (finishInit (stateOf (encrypt payload3
                                                  (stateOf (finishInit fresh))))))).
Proof. repeat apply conj; reflexivity. Qed.

Lemma nonce_counter_unique_witness :
  let cs := [CallEncrypt payload3; CallFinishInit;
             CallEncrypt payload2; CallEncrypt payload2] in
  let half := repeat Byte.x5a 32 in
  (runTrace self cs (makeNoiseHandler self)).2
  = [EvCipher Seal false NOISE_MODE 0; EvRekey]
      ++ EvCipher Seal true half 0 :: [] ++ EvCipher Seal true half 1 :: []
  /\ settled cs = true
  /\ 0 < 1
  /\ exists salt0, forall d k c,
       EvCipher d true k c ∈ (runTrace self cs (makeNoiseHandler self)).2 ->
       k = halfOf d (hkdf [] 64 salt0 EmptyString).
Proof.
  intros cs half.
  assert (H : (runTrace self cs (makeNoiseHandler self)).2
              = [EvCipher Seal false NOISE_MODE 0; EvRekey]
                  ++ EvCipher Seal true half 0
                  :: [] ++ EvCipher Seal true half 1 :: [])
    by reflexivity.
  split; [exact H|]. split; [reflexivity|].
  pose proof (nonce_counter_unique self cs) as (Hpairs & _ & _ & _ & Hhalves).
  split.
  - exact (proj2 (proj2 (Hpairs _ _ _ _ _ _ _ _ _ _ _ H
                           (List.Forall_nil _) (or_intror eq_refl)))).
  - exact (Hhalves eq_refl).
Defined.

(** C3 as stated fails.  The first frame of a handler starts with the
    preamble, which [decodeFrame] reads as a length: [onFrame] is not called.
    And after the preamble was sent, the frame of the empty payload is three
    zero bytes, a size of 0 that the loop does not take: [onFrame] is not
    called. *)
Lemma reassembly_counterexample :
  let frame := NOISE_WA_HEADER ++ [Byte.x00; Byte.x00; Byte.x03] ++ payload3 in
  resultOf (encodeFrame payload3 fresh) = Ok frame
  /\ resultOf (feedAll [frame] connected) = Ok tt
  /\ framesOf (eventsOf (feedAll [frame] connected)) = []
  /\ resultOf (encodeFrame [] connected) = Ok [Byte.x00; Byte.x00; Byte.x00]
  /\ resultOf (feedAll [[Byte.x00; Byte.x00; Byte.x00]] connected) = Ok tt
  /\ framesOf (eventsOf (feedAll [[Byte.x00; Byte.x00; Byte.x00]] connected)) = [].
Proof. repeat apply conj; reflexivity. Qed.

Lemma reassembly_witness :
  let frame := [Byte.x00; Byte.x00; Byte.x03] ++ payload3 in
  let sealed := [Byte.x00; Byte.x00; Byte.x13] ++ payload3 ++ repeat Byte.x6b 16 in
  (resultOf (encodeFrame payload3 connected) = Ok frame
   /\ feedAll [[Byte.x00; Byte.x00]; [Byte.x03; Byte.x01]; []; [Byte.x02; Byte.x03]]
        connected
      = (Ok tt, connected, [EvFrame (RawFrame payload3)]))
  /\ (resultOf (encodeFrame payload3 established) = Ok sealed
      /\ feedAll [take 5 sealed; drop 5 sealed] receiver
         = (Ok tt, set_readCounter (readCounter receiver + 1) receiver,
            [EvCipher Unseal true (decKey receiver) (readCounter receiver);
             EvFrame (NodeFrame payload3)])).
Proof.
  intros frame sealed.
  assert (H1 : resultOf (encodeFrame payload3 connected) = Ok frame)
    by (vm_compute; reflexivity).
  assert (H2 : resultOf (encodeFrame payload3 established) = Ok sealed)
    by (vm_compute; reflexivity).
  split; (split; [assumption|]).
  - exact (proj1 reassembly connected connected payload3 frame
             [[Byte.x00; Byte.x00]; [Byte.x03; Byte.x01]; []; [Byte.x02; Byte.x03]]
             eq_refl eq_refl eq_refl eq_refl (conj eq_refl eq_refl) H1 eq_refl).
  - exact (proj2 reassembly established receiver payload3 sealed
             [take 5 sealed; drop 5 sealed] payload3
             eq_refl eq_refl eq_refl eq_refl eq_refl eq_refl eq_refl
             eq_refl eq_refl eq_refl eq_refl H2 eq_refl).
Defined.

(** C4 as stated fails.  The two first frames of a handler, in one read:
    [onFrame] is not called.  And after the preamble was sent, a frame
    followed by the frame of the empty payload: [onFrame] is called once. *)
Lemma coalesced_frames_counterexample :
  let frame1 := NOISE_WA_HEADER ++ [Byte.x00; Byte.x00; Byte.x03] ++ payload3 in
  let frame2 := [Byte.x00; Byte.x00; Byte.x02] ++ payload2 in
  let empty := [Byte.x00; Byte.x00; Byte.x00] in
  resultOf (encodeFrame payload3 fresh) = Ok frame1
  /\ resultOf (encodeFrame payload2 (stateOf (encodeFrame payload3 fresh))) = Ok frame2
  /\ framesOf (eventsOf (decodeFrame (frame1 ++ frame2) connected)) = []
  /\ resultOf (encodeFrame payload2 connected) = Ok frame2
  /\ resultOf (encodeFrame [] (stateOf (encodeFrame payload2 connected))) = Ok empty
  /\ decodeFrame (frame2 ++ empty) connected
     = (Ok tt, set_inBytes empty connected, [EvFrame (RawFrame payload2)]).
Proof. repeat apply conj; reflexivity. Qed.

Lemma coalesced_frames_witness :
  let frame1 := [Byte.x00; Byte.x00; Byte.x03] ++ payload3 in
  let frame2 := [Byte.x00; Byte.x00; Byte.x02] ++ payload2 in
  let sealed1 := [Byte.x00; Byte.x00; Byte.x13] ++ payload3 ++ repeat Byte.x6b 16 in
  let sealed2 := [Byte.x00; Byte.x00; Byte.x12] ++ payload2 ++ repeat Byte.x0f 16 in
  (resultOf (encodeFrame payload3 connected) = Ok frame1
   /\ resultOf (encodeFrame payload2 (stateOf (encodeFrame payload3 connected))) = Ok frame2
   /\ decodeFrame (frame1 ++ frame2) connected
      = (Ok tt, connected, [EvFrame (RawFrame payload3); EvFrame (RawFrame payload2)]))
  /\ (resultOf (encodeFrame payload3 established) = Ok sealed1
      /\ resultOf (encodeFrame payload2 (stateOf (encodeFrame payload3 established)))
         = Ok sealed2
      /\ decodeFrame (sealed1 ++ sealed2) receiver
         = (Ok tt, set_readCounter (readCounter receiver + 1 + 1) receiver,
            [EvCipher Unseal true (decKey receiver) (readCounter receiver);
             EvFrame (NodeFrame payload3);
             EvCipher Unseal true (decKey receiver) (readCounter receiver + 1);
             EvFrame (NodeFrame payload2)])).
Proof.
  intros frame1 frame2 sealed1 sealed2.
  assert (H1 : resultOf (encodeFrame payload3 connected) = Ok frame1)
    by (vm_compute; reflexivity).
  assert (H2 : resultOf (encodeFrame payload2 (stateOf (encodeFrame payload3 connected)))
               = Ok frame2) by (vm_compute; reflexivity).
  assert (H3 : resultOf (encodeFrame payload3 established) = Ok sealed1)
    by (vm_compute; reflexivity).
  assert (H4 : resultOf (encodeFrame payload2 (stateOf (encodeFrame payload3 established)))
               = Ok sealed2) by (vm_compute; reflexivity).
  split; (split; [assumption|]); (split; [assumption|]).
  - exact (proj1 coalesced_frames connected connected payload3 payload2 frame1 frame2
             eq_refl eq_refl eq_refl eq_refl (conj eq_refl eq_refl) (conj eq_refl eq_refl)
             H1 H2).
  - exact (proj2 coalesced_frames established receiver payload3 payload2 sealed1 sealed2
             payload3 payload2
             eq_refl eq_refl eq_refl eq_refl eq_refl eq_refl eq_refl
             eq_refl eq_refl eq_refl eq_refl eq_refl eq_refl eq_refl eq_refl H3 H4).
Defined.

Lemma processHandshake_spec_witness :
  resultOf (processHandshake self hello noiseKey fresh)
  = Ok (public noiseKey ++ repeat Byte.x64 16)
  /\ resultOf (processHandshake self badHello noiseKey fresh)
     = Throw (Boom "certification match failed" 400).
Proof.
  assert (H1 : resultOf (decrypt sealedStatic afterEphemeral) = Ok serverStatic)
    by (vm_compute; reflexivity).
  assert (H2 : resultOf (decrypt (payload hello) afterStatic) = Ok serverStatic)
    by (vm_compute; reflexivity).
  assert (H3 : resultOf (decrypt (payload badHello) afterStatic) = Ok otherStatic)
    by (vm_compute; reflexivity).
  split.
  - rewrite (proj2 (processHandshake_spec self noiseKey hello fresh _ _
                      serverStatic serverStatic serverStatic serverStatic _ _
                      (run_result _ _ _ H1) (run_result _ _ _ H2) eq_refl eq_refl)
               eq_refl).
    cbn [resultOf fst]. vm_compute. reflexivity.
  - rewrite (proj1 (processHandshake_spec self noiseKey badHello fresh _ _
                      serverStatic otherStatic otherStatic otherStatic _ _
                      (run_result _ _ _ H1) (run_result _ _ _ H3) eq_refl eq_refl)).
    + reflexivity.
    + discriminate.
Defined.

Lemma finishInit_spec_witness :
  let key := hkdf [] 64 (salt connected) EmptyString in
  let st' := stateOf (finishInit connected) in
  length key = 64%nat
  /\ encKey st' = take 32 key /\ decKey st' = drop 32 key
  /\ hash st' = [] /\ readCounter st' = 0 /\ writeCounter st' = 0
  /\ isFinished st' = true
  /\ authenticate payload3 (runTrace self [CallEncrypt payload2] st').1
     = (Ok tt, (runTrace self [CallEncrypt payload2] st').1, []).
Proof.
  intros key st'.
  assert (H : length key = 64%nat) by (vm_compute; reflexivity).
  destruct (finishInit_spec connected H)
    as (_ & He & Hd & _ & _ & _ & Hh & Hr & Hw & Hf & Ha).
  split; [exact H|]. split; [exact He|]. split; [exact Hd|]. split; [exact Hh|].
  split; [exact Hr|]. split; [exact Hw|]. split; [exact Hf|]. apply Ha.
Defined.

Lemma decrypt_failure_atomic_witness :
  resultOf (decrypt shortFrame fresh) = Throw CryptoError
  /\ decrypt shortFrame fresh = (Throw CryptoError, fresh, []).
Proof.
  assert (H : resultOf (decrypt shortFrame fresh) = Throw CryptoError)
    by (vm_compute; reflexivity).
  split; [exact H | exact (proj1 (decrypt_failure_atomic shortFrame fresh CryptoError H))].
Defined.

(** C9 as stated fails: for a payload of 2^32 bytes the two writes of the
    length see 0, and [encodeFrame] returns a frame whose length prefix is
    three zero bytes. *)
Lemma encodeFrame_wraps_counterexample :
  2 ^ 24 <= byteLength huge
  /\ resultOf (encodeFrame huge connected)
     = Ok ([Byte.x00; Byte.x00; Byte.x00] ++ huge).
Proof.
  split; [rewrite byteLength_huge; lia|].
  assert (Hhi : js_sar (byteLength huge) 16 = 0)
    by (rewrite byteLength_huge; reflexivity).
  assert (Hlo : js_and 65535 (byteLength huge) = 0)
    by (rewrite byteLength_huge; reflexivity).
  exact (encodeFrame_raw huge connected 0 0 eq_refl eq_refl Hhi Hlo
           (conj (Z.le_refl 0) (Zle_bool_imp_le 0 255 eq_refl))).
Qed.

Lemma encodeFrame_length_prefix_witness :
  (2 ^ 24 <= byteLength (wireOf big connected) < 2 ^ 32
   /\ resultOf (encodeFrame big connected) = Throw RangeError)
  /\ (byteLength (wireOf payload3 connected) < 2 ^ 24
      /\ resultOf (encodeFrame payload3 connected)
         = Ok ([Byte.x00; Byte.x00; Byte.x03] ++ payload3)).
Proof.
  assert (H1 : 2 ^ 24 <= byteLength (wireOf big connected) < 2 ^ 32).
  { rewrite (wireOf_raw big connected eq_refl), byteLength_big. lia. }
  assert (H2 : byteLength (wireOf payload3 connected) < 2 ^ 24) by reflexivity.
  split; (split; [assumption|]).
  - exact (proj1 (encodeFrame_length_prefix big connected) H1).
  - exact (proj1 (proj2 (encodeFrame_length_prefix payload3 connected) H2)).
Defined.

Lemma generateIV_low32_witness :
  generateIV 5 = generateIV (2 ^ 32 + 5)
  /\ resultOf (encrypt payload3 (set_writeCounter 5 established))
     = resultOf (encrypt payload3 (set_writeCounter (2 ^ 32 + 5) established)).
Proof.
  destruct (generateIV_low32 (PF := platform) 5 (2 ^ 32 + 5)) as (_ & _ & Hiff & Henc & _).
  split.
  - apply Hiff. reflexivity.
  - apply Henc; reflexivity.
Defined.

(** ** Instances of the further properties *)

Lemma example_cipherOpens : cipherOpens.
Proof.
  intros key iv aad text. cbn [gcm_decrypt gcm_encrypt platform fst snd].
  rewrite Buffer_compare_refl. split; [reflexivity|]. split; reflexivity.
Qed.

Lemma example_sizedPlatform : sizedPlatform.
Proof.
  split.
  - intros data. apply repeat_length.
  - intros ikm salt0. cbn [hkdf platform].
    rewrite length_take, length_app, !repeat_length. reflexivity.
Qed.

Lemma hello_reply :
  resultOf (processHandshake self hello noiseKey fresh)
  = Ok (public noiseKey ++ repeat Byte.x64 16).
Proof. vm_compute. reflexivity. Qed.

Lemma seal_open_round_trip_witness :
  cipherOpens /\ inStep established receiver
  /\ exists sealed,
       resultOf (forEach encrypt [payload3; payload2] established) = Ok sealed
       /\ resultOf (forEach decrypt sealed receiver) = Ok [payload3; payload2]
       /\ length sealed = length [payload3; payload2]
       /\ inStep (stateOf (forEach encrypt [payload3; payload2] established))
            (stateOf (forEach decrypt sealed receiver)).
Proof.
  assert (Hstep : inStep established receiver) by (repeat split; reflexivity).
  split; [exact example_cipherOpens|]. split; [exact Hstep|].
  exact (seal_open_round_trip [payload3; payload2] established receiver
           example_cipherOpens Hstep).
Defined.

Lemma mixIntoKey_spec_witness :
  let key := hkdf payload2 64 (salt fresh) EmptyString in
  let st' := stateOf (mixIntoKey payload2 fresh) in
  length key = 64%nat
  /\ salt st' = take 32 key /\ encKey st' = drop 32 key /\ decKey st' = drop 32 key
  /\ readCounter st' = 0 /\ writeCounter st' = 0 /\ hash st' = hash fresh.
Proof.
  intros key st'.
  assert (H : length key = 64%nat) by (vm_compute; reflexivity).
  destruct (mixIntoKey_spec payload2 fresh H)
    as (_ & Hs & He & Hd & _ & _ & _ & Hr & Hw & Hh & _).
  repeat split; assumption.
Defined.

Lemma key_sizes_witness :
  let cs := [CallEncrypt payload3; CallFinishInit; CallEncodeFrame payload2] in
  let st := (runTrace self cs (makeNoiseHandler self)).1 in
  sizedPlatform
  /\ length (encKey st) = 32%nat /\ length (decKey st) = 32%nat
  /\ length (salt st) = 32%nat.
Proof.
  intros cs st.
  destruct (key_sizes self cs example_sizedPlatform) as (He & Hd & Hs & _).
  split; [exact example_sizedPlatform|]. repeat split; assumption.
Defined.

Lemma processHandshake_sound_witness :
  resultOf (processHandshake self hello noiseKey fresh)
  = Ok (public noiseKey ++ repeat Byte.x64 16)
  /\ exists decStatic certPlain certDetails,
       resultOf (decrypt (static hello) afterEphemeral) = Ok decStatic
       /\ resultOf (decrypt (payload hello)
                      (stateOf (mixIntoKey (sharedKey (private self) decStatic)
                                  (stateOf (decrypt (static hello) afterEphemeral)))))
          = Ok certPlain
       /\ NoiseCertificate_details certPlain = Some certDetails
       /\ NoiseCertificateDetails_key certDetails = Some decStatic.
Proof.
  split; [exact hello_reply|].
  destruct (processHandshake_sound self noiseKey hello fresh _ hello_reply)
    as (decStatic & certPlain & certDetails & H1 & H2 & H3 & H4 & _).
  exists decStatic, certPlain, certDetails. repeat split; assumption.
Defined.

Lemma processHandshake_failure_witness :
  processHandshake self brokenHello noiseKey fresh
  = (Throw CryptoError, afterEphemeral, [EvRekey]).
Proof.
  exact (proj2 (proj2 (processHandshake_failure self noiseKey brokenHello fresh)) eq_refl).
Defined.

Lemma processHandshake_transcript_witness :
  isFinished fresh = false
  /\ resultOf (processHandshake self hello noiseKey fresh)
     = Ok (public noiseKey ++ repeat Byte.x64 16)
  /\ hash (stateOf (processHandshake self hello noiseKey fresh))
     = absorb (hash fresh)
         [ephemeral hello; static hello; payload hello;
          public noiseKey ++ repeat Byte.x64 16].
Proof.
  split; [reflexivity|]. split; [exact hello_reply|].
  exact (proj1 (processHandshake_transcript self noiseKey hello fresh _ eq_refl hello_reply)).
Defined.

Lemma preamble_once_witness :
  sentIntro fresh = false /\ byteLength (wireOf payload3 fresh) < 2 ^ 24
  /\ resultOf (encodeFrame payload3 fresh)
     = Ok (NOISE_WA_HEADER ++ frameOf (wireOf payload3 fresh))
  /\ sentIntro (runTrace self [CallFinishInit] (stateOf (encodeFrame payload3 fresh))).1
     = true.
Proof.
  destruct (preamble_once self [CallFinishInit] payload3 fresh) as (H1 & H2 & _).
  split; [reflexivity|]. split; [reflexivity|]. split; [|exact H2].
  apply H1; reflexivity.
Defined.

Lemma encodeFrame_failure_effects_witness :
  2 ^ 24 <= byteLength (wireOf big fresh) < 2 ^ 32
  /\ resultOf (encodeFrame big fresh) = Throw RangeError
  /\ sentIntro fresh = false
  /\ sentIntro (stateOf (encodeFrame big fresh)) = true.
Proof.
  assert (H : 2 ^ 24 <= byteLength (wireOf big fresh) < 2 ^ 32).
  { rewrite (wireOf_raw big fresh eq_refl), byteLength_big. lia. }
  destruct (encodeFrame_failure_effects big fresh H) as (H1 & H2 & _).
  split; [exact H|]. split; [exact H1|]. split; [reflexivity | exact H2].
Defined.

Lemma decodeFrame_raw_stream_witness :
  isFinished connected = false
  /\ exists bodies rest,
       decodeFrame (concat rawFrames ++ [Byte.x00; Byte.x00]) connected
       = (Ok tt, set_inBytes rest connected, rawEvents bodies)
       /\ concat (map frameOf bodies) ++ rest
          = inBytes connected ++ concat rawFrames ++ [Byte.x00; Byte.x00].
Proof.
  split; [reflexivity|].
  destruct (decodeFrame_raw_stream (concat rawFrames ++ [Byte.x00; Byte.x00]) connected
              eq_refl) as (bodies & rest & H1 & H2 & _).
  exists bodies, rest. split; assumption.
Defined.

Lemma chunking_independent_witness :
  let chunks := [[Byte.x00; Byte.x00]; [Byte.x03; Byte.x01; Byte.x02]; [];
                 [Byte.x03; Byte.x00; Byte.x00; Byte.x02; Byte.x0e]; [Byte.x0f]] in
  stalled connected
  /\ concat chunks = concat rawFrames
  /\ eventsOf (feedAll chunks connected) = eventsOf (decodeFrame (concat chunks) connected)
  /\ stateOf (feedAll chunks connected) = stateOf (decodeFrame (concat chunks) connected).
Proof.
  intros chunks.
  assert (Hst : stalled connected) by reflexivity.
  destruct (chunking_independent chunks connected Hst) as (_ & H2 & _ & H4).
  split; [exact Hst|]. split; [reflexivity|]. split; [exact H2|].
  apply H4. reflexivity.
Defined.

Lemma decodeFrame_failed_frame_witness :
  isFinished receiver = true
  /\ inBytes receiver ++ frameOf shortFrame ++ [Byte.x07]
     = frameOf shortFrame ++ [Byte.x07]
  /\ 0 < byteLength shortFrame < 2 ^ 24
  /\ decodeFrame (frameOf shortFrame ++ [Byte.x07]) receiver
     = (Throw CryptoError, set_inBytes [Byte.x07] receiver, []).
Proof.
  split; [reflexivity|]. split; [reflexivity|]. split; [split; reflexivity|].
  exact (proj1 (decodeFrame_failed_frame (frameOf shortFrame ++ [Byte.x07]) shortFrame
                  [Byte.x07] receiver eq_refl eq_refl (conj eq_refl eq_refl))
           eq_refl).
Defined.

Lemma zero_length_frame_stalls_witness :
  resultOf (encodeFrame [] connected) = Ok [Byte.x00; Byte.x00; Byte.x00]
  /\ feedAll rawFrames (set_inBytes [Byte.x00; Byte.x00; Byte.x00] connected)
     = (Ok tt,
        set_inBytes ([Byte.x00; Byte.x00; Byte.x00] ++ concat rawFrames) connected, []).
Proof.
  split.
  - exact (proj1 zero_length_frame_stalls connected eq_refl eq_refl).
  - exact (proj2 zero_length_frame_stalls
             (set_inBytes [Byte.x00; Byte.x00; Byte.x00] connected) [] rawFrames eq_refl).
Defined.

Lemma frames_round_trip_witness :
  let chunks := [[Byte.x00; Byte.x00]; [Byte.x03; Byte.x01; Byte.x02]; [];
                 [Byte.x03; Byte.x00; Byte.x00; Byte.x02; Byte.x0e]; [Byte.x0f]] in
  resultOf (forEach encodeFrame [payload3; payload2] connected) = Ok rawFrames
  /\ concat chunks = concat rawFrames
  /\ feedAll chunks connected = (Ok tt, connected, rawEvents [payload3; payload2]).
Proof.
  intros chunks.
  assert (H : resultOf (forEach encodeFrame [payload3; payload2] connected) = Ok rawFrames)
    by (vm_compute; reflexivity).
  assert (Hall : Forall (fun p => 0 < byteLength p < 2 ^ 24) [payload3; payload2])
    by (repeat first [apply List.Forall_nil | apply List.Forall_cons | split; reflexivity]).
  split; [exact H|]. split; [reflexivity|].
  exact (frames_round_trip [payload3; payload2] connected connected rawFrames chunks
           eq_refl eq_refl eq_refl eq_refl Hall H eq_refl).
Defined.

Lemma sealed_frames_round_trip_witness :
  let chunks := [take 7 (concat sealedFrames); []; drop 7 (concat sealedFrames)] in
  cipherOpens
  /\ resultOf (forEach encodeFrame [payload3; payload2] established) = Ok sealedFrames
  /\ feedAll chunks receiver
     = (Ok tt, set_readCounter (readCounter receiver + 2) receiver,
        sealedEvents (decKey receiver) (readCounter receiver) [payload3; payload2]).
Proof.
  intros chunks.
  assert (H : resultOf (forEach encodeFrame [payload3; payload2] established)
              = Ok sealedFrames) by (vm_compute; reflexivity).
  assert (Hall : Forall (fun p => byteLength p + 16 < 2 ^ 24) [payload3; payload2])
    by (repeat first [apply List.Forall_nil | apply List.Forall_cons | reflexivity]).
  assert (Hnodes : Forall2 (fun p node => decodeBinaryNode p = Some node)
                     [payload3; payload2] [payload3; payload2])
    by (repeat first [apply List.Forall2_nil | apply List.Forall2_cons | reflexivity]).
  split; [exact example_cipherOpens|]. split; [exact H|].
  exact (proj1 (sealed_frames_round_trip [payload3; payload2] [payload3; payload2]
                  established receiver sealedFrames chunks example_cipherOpens
                  eq_refl eq_refl eq_refl eq_refl eq_refl eq_refl eq_refl Hall Hnodes H
                  eq_refl)).
Defined.

Lemma finishInit_repeats_witness :
  let cs := [CallEncrypt payload3; CallEncodeFrame payload2; CallDecodeFrame shortFrame] in
  let st1 := stateOf (finishInit fresh) in
  let st3 := stateOf (finishInit (runTrace self cs st1).1) in
  Forall (fun c => mixesKey c = false) cs
  /\ writeCounter (runTrace self cs st1).1 = 2
  /\ encKey st3 = encKey st1 /\ decKey st3 = decKey st1 /\ writeCounter st3 = 0.
Proof.
  intros cs st1 st3.
  assert (H : Forall (fun c => mixesKey c = false) cs)
    by (repeat first [apply List.Forall_nil | apply List.Forall_cons | reflexivity]).
  destruct (finishInit_repeats self cs fresh H) as (_ & He & Hd & _ & Hw & _).
  split; [exact H|]. split; [reflexivity|]. repeat split; assumption.
Defined.

Lemma encodeFrame_any_length_witness :
  byteLength (wireOf huge connected) mod 2 ^ 32 < 2 ^ 24
  /\ resultOf (encodeFrame huge connected)
     = Ok (introOf connected ++ be24 (byteLength (wireOf huge connected) mod 2 ^ 32)
             ++ wireOf huge connected).
Proof.
  assert (Hlen : byteLength (wireOf huge connected) = 2 ^ 32)
    by exact (eq_trans (wire_length_raw huge connected eq_refl) byteLength_huge).
  assert (H : byteLength (wireOf huge connected) mod 2 ^ 32 < 2 ^ 24)
    by exact (eq_ind_r (fun len => len mod 2 ^ 32 < 2 ^ 24)
                (eq_refl : 2 ^ 32 mod 2 ^ 32 < 2 ^ 24) Hlen).
  split; [exact H|]. exact (proj1 (encodeFrame_any_length huge connected) H).
Defined.

Lemma decrypt_cut_witness :
  (length shortFrame < 16)%nat
  /\ cipherBody shortFrame = take 8 shortFrame /\ cipherTag shortFrame = drop 8 shortFrame
  /\ length (drop 8 shortFrame) = 4%nat.
Proof.
  assert (H : (length shortFrame < 16)%nat) by (cbn; lia).
  destruct (decrypt_cut shortFrame fresh) as (Hb & Ht & _ & _ & Hl & _).
  split; [exact H|]. split; [exact Hb|]. split; [exact Ht|]. exact (Hl H).
Defined.

End Instances.
